(** * The Glasgow bigraph solver: its command-line driver and the engine contract

    The development has three parts.

    - [Driver]: a shallow embedding of [main] of
      [src/glasgow_bigraph_solver.cc].  The parsed option map, the file
      system, the bigraph readers, the symmetry tool, the lackey and the
      solver itself are collaborators of [main]; they are gathered in a
      record [World], and [main] is a function of the command line and of
      the world.  What [main] prints and which collaborators it calls, in
      order, is a list of [event]s; its value is the exit status.
    - [Restarts]: the Luby restart schedule, as the specification words it
      (restarts.hh is not among the sources).
    - [Engine]: the acceptance path of the search engine, as the
      specification words it (homomorphism.cc is not among the sources). *)

From Stdlib Require Import String Ascii List ZArith NArith Lia Bool Arith.
From Stdlib Require Import DecimalString.
Import ListNotations.

Local Open Scope list_scope.
Local Open Scope string_scope.

Module Driver.

(** ** Values of the option map *)

(** [double] values are only copied by [main], from the option map into a
    restart schedule; they are kept as their 64-bit pattern. *)
Definition double : Type := Z.

(** A C++ [int] stored into an [unsigned long long] wraps modulo 2^64. *)
Definition to_unsigned_long_long (n : Z) : Z := Z.modulo n (2 ^ 64).

(** [po::variables_map] after [po::store] and [po::notify]: one field per
    declared option.  A flag is a [bool] ([count(name)] is 0 or 1), an
    option with a value is an [option] ([count(name)] is [isSome]), and the
    vector bound to [--pattern-less-than] is a list. *)
Record variables_map : Type := {
  opt_help : bool;
  opt_timeout : option Z;
  opt_parallel : bool;
  opt_count_solutions : bool;
  opt_print_all_solutions : bool;
  opt_restarts : option string;
  opt_geometric_multiplier : option double;
  opt_geometric_constant : option double;
  opt_restart_interval : option Z;
  opt_restart_minimum : option Z;
  opt_luby_constant : option Z;
  opt_value_ordering : option string;
  opt_pattern_symmetries : bool;
  opt_no_clique_detection : bool;
  opt_no_isolated_vertex_removal : bool;
  opt_no_supplementals : bool;
  opt_no_nds : bool;
  opt_threads : option Z;
  opt_triggered_restarts : bool;
  opt_delay_thread_creation : bool;
  pattern_less_thans : list string;
  opt_pattern_automorphism_group_size : option string;
  opt_send_to_lackey : option string;
  opt_receive_from_lackey : option string;
  opt_pattern_file : option string;
  opt_target_file : option string
}.

Definition count {A : Type} (o : option A) : bool :=
  match o with Some _ => true | None => false end.

(** ** The parameters handed to the solver *)

(** Modelled from the spec: the enumeration [Injectivity] is declared in
    homomorphism.hh, which is not among the sources.  [main] names only
    [Injective]; [NonInjective] stands for every other setting. *)
Inductive Injectivity : Type := Injective | NonInjective.

Inductive ValueOrdering : Type := Biased | Degree | AntiDegree | Random.

Inductive RestartsSchedule : Type :=
| LubyRestartsSchedule (multiplier : Z)
| GeometricRestartsSchedule (initial_value multiplier : double)
| TimedRestartsSchedule (duration : Z) (minimum_backtracks : Z)
| NoRestartsSchedule.

(** The [static constexpr] defaults of the schedule classes (restarts.hh). *)
Record RestartsDefaults : Type := {
  Luby_default_multiplier : Z;
  Geometric_default_initial_value : double;
  Geometric_default_multiplier : double;
  Timed_default_duration : Z;
  Timed_default_minimum_backtracks : Z
}.

Record Lackey : Type := {
  send_to_name : string;
  read_from_name : string
}.

Definition VertexToVertexMapping : Type := list (Z * Z).

Record HomomorphismParams : Type := {
  injectivity : Injectivity;
  induced : bool;
  bigraph : bool;
  count_solutions : bool;
  minimal_unsat_pattern : bool;
  triggered_restarts : bool;
  n_threads : Z;
  delay_thread_creation : bool;
  restarts_schedule : option RestartsSchedule;
  value_ordering_heuristic : ValueOrdering;
  pattern_less_constraints : list (string * string);
  lackey : option Lackey;
  enumerate_callback : bool;
  timeout : Z;
  start_time : Z
}.

Record HomomorphismResult : Type := {
  mapping : VertexToVertexMapping;
  nodes : Z;
  propagations : Z;
  extra_stats : list string;
  solution_count : Z
}.

(** What one call of [solve_homomorphism_problem] leaves behind, next to
    the result it returns (or the exception it throws): the mappings it
    passed to [enumerate_callback], in order, and what
    [params.timeout->aborted()] answers afterwards. *)
Record SolverRun : Type := {
  enumerated : list VertexToVertexMapping;
  aborted : bool
}.

(** An input graph, as far as [main] looks into it. *)
Record InputGraph : Type := {
  vertex_name : Z -> string
}.

(** ** Exceptions, events and the program monad *)

Inductive exception : Type :=
| GraphFileError (what : string)
| po_error (what : string)
| std_exception (what : string).

Definition what (e : exception) : string :=
  match e with
  | GraphFileError w => w
  | po_error w => w
  | std_exception w => w
  end.

Inductive event : Type :=
| cout (line : string)
| cerr (line : string)
| open_ifstream (filename : string)
| call_read_pattern_bigraph (filename : string)
| call_read_target_bigraph (filename : string)
| new_Lackey (send_to receive_from : string)
| call_find_symmetries
| call_solve_homomorphism_problem
    (graphs : InputGraph * InputGraph) (params : HomomorphismParams).

Inductive outcome (A : Type) : Type :=
| Continue (a : A)
| Return (status : Z)
| Throw (e : exception).

Arguments Continue {A} a.
Arguments Return {A} status.
Arguments Throw {A} e.

(** A piece of [main]: the events it produces and how it ends. *)
Definition program (A : Type) : Type := (list event * outcome A)%type.

Definition ret {A : Type} (a : A) : program A := ([], Continue a).

Definition bind {A B : Type} (m : program A) (k : A -> program B) : program B :=
  match m with
  | (t, Continue a) => let (t', o) := k a in ((t ++ t')%list, o)
  | (t, Return s) => (t, Return s)
  | (t, Throw e) => (t, Throw e)
  end.

Definition emit (e : event) : program unit := ([e], Continue tt).
Definition return_ {A : Type} (status : Z) : program A := ([], Return status).
Definition throw {A : Type} (e : exception) : program A := ([], Throw e).
Definition lift {A : Type} (r : exception + A) : program A :=
  match r with inl e => throw e | inr a => ret a end.

Notation "x <- m ;; k" := (bind m (fun x => k))
  (at level 61, m at next level, right associativity).
Notation "m ;;; k" := (bind m (fun _ => k))
  (at level 61, right associativity).

(** [if (c) { body }] without an [else]. *)
Definition when (c : bool) (body : program unit) : program unit :=
  if c then body else ret tt.

(** [options_vars[name].as<T>()]; on an absent option boost throws. *)
Definition as_ {A : Type} (o : option A) : program A :=
  match o with
  | Some a => ret a
  | None => throw (std_exception "boost::bad_any_cast: failed conversion using boost::any_cast")
  end.

Definition EXIT_SUCCESS : Z := 0.
Definition EXIT_FAILURE : Z := 1.

Definition string_of_Z (n : Z) : string := NilZero.string_of_int (Z.to_int n).

(** [s.find(c)]: the position of the first [c], [None] for [string::npos]. *)
Fixpoint find (c : ascii) (s : string) : option nat :=
  match s with
  | EmptyString => None
  | String a s' =>
      if Ascii.eqb a c then Some 0%nat
      else match find c s' with
           | Some p => Some (S p)
           | None => None
           end
  end.

(** [s.substr(pos)], for [pos] at most the length. *)
Definition substr_from (pos : nat) (s : string) : string :=
  substring pos (String.length s - pos) s.


(** Field updates of [HomomorphismParams] ([params.field = value]). *)
Definition set_injectivity (p : HomomorphismParams) (v : Injectivity) :=
  {| injectivity := v; induced := induced p; bigraph := bigraph p;
     count_solutions := count_solutions p;
     minimal_unsat_pattern := minimal_unsat_pattern p;
     triggered_restarts := triggered_restarts p; n_threads := n_threads p;
     delay_thread_creation := delay_thread_creation p;
     restarts_schedule := restarts_schedule p;
     value_ordering_heuristic := value_ordering_heuristic p;
     pattern_less_constraints := pattern_less_constraints p;
     lackey := lackey p; enumerate_callback := enumerate_callback p;
     timeout := timeout p; start_time := start_time p |}.

Definition set_induced (p : HomomorphismParams) (v : bool) :=
  {| injectivity := injectivity p; induced := v; bigraph := bigraph p;
     count_solutions := count_solutions p;
     minimal_unsat_pattern := minimal_unsat_pattern p;
     triggered_restarts := triggered_restarts p; n_threads := n_threads p;
     delay_thread_creation := delay_thread_creation p;
     restarts_schedule := restarts_schedule p;
     value_ordering_heuristic := value_ordering_heuristic p;
     pattern_less_constraints := pattern_less_constraints p;
     lackey := lackey p; enumerate_callback := enumerate_callback p;
     timeout := timeout p; start_time := start_time p |}.

Definition set_bigraph (p : HomomorphismParams) (v : bool) :=
  {| injectivity := injectivity p; induced := induced p; bigraph := v;
     count_solutions := count_solutions p;
     minimal_unsat_pattern := minimal_unsat_pattern p;
     triggered_restarts := triggered_restarts p; n_threads := n_threads p;
     delay_thread_creation := delay_thread_creation p;
     restarts_schedule := restarts_schedule p;
     value_ordering_heuristic := value_ordering_heuristic p;
     pattern_less_constraints := pattern_less_constraints p;
     lackey := lackey p; enumerate_callback := enumerate_callback p;
     timeout := timeout p; start_time := start_time p |}.

Definition set_count_solutions (p : HomomorphismParams) (v : bool) :=
  {| injectivity := injectivity p; induced := induced p; bigraph := bigraph p;
     count_solutions := v;
     minimal_unsat_pattern := minimal_unsat_pattern p;
     triggered_restarts := triggered_restarts p; n_threads := n_threads p;
     delay_thread_creation := delay_thread_creation p;
     restarts_schedule := restarts_schedule p;
     value_ordering_heuristic := value_ordering_heuristic p;
     pattern_less_constraints := pattern_less_constraints p;
     lackey := lackey p; enumerate_callback := enumerate_callback p;
     timeout := timeout p; start_time := start_time p |}.

Definition set_minimal_unsat_pattern (p : HomomorphismParams) (v : bool) :=
  {| injectivity := injectivity p; induced := induced p; bigraph := bigraph p;
     count_solutions := count_solutions p;
     minimal_unsat_pattern := v;
     triggered_restarts := triggered_restarts p; n_threads := n_threads p;
     delay_thread_creation := delay_thread_creation p;
     restarts_schedule := restarts_schedule p;
     value_ordering_heuristic := value_ordering_heuristic p;
     pattern_less_constraints := pattern_less_constraints p;
     lackey := lackey p; enumerate_callback := enumerate_callback p;
     timeout := timeout p; start_time := start_time p |}.

Definition set_triggered_restarts (p : HomomorphismParams) (v : bool) :=
  {| injectivity := injectivity p; induced := induced p; bigraph := bigraph p;
     count_solutions := count_solutions p;
     minimal_unsat_pattern := minimal_unsat_pattern p;
     triggered_restarts := v; n_threads := n_threads p;
     delay_thread_creation := delay_thread_creation p;
     restarts_schedule := restarts_schedule p;
     value_ordering_heuristic := value_ordering_heuristic p;
     pattern_less_constraints := pattern_less_constraints p;
     lackey := lackey p; enumerate_callback := enumerate_callback p;
     timeout := timeout p; start_time := start_time p |}.

Definition set_n_threads (p : HomomorphismParams) (v : Z) :=
  {| injectivity := injectivity p; induced := induced p; bigraph := bigraph p;
     count_solutions := count_solutions p;
     minimal_unsat_pattern := minimal_unsat_pattern p;
     triggered_restarts := triggered_restarts p; n_threads := v;
     delay_thread_creation := delay_thread_creation p;
     restarts_schedule := restarts_schedule p;
     value_ordering_heuristic := value_ordering_heuristic p;
     pattern_less_constraints := pattern_less_constraints p;
     lackey := lackey p; enumerate_callback := enumerate_callback p;
     timeout := timeout p; start_time := start_time p |}.

Definition set_delay_thread_creation (p : HomomorphismParams) (v : bool) :=
  {| injectivity := injectivity p; induced := induced p; bigraph := bigraph p;
     count_solutions := count_solutions p;
     minimal_unsat_pattern := minimal_unsat_pattern p;
     triggered_restarts := triggered_restarts p; n_threads := n_threads p;
     delay_thread_creation := v;
     restarts_schedule := restarts_schedule p;
     value_ordering_heuristic := value_ordering_heuristic p;
     pattern_less_constraints := pattern_less_constraints p;
     lackey := lackey p; enumerate_callback := enumerate_callback p;
     timeout := timeout p; start_time := start_time p |}.

Definition set_restarts_schedule (p : HomomorphismParams) (v : RestartsSchedule) :=
  {| injectivity := injectivity p; induced := induced p; bigraph := bigraph p;
     count_solutions := count_solutions p;
     minimal_unsat_pattern := minimal_unsat_pattern p;
     triggered_restarts := triggered_restarts p; n_threads := n_threads p;
     delay_thread_creation := delay_thread_creation p;
     restarts_schedule := Some v;
     value_ordering_heuristic := value_ordering_heuristic p;
     pattern_less_constraints := pattern_less_constraints p;
     lackey := lackey p; enumerate_callback := enumerate_callback p;
     timeout := timeout p; start_time := start_time p |}.

Definition set_value_ordering_heuristic (p : HomomorphismParams) (v : ValueOrdering) :=
  {| injectivity := injectivity p; induced := induced p; bigraph := bigraph p;
     count_solutions := count_solutions p;
     minimal_unsat_pattern := minimal_unsat_pattern p;
     triggered_restarts := triggered_restarts p; n_threads := n_threads p;
     delay_thread_creation := delay_thread_creation p;
     restarts_schedule := restarts_schedule p;
     value_ordering_heuristic := v;
     pattern_less_constraints := pattern_less_constraints p;
     lackey := lackey p; enumerate_callback := enumerate_callback p;
     timeout := timeout p; start_time := start_time p |}.

Definition set_pattern_less_constraints (p : HomomorphismParams) (v : list (string * string)) :=
  {| injectivity := injectivity p; induced := induced p; bigraph := bigraph p;
     count_solutions := count_solutions p;
     minimal_unsat_pattern := minimal_unsat_pattern p;
     triggered_restarts := triggered_restarts p; n_threads := n_threads p;
     delay_thread_creation := delay_thread_creation p;
     restarts_schedule := restarts_schedule p;
     value_ordering_heuristic := value_ordering_heuristic p;
     pattern_less_constraints := v;
     lackey := lackey p; enumerate_callback := enumerate_callback p;
     timeout := timeout p; start_time := start_time p |}.

Definition set_lackey (p : HomomorphismParams) (v : Lackey) :=
  {| injectivity := injectivity p; induced := induced p; bigraph := bigraph p;
     count_solutions := count_solutions p;
     minimal_unsat_pattern := minimal_unsat_pattern p;
     triggered_restarts := triggered_restarts p; n_threads := n_threads p;
     delay_thread_creation := delay_thread_creation p;
     restarts_schedule := restarts_schedule p;
     value_ordering_heuristic := value_ordering_heuristic p;
     pattern_less_constraints := pattern_less_constraints p;
     lackey := Some v; enumerate_callback := enumerate_callback p;
     timeout := timeout p; start_time := start_time p |}.

Definition set_enumerate_callback (p : HomomorphismParams) :=
  {| injectivity := injectivity p; induced := induced p; bigraph := bigraph p;
     count_solutions := count_solutions p;
     minimal_unsat_pattern := minimal_unsat_pattern p;
     triggered_restarts := triggered_restarts p; n_threads := n_threads p;
     delay_thread_creation := delay_thread_creation p;
     restarts_schedule := restarts_schedule p;
     value_ordering_heuristic := value_ordering_heuristic p;
     pattern_less_constraints := pattern_less_constraints p;
     lackey := lackey p; enumerate_callback := true;
     timeout := timeout p; start_time := start_time p |}.

Definition set_timeout (p : HomomorphismParams) (v : Z) :=
  {| injectivity := injectivity p; induced := induced p; bigraph := bigraph p;
     count_solutions := count_solutions p;
     minimal_unsat_pattern := minimal_unsat_pattern p;
     triggered_restarts := triggered_restarts p; n_threads := n_threads p;
     delay_thread_creation := delay_thread_creation p;
     restarts_schedule := restarts_schedule p;
     value_ordering_heuristic := value_ordering_heuristic p;
     pattern_less_constraints := pattern_less_constraints p;
     lackey := lackey p; enumerate_callback := enumerate_callback p;
     timeout := v; start_time := start_time p |}.

Definition set_start_time (p : HomomorphismParams) (v : Z) :=
  {| injectivity := injectivity p; induced := induced p; bigraph := bigraph p;
     count_solutions := count_solutions p;
     minimal_unsat_pattern := minimal_unsat_pattern p;
     triggered_restarts := triggered_restarts p; n_threads := n_threads p;
     delay_thread_creation := delay_thread_creation p;
     restarts_schedule := restarts_schedule p;
     value_ordering_heuristic := value_ordering_heuristic p;
     pattern_less_constraints := pattern_less_constraints p;
     lackey := lackey p; enumerate_callback := enumerate_callback p;
     timeout := timeout p; start_time := v |}.

(** ** The collaborators of [main] *)

Record World : Type := {
  (** constants and default member initialisers of the absent headers *)
  restarts_defaults : RestartsDefaults;
  default_HomomorphismParams : HomomorphismParams;
  (** [po::command_line_parser(argc, argv)...run()], [store], [notify] *)
  command_line_parser : list string -> exception + variables_map;
  (** the text of [cout << display_options] *)
  display_options : string;
  gethostname : option string;
  (** [put_time(localtime(&started_at), "%F %T")] *)
  started_at : string;
  (** whether an [ifstream] on this name opens *)
  ifstream_good : string -> bool;
  (** [what()] of [GraphFileError{ filename, message, exists }] *)
  GraphFileError_what : string -> string -> bool -> string;
  read_pattern_bigraph : string -> exception + InputGraph;
  read_target_bigraph : string -> exception + InputGraph;
  (** the two arguments of [make_pair] are evaluated in either order *)
  make_pair_second_first : bool;
  Lackey_constructor :
    string -> string -> InputGraph -> InputGraph -> exception + Lackey;
  (** [find_symmetries] updates the constraints and the group size *)
  find_symmetries :
    string -> InputGraph -> list (string * string) -> string ->
    exception + (list (string * string) * string);
  pattern_symmetry_time : Z;
  steady_clock_now : Z;
  solve_homomorphism_problem :
    InputGraph * InputGraph -> HomomorphismParams ->
    SolverRun * (exception + HomomorphismResult);
  overall_time : Z
}.

(** ** [main], block by block (line numbers are those of the source) *)

Section Main.

Variable w : World.

Definition usage (argv0 : string) : string :=
  "Usage: " ++ argv0 ++ " [options] pattern target".

(** Lines 141-157: the fixed settings and the thread options. *)
Definition configure_fixed (options_vars : variables_map) : HomomorphismParams :=
  let params := default_HomomorphismParams w in
  let params := set_injectivity params Injective in
  let params := set_induced params true in
  let params := set_bigraph params true in
  let params := set_count_solutions params
    (opt_count_solutions options_vars || opt_print_all_solutions options_vars) in
  let params := set_minimal_unsat_pattern params false in
  let params := set_triggered_restarts params
    (opt_triggered_restarts options_vars || opt_parallel options_vars) in
  let params :=
    match opt_threads options_vars with
    | Some n => set_n_threads params n
    | None => if opt_parallel options_vars then set_n_threads params 0 else params
    end in
  if opt_delay_thread_creation options_vars || opt_parallel options_vars
  then set_delay_thread_creation params true
  else params.

(** Lines 159-200: the restart schedule. *)
Definition configure_restarts (options_vars : variables_map)
    (params : HomomorphismParams) : program HomomorphismParams :=
  let d := restarts_defaults w in
  if count (opt_restarts options_vars) then
    restarts_policy <- as_ (opt_restarts options_vars) ;;
    if restarts_policy =? "luby" then
      let multiplier :=
        match opt_luby_constant options_vars with
        | Some c => to_unsigned_long_long c
        | None => Luby_default_multiplier d
        end in
      ret (set_restarts_schedule params (LubyRestartsSchedule multiplier))
    else if restarts_policy =? "geometric" then
      let geometric_constant :=
        match opt_geometric_constant options_vars with
        | Some c => c
        | None => Geometric_default_initial_value d
        end in
      let geometric_multiplier :=
        match opt_geometric_multiplier options_vars with
        | Some c => c
        | None => Geometric_default_multiplier d
        end in
      ret (set_restarts_schedule params
             (GeometricRestartsSchedule geometric_constant geometric_multiplier))
    else if restarts_policy =? "timed" then
      let duration :=
        match opt_restart_interval options_vars with
        | Some c => c
        | None => Timed_default_duration d
        end in
      let minimum_backtracks :=
        match opt_restart_minimum options_vars with
        | Some c => to_unsigned_long_long c
        | None => Timed_default_minimum_backtracks d
        end in
      ret (set_restarts_schedule params
             (TimedRestartsSchedule duration minimum_backtracks))
    else if restarts_policy =? "none" then
      ret (set_restarts_schedule params NoRestartsSchedule)
    else
      emit (cerr ("Unknown restarts policy '" ++ restarts_policy ++ "'")) ;;;
      return_ EXIT_FAILURE
  else
    if count_solutions params then
      ret (set_restarts_schedule params NoRestartsSchedule)
    else if opt_parallel options_vars then
      ret (set_restarts_schedule params
             (TimedRestartsSchedule (Timed_default_duration d)
                (Timed_default_minimum_backtracks d)))
    else
      ret (set_restarts_schedule params
             (LubyRestartsSchedule (Luby_default_multiplier d))).

(** Lines 202-216: the value-ordering heuristic. *)
Definition configure_value_ordering (options_vars : variables_map)
    (params : HomomorphismParams) : program HomomorphismParams :=
  if count (opt_value_ordering options_vars) then
    value_ordering_heuristic <- as_ (opt_value_ordering options_vars) ;;
    if value_ordering_heuristic =? "biased" then
      ret (set_value_ordering_heuristic params Biased)
    else if value_ordering_heuristic =? "degree" then
      ret (set_value_ordering_heuristic params Degree)
    else if value_ordering_heuristic =? "antidegree" then
      ret (set_value_ordering_heuristic params AntiDegree)
    else if value_ordering_heuristic =? "random" then
      ret (set_value_ordering_heuristic params Random)
    else
      emit (cerr ("Unknown value-ordering heuristic '"
                  ++ value_ordering_heuristic ++ "'")) ;;;
      return_ EXIT_FAILURE
  else ret params.

(** Lines 225-233: the loop over the less-than constraints. *)
Fixpoint configure_less_thans (l : list string)
    (params : HomomorphismParams) : program HomomorphismParams :=
  match l with
  | [] => ret params
  | s :: l' =>
      match find "<" s with
      | None =>
          emit (cerr ("Invalid pattern less-than constraint '" ++ s ++ "'")) ;;;
          return_ EXIT_FAILURE
      | Some p =>
          let a := substring 0 p s in
          let b := substr_from (p + 1) s in
          configure_less_thans l'
            (set_pattern_less_constraints params
               (pattern_less_constraints params ++ [(a, b)])%list)
      end
  end.

(** Lines 240-249: the banner. *)
Definition banner (argv : list string) : program unit :=
  match gethostname w with
  | Some hostname => emit (cout ("hostname = " ++ hostname))
  | None => ret tt
  end ;;;
  emit (cout ("commandline =" ++ String.concat "" (map (fun a => " " ++ a) argv))) ;;;
  emit (cout ("started_at = " ++ started_at w)).

Definition open_file (filename message : string) : program unit :=
  emit (open_ifstream filename) ;;;
  when (negb (ifstream_good w filename))
    (throw (GraphFileError (GraphFileError_what w filename message false))).

(** Lines 253-269: reading the two graphs. *)
Definition read_graphs (options_vars : variables_map)
    : program (InputGraph * InputGraph) :=
  pattern_filename <- as_ (opt_pattern_file options_vars) ;;
  target_filename <- as_ (opt_target_file options_vars) ;;
  open_file pattern_filename "unable to open pattern file" ;;;
  open_file target_filename "unable to open target file" ;;;
  let read_pattern :=
    emit (call_read_pattern_bigraph pattern_filename) ;;;
    lift (read_pattern_bigraph w pattern_filename) in
  let read_target :=
    emit (call_read_target_bigraph target_filename) ;;;
    lift (read_target_bigraph w target_filename) in
  graphs <-
    (if make_pair_second_first w
     then t <- read_target ;; p <- read_pattern ;; ret (p, t)
     else p <- read_pattern ;; t <- read_target ;; ret (p, t)) ;;
  emit (cout ("pattern_file = " ++ pattern_filename)) ;;;
  emit (cout ("target_file = " ++ target_filename)) ;;;
  ret graphs.

(** The line printed for a mapping (lines 281-284 and 325-328). *)
Definition mapping_line (graphs : InputGraph * InputGraph)
    (m : VertexToVertexMapping) : string :=
  "mapping = " ++
  String.concat "" (map (fun v => "(" ++ vertex_name (fst graphs) (fst v) ++ " -> "
                           ++ vertex_name (snd graphs) (snd v) ++ ") ") m).

(** Lines 271-277: the lackey. *)
Definition configure_lackey (options_vars : variables_map)
    (graphs : InputGraph * InputGraph)
    (params : HomomorphismParams) : program HomomorphismParams :=
  if count (opt_send_to_lackey options_vars)
     && count (opt_receive_from_lackey options_vars) then
    send <- as_ (opt_send_to_lackey options_vars) ;;
    receive <- as_ (opt_receive_from_lackey options_vars) ;;
    emit (new_Lackey send receive) ;;;
    l <- lift (Lackey_constructor w send receive (fst graphs) (snd graphs)) ;;
    ret (set_lackey params l)
  else ret params.

(** Lines 294-302: pattern symmetries and the group size. *)
Definition configure_symmetries (argv0 : string) (options_vars : variables_map)
    (graphs : InputGraph * InputGraph)
    (params : HomomorphismParams) : program HomomorphismParams :=
  let pattern_automorphism_group_size :=
    match opt_pattern_automorphism_group_size options_vars with
    | Some g => g
    | None => "1"
    end in
  let was_given_automorphism_group :=
    count (opt_pattern_automorphism_group_size options_vars) in
  if opt_pattern_symmetries options_vars then
    emit call_find_symmetries ;;;
    r <- lift (find_symmetries w argv0 (fst graphs)
                 (pattern_less_constraints params)
                 pattern_automorphism_group_size) ;;
    emit (cout ("pattern_symmetry_time = " ++ string_of_Z (pattern_symmetry_time w))) ;;;
    emit (cout ("pattern_automorphism_group_size = " ++ snd r)) ;;;
    ret (set_pattern_less_constraints params (fst r))
  else
    when was_given_automorphism_group
      (emit (cout ("pattern_automorphism_group_size = "
                   ++ pattern_automorphism_group_size))) ;;;
    ret params.

(** Lines 309-316: the status. *)
Definition status (params : HomomorphismParams) (timeout_aborted : bool)
    (result : HomomorphismResult) : string :=
  if timeout_aborted then "aborted"
  else if negb (match mapping result with [] => true | _ => false end)
          || (count_solutions params && (0 <? solution_count result)%Z)
  then "true"
  else "false".

(** Lines 304-336: the call of the solver and the report. *)
Definition solve_and_report (options_vars : variables_map)
    (graphs : InputGraph * InputGraph)
    (params : HomomorphismParams) : program Empty_set :=
  emit (call_solve_homomorphism_problem graphs params) ;;;
  let run := solve_homomorphism_problem w graphs params in
  when (enumerate_callback params)
    (fold_right (fun m k => emit (cout (mapping_line graphs m)) ;;; k)
       (ret tt) (enumerated (fst run))) ;;;
  result <- lift (snd run) ;;
  emit (cout ("status = " ++ status params (aborted (fst run)) result)) ;;;
  when (count_solutions params)
    (emit (cout ("solution_count = " ++ string_of_Z (solution_count result)))) ;;;
  emit (cout ("nodes = " ++ string_of_Z (nodes result))) ;;;
  emit (cout ("propagations = " ++ string_of_Z (propagations result))) ;;;
  when (negb (match mapping result with [] => true | _ => false end)
        && negb (opt_print_all_solutions options_vars))
    (emit (cout (mapping_line graphs (mapping result)))) ;;;
  emit (cout ("runtime = " ++ string_of_Z (overall_time w))) ;;;
  fold_right (fun s k => emit (cout s) ;;; k) (ret tt) (extra_stats result) ;;;
  return_ EXIT_SUCCESS.

(** Lines 141-238: everything [main] decides from the options alone. *)
Definition configure (options_vars : variables_map) : program HomomorphismParams :=
  let params := configure_fixed options_vars in
  params <- configure_restarts options_vars params ;;
  params <- configure_value_ordering options_vars params ;;
  params <- configure_less_thans (pattern_less_thans options_vars) params ;;
  when (xorb (count (opt_send_to_lackey options_vars))
             (count (opt_receive_from_lackey options_vars)))
    (emit (cerr "Must specify both of --send-to-lackey and --receive-from-lackey") ;;;
     return_ EXIT_FAILURE) ;;;
  ret params.

(** Lines 240-336: the banner, the graphs, the solver and the report. *)
Definition run (argv : list string) (options_vars : variables_map)
    (params : HomomorphismParams) : program Empty_set :=
  let argv0 := nth 0 argv "" in
  banner argv ;;;
  graphs <- read_graphs options_vars ;;
  params <- configure_lackey options_vars graphs params ;;
  let params :=
    if opt_print_all_solutions options_vars
    then set_enumerate_callback params else params in
  let params :=
    set_timeout params
      (match opt_timeout options_vars with Some t => t | None => 0%Z end) in
  let params := set_start_time params (steady_clock_now w) in
  params <- configure_symmetries argv0 options_vars graphs params ;;
  solve_and_report options_vars graphs params.

(** The [try] block, lines 50-337. *)
Definition main_try (argv : list string) : program Empty_set :=
  let argv0 := nth 0 argv "" in
  options_vars <- lift (command_line_parser w argv) ;;
  when (opt_help options_vars)
    (emit (cout (usage argv0)) ;;;
     emit (cout "") ;;;
     emit (cout (display_options w)) ;;;
     return_ EXIT_SUCCESS) ;;;
  when (negb (count (opt_pattern_file options_vars))
        || negb (count (opt_target_file options_vars)))
    (emit (cout (usage argv0)) ;;;
     return_ EXIT_FAILURE) ;;;
  params <- configure options_vars ;;
  run argv options_vars params.

(** [main]: the [try] block under its three handlers.  The value is the
    trace of events and the exit status. *)
Definition main (argv : list string) : list event * Z :=
  let argv0 := nth 0 argv "" in
  match main_try argv with
  | (t, Continue a) => match a with end
  | (t, Return status) => (t, status)
  | (t, Throw (GraphFileError m)) =>
      ((t ++ [cerr ("Error: " ++ m)])%list, EXIT_FAILURE)
  | (t, Throw (po_error m)) =>
      ((t ++ [cerr ("Error: " ++ m); cerr ("Try " ++ argv0 ++ " --help")])%list,
       EXIT_FAILURE)
  | (t, Throw (std_exception m)) =>
      ((t ++ [cerr ("Error: " ++ m)])%list, EXIT_FAILURE)
  end.

End Main.

(** ** Vocabulary of the statements about [main] *)

(** The names the two policy options recognise. *)
Definition restarts_policies : list string :=
  ["luby"; "geometric"; "timed"; "none"].
Definition value_ordering_heuristics : list string :=
  ["biased"; "degree"; "antidegree"; "random"].

(** The search has started when the solver has been called. *)
Definition search_started (t : list event) : Prop :=
  exists graphs params, In (call_solve_homomorphism_problem graphs params) t.

(** An input graph has been touched when a file was opened or read. *)
Definition graphs_touched (t : list event) : Prop :=
  exists f, In (open_ifstream f) t \/ In (call_read_pattern_bigraph f) t
            \/ In (call_read_target_bigraph f) t.

(** The text has no ['<'] in it. *)
Definition no_separator (s : string) : Prop :=
  ~ In "<"%char (list_ascii_of_string s).

Definition is_solve (e : event) : bool :=
  match e with call_solve_homomorphism_problem _ _ => true | _ => false end.
Definition is_new_Lackey (e : event) : bool :=
  match e with new_Lackey _ _ => true | _ => false end.

(** A piece of [main] that produces no event of the kind [P]. *)
Definition avoids {A : Type} (P : event -> bool) (m : program A) : Prop :=
  forall e, In e (fst m) -> P e = false.

(** The settings that no later step of [main] touches once they are set. *)
Definition same_core (p p' : HomomorphismParams) : Prop :=
  injectivity p' = injectivity p /\ induced p' = induced p /\
  count_solutions p' = count_solutions p /\
  restarts_schedule p' = restarts_schedule p.

(** [m] runs some events and then behaves as [tl]. *)
Definition ends_with {A : Type} (m tl : program A) : Prop :=
  exists prefix, fst m = (prefix ++ fst tl)%list /\ snd m = snd tl.

(** An option naming a policy is fine when it is absent or names one of
    the recognised policies. *)
Definition recognised (names : list string) (o : option string) : Prop :=
  forall s, o = Some s -> In s names.

(** What lines 141-238 do, case by case: either every check passes,
    nothing is printed and the parameters carry the settings below, or the
    first failing check prints one line on [cerr] and [main] returns
    [EXIT_FAILURE]. *)
Inductive configure_verdict (d : RestartsDefaults) (ov : variables_map)
    : list event -> outcome HomomorphismParams -> Prop :=
| verdict_configured (p : HomomorphismParams) :
    recognised restarts_policies (opt_restarts ov) ->
    recognised value_ordering_heuristics (opt_value_ordering ov) ->
    Forall (fun s => ~ no_separator s) (pattern_less_thans ov) ->
    xorb (count (opt_send_to_lackey ov)) (count (opt_receive_from_lackey ov)) = false ->
    injectivity p = Injective ->
    induced p = true ->
    count_solutions p = (opt_count_solutions ov || opt_print_all_solutions ov) ->
    (opt_restarts ov = None ->
     restarts_schedule p =
     Some (if count_solutions p then NoRestartsSchedule
           else if opt_parallel ov then
             TimedRestartsSchedule (Timed_default_duration d)
               (Timed_default_minimum_backtracks d)
           else LubyRestartsSchedule (Luby_default_multiplier d))) ->
    configure_verdict d ov [] (Continue p)
| verdict_restarts (s : string) :
    opt_restarts ov = Some s -> ~ In s restarts_policies ->
    configure_verdict d ov
      [cerr ("Unknown restarts policy '" ++ s ++ "'")] (Return EXIT_FAILURE)
| verdict_value_ordering (s : string) :
    recognised restarts_policies (opt_restarts ov) ->
    opt_value_ordering ov = Some s -> ~ In s value_ordering_heuristics ->
    configure_verdict d ov
      [cerr ("Unknown value-ordering heuristic '" ++ s ++ "'")] (Return EXIT_FAILURE)
| verdict_less_than (s : string) :
    recognised restarts_policies (opt_restarts ov) ->
    recognised value_ordering_heuristics (opt_value_ordering ov) ->
    In s (pattern_less_thans ov) -> no_separator s ->
    configure_verdict d ov
      [cerr ("Invalid pattern less-than constraint '" ++ s ++ "'")] (Return EXIT_FAILURE)
| verdict_lackey :
    recognised restarts_policies (opt_restarts ov) ->
    recognised value_ordering_heuristics (opt_value_ordering ov) ->
    Forall (fun s => ~ no_separator s) (pattern_less_thans ov) ->
    xorb (count (opt_send_to_lackey ov)) (count (opt_receive_from_lackey ov)) = true ->
    configure_verdict d ov
      [cerr "Must specify both of --send-to-lackey and --receive-from-lackey"]
      (Return EXIT_FAILURE).

(** ** A world to run [main] in *)

(** Both input files named, and the options the statements below vary. *)
Definition sample_options (help count_s print_all parallel : bool)
    (restarts value_ordering : option string) (less_thans : list string)
    (send receive : option string) : variables_map :=
  {| opt_help := help; opt_timeout := Some 10%Z; opt_parallel := parallel;
     opt_count_solutions := count_s; opt_print_all_solutions := print_all;
     opt_restarts := restarts; opt_geometric_multiplier := None;
     opt_geometric_constant := None; opt_restart_interval := None;
     opt_restart_minimum := None; opt_luby_constant := None;
     opt_value_ordering := value_ordering; opt_pattern_symmetries := false;
     opt_no_clique_detection := false;
     opt_no_isolated_vertex_removal := false;
     opt_no_supplementals := false; opt_no_nds := false;
     opt_threads := None; opt_triggered_restarts := false;
     opt_delay_thread_creation := false; pattern_less_thans := less_thans;
     opt_pattern_automorphism_group_size := None;
     opt_send_to_lackey := send; opt_receive_from_lackey := receive;
     opt_pattern_file := Some "pattern.big";
     opt_target_file := Some "target.big" |}.

Definition sample_params : HomomorphismParams :=
  {| injectivity := NonInjective; induced := false; bigraph := false;
     count_solutions := false; minimal_unsat_pattern := false;
     triggered_restarts := false; n_threads := 1;
     delay_thread_creation := false; restarts_schedule := None;
     value_ordering_heuristic := Biased; pattern_less_constraints := [];
     lackey := None; enumerate_callback := false;
     timeout := 0; start_time := 0 |}.

Definition sample_graph : InputGraph :=
  {| vertex_name := fun v => "v" ++ string_of_Z v |}.

Definition sample_result (m : VertexToVertexMapping) (n : Z) : HomomorphismResult :=
  {| mapping := m; nodes := 3; propagations := 5; extra_stats := [];
     solution_count := n |}.

(** A world in which the command line parses to [options_vars], every file
    opens and reads, and the solver leaves [run] and [res] behind. *)
Definition sample_world (options_vars : variables_map)
    (run : SolverRun) (res : exception + HomomorphismResult) : World :=
  {| restarts_defaults :=
       {| Luby_default_multiplier := 666;
          Geometric_default_initial_value := 0%Z;
          Geometric_default_multiplier := 0%Z;
          Timed_default_duration := 100;
          Timed_default_minimum_backtracks := 100 |};
     default_HomomorphismParams := sample_params;
     command_line_parser := fun _ => inr options_vars;
     display_options := "Program options";
     gethostname := Some "host";
     started_at := "2020-01-01 00:00:00";
     ifstream_good := fun _ => true;
     GraphFileError_what := fun f m _ => "Error reading graph file '" ++ f ++ "': " ++ m;
     read_pattern_bigraph := fun _ => inr sample_graph;
     read_target_bigraph := fun _ => inr sample_graph;
     make_pair_second_first := false;
     Lackey_constructor := fun s r _ _ =>
       inr {| send_to_name := s; read_from_name := r |};
     find_symmetries := fun _ _ c g => inr (c, g);
     pattern_symmetry_time := 0;
     steady_clock_now := 0;
     solve_homomorphism_problem := fun _ _ => (run, res);
     overall_time := 7 |}.

(** The same options with the two positional file names left out. *)
Definition without_files (ov : variables_map) : variables_map :=
  {| opt_help := opt_help ov; opt_timeout := opt_timeout ov;
     opt_parallel := opt_parallel ov;
     opt_count_solutions := opt_count_solutions ov;
     opt_print_all_solutions := opt_print_all_solutions ov;
     opt_restarts := opt_restarts ov;
     opt_geometric_multiplier := opt_geometric_multiplier ov;
     opt_geometric_constant := opt_geometric_constant ov;
     opt_restart_interval := opt_restart_interval ov;
     opt_restart_minimum := opt_restart_minimum ov;
     opt_luby_constant := opt_luby_constant ov;
     opt_value_ordering := opt_value_ordering ov;
     opt_pattern_symmetries := opt_pattern_symmetries ov;
     opt_no_clique_detection := opt_no_clique_detection ov;
     opt_no_isolated_vertex_removal := opt_no_isolated_vertex_removal ov;
     opt_no_supplementals := opt_no_supplementals ov;
     opt_no_nds := opt_no_nds ov;
     opt_threads := opt_threads ov;
     opt_triggered_restarts := opt_triggered_restarts ov;
     opt_delay_thread_creation := opt_delay_thread_creation ov;
     pattern_less_thans := pattern_less_thans ov;
     opt_pattern_automorphism_group_size := opt_pattern_automorphism_group_size ov;
     opt_send_to_lackey := opt_send_to_lackey ov;
     opt_receive_from_lackey := opt_receive_from_lackey ov;
     opt_pattern_file := None; opt_target_file := None |}.

Definition sample_graphs : InputGraph * InputGraph := (sample_graph, sample_graph).

(** The command line itself is only echoed by the banner and gives
    [argv[0]]; what it parses to is decided by [command_line_parser]. *)
Definition sample_argv : list string :=
  ["glasgow_bigraph_solver"; "pattern.big"; "target.big"].

(** The solver finds nothing and the timeout has not expired. *)
Definition quiet_run : SolverRun := {| enumerated := []; aborted := false |}.

(** The timeout has expired. *)
Definition aborted_run : SolverRun := {| enumerated := []; aborted := true |}.


(** A world for a command line, where the solver finds nothing. *)
Definition plain_world (options_vars : variables_map) : World :=
  sample_world options_vars quiet_run (inr (sample_result [] 0)).

(** Command lines used below.  [--restarts bogus]: *)
Definition bogus_restarts : variables_map :=
  sample_options false false false false (Some "bogus") None [] None None.
(** [--help --restarts bogus]: *)
Definition help_bogus_restarts : variables_map :=
  sample_options true false false false (Some "bogus") None [] None None.
(** [--pattern-less-than "a<b" --pattern-less-than ab]: *)
Definition bad_less_than : variables_map :=
  sample_options false false false false None None ["a<b"; "ab"] None None.
(** [--help --pattern-less-than ab]: *)
Definition help_bad_less_than : variables_map :=
  sample_options true false false false None None ["ab"] None None.
(** [--restarts bogus --pattern-less-than ab]: *)
Definition bogus_restarts_bad_less_than : variables_map :=
  sample_options false false false false (Some "bogus") None ["ab"] None None.
(** [--send-to-lackey to]: *)
Definition one_pipe : variables_map :=
  sample_options false false false false None None [] (Some "to") None.
(** [--help --send-to-lackey to]: *)
Definition help_one_pipe : variables_map :=
  sample_options true false false false None None [] (Some "to") None.
(** No option at all: *)
Definition plain : variables_map :=
  sample_options false false false false None None [] None None.
(** [--parallel]: *)
Definition parallel_only : variables_map :=
  sample_options false false false true None None [] None None.
(** [--print-all-solutions]: *)
Definition print_all : variables_map :=
  sample_options false false true false None None [] None None.

(** The parameters of the first call of the solver in a trace. *)
Fixpoint called_params (t : list event) (otherwise : HomomorphismParams)
    : HomomorphismParams :=
  match t with
  | [] => otherwise
  | call_solve_homomorphism_problem _ p :: _ => p
  | _ :: t' => called_params t' otherwise
  end.

(** ** Vocabulary of the further statements about [main] *)

(** A piece of [main] that never ends in a [return]. *)
Definition never_returns {A : Type} (m : program A) : Prop :=
  forall st, snd m <> Return st.

(** What lines 279-292 do to the parameters: the enumeration callback, the
    timeout and the start time. *)
Definition stamped (w : World) (ov : variables_map) (p : HomomorphismParams)
    : HomomorphismParams :=
  set_start_time
    (set_timeout
       (if opt_print_all_solutions ov then set_enumerate_callback p else p)
       (match opt_timeout ov with Some t => t | None => 0%Z end))
    (steady_clock_now w).

(** The pair that line 231 makes of a constraint with a ['<'] in it. *)
Definition less_than_pair (s : string) : string * string :=
  match find "<" s with
  | Some p => (substring 0 p s, substr_from (p + 1) s)
  | None => ("", "")
  end.

(** How often a trace calls the solver. *)
Definition solver_calls (t : list event) : nat := length (filter is_solve t).

(** The same world, with another answer of the option parser. *)
Definition with_parser (w : World)
    (parser : list string -> exception + variables_map) : World :=
  {| restarts_defaults := restarts_defaults w;
     default_HomomorphismParams := default_HomomorphismParams w;
     command_line_parser := parser;
     display_options := display_options w;
     gethostname := gethostname w;
     started_at := started_at w;
     ifstream_good := ifstream_good w;
     GraphFileError_what := GraphFileError_what w;
     read_pattern_bigraph := read_pattern_bigraph w;
     read_target_bigraph := read_target_bigraph w;
     make_pair_second_first := make_pair_second_first w;
     Lackey_constructor := Lackey_constructor w;
     find_symmetries := find_symmetries w;
     pattern_symmetry_time := pattern_symmetry_time w;
     steady_clock_now := steady_clock_now w;
     solve_homomorphism_problem := solve_homomorphism_problem w;
     overall_time := overall_time w |}.

(** The same world, with other files that open. *)
Definition with_files (w : World) (good : string -> bool) : World :=
  {| restarts_defaults := restarts_defaults w;
     default_HomomorphismParams := default_HomomorphismParams w;
     command_line_parser := command_line_parser w;
     display_options := display_options w;
     gethostname := gethostname w;
     started_at := started_at w;
     ifstream_good := good;
     GraphFileError_what := GraphFileError_what w;
     read_pattern_bigraph := read_pattern_bigraph w;
     read_target_bigraph := read_target_bigraph w;
     make_pair_second_first := make_pair_second_first w;
     Lackey_constructor := Lackey_constructor w;
     find_symmetries := find_symmetries w;
     pattern_symmetry_time := pattern_symmetry_time w;
     steady_clock_now := steady_clock_now w;
     solve_homomorphism_problem := solve_homomorphism_problem w;
     overall_time := overall_time w |}.

(** The same options, with other values of the four input-processing
    flags (lines 75-81). *)
Definition with_mangling_options (ov : variables_map)
    (clique isolated supplementals nds : bool) : variables_map :=
  {| opt_help := opt_help ov; opt_timeout := opt_timeout ov;
     opt_parallel := opt_parallel ov;
     opt_count_solutions := opt_count_solutions ov;
     opt_print_all_solutions := opt_print_all_solutions ov;
     opt_restarts := opt_restarts ov;
     opt_geometric_multiplier := opt_geometric_multiplier ov;
     opt_geometric_constant := opt_geometric_constant ov;
     opt_restart_interval := opt_restart_interval ov;
     opt_restart_minimum := opt_restart_minimum ov;
     opt_luby_constant := opt_luby_constant ov;
     opt_value_ordering := opt_value_ordering ov;
     opt_pattern_symmetries := opt_pattern_symmetries ov;
     opt_no_clique_detection := clique;
     opt_no_isolated_vertex_removal := isolated;
     opt_no_supplementals := supplementals;
     opt_no_nds := nds;
     opt_threads := opt_threads ov;
     opt_triggered_restarts := opt_triggered_restarts ov;
     opt_delay_thread_creation := opt_delay_thread_creation ov;
     pattern_less_thans := pattern_less_thans ov;
     opt_pattern_automorphism_group_size := opt_pattern_automorphism_group_size ov;
     opt_send_to_lackey := opt_send_to_lackey ov;
     opt_receive_from_lackey := opt_receive_from_lackey ov;
     opt_pattern_file := opt_pattern_file ov;
     opt_target_file := opt_target_file ov |}.

(** ** Further command lines and worlds to run [main] in *)

(** [--count-solutions --parallel --restarts luby --luby-constant -1]: *)
Definition luby_minus_one : variables_map :=
  {| opt_help := false;
     opt_timeout := Some 10%Z;
     opt_parallel := true;
     opt_count_solutions := true;
     opt_print_all_solutions := false;
     opt_restarts := Some "luby";
     opt_geometric_multiplier := None;
     opt_geometric_constant := None;
     opt_restart_interval := None;
     opt_restart_minimum := None;
     opt_luby_constant := Some (-1)%Z;
     opt_value_ordering := None;
     opt_pattern_symmetries := false;
     opt_no_clique_detection := false;
     opt_no_isolated_vertex_removal := false;
     opt_no_supplementals := false;
     opt_no_nds := false;
     opt_threads := None;
     opt_triggered_restarts := false;
     opt_delay_thread_creation := false;
     pattern_less_thans := [];
     opt_pattern_automorphism_group_size := None;
     opt_send_to_lackey := None;
     opt_receive_from_lackey := None;
     opt_pattern_file := Some "pattern.big";
     opt_target_file := Some "target.big" |}.

(** [--parallel --threads 4]: *)
Definition four_threads_parallel : variables_map :=
  {| opt_help := false;
     opt_timeout := Some 10%Z;
     opt_parallel := true;
     opt_count_solutions := false;
     opt_print_all_solutions := false;
     opt_restarts := None;
     opt_geometric_multiplier := None;
     opt_geometric_constant := None;
     opt_restart_interval := None;
     opt_restart_minimum := None;
     opt_luby_constant := None;
     opt_value_ordering := None;
     opt_pattern_symmetries := false;
     opt_no_clique_detection := false;
     opt_no_isolated_vertex_removal := false;
     opt_no_supplementals := false;
     opt_no_nds := false;
     opt_threads := Some 4%Z;
     opt_triggered_restarts := false;
     opt_delay_thread_creation := false;
     pattern_less_thans := [];
     opt_pattern_automorphism_group_size := None;
     opt_send_to_lackey := None;
     opt_receive_from_lackey := None;
     opt_pattern_file := Some "pattern.big";
     opt_target_file := Some "target.big" |}.

(** [--pattern-symmetries]: *)
Definition symmetric : variables_map :=
  {| opt_help := false;
     opt_timeout := Some 10%Z;
     opt_parallel := false;
     opt_count_solutions := false;
     opt_print_all_solutions := false;
     opt_restarts := None;
     opt_geometric_multiplier := None;
     opt_geometric_constant := None;
     opt_restart_interval := None;
     opt_restart_minimum := None;
     opt_luby_constant := None;
     opt_value_ordering := None;
     opt_pattern_symmetries := true;
     opt_no_clique_detection := false;
     opt_no_isolated_vertex_removal := false;
     opt_no_supplementals := false;
     opt_no_nds := false;
     opt_threads := None;
     opt_triggered_restarts := false;
     opt_delay_thread_creation := false;
     pattern_less_thans := [];
     opt_pattern_automorphism_group_size := None;
     opt_send_to_lackey := None;
     opt_receive_from_lackey := None;
     opt_pattern_file := Some "pattern.big";
     opt_target_file := Some "target.big" |}.

(** [--pattern-automorphism-group-size 12]: *)
Definition group_size_given : variables_map :=
  {| opt_help := false;
     opt_timeout := Some 10%Z;
     opt_parallel := false;
     opt_count_solutions := false;
     opt_print_all_solutions := false;
     opt_restarts := None;
     opt_geometric_multiplier := None;
     opt_geometric_constant := None;
     opt_restart_interval := None;
     opt_restart_minimum := None;
     opt_luby_constant := None;
     opt_value_ordering := None;
     opt_pattern_symmetries := false;
     opt_no_clique_detection := false;
     opt_no_isolated_vertex_removal := false;
     opt_no_supplementals := false;
     opt_no_nds := false;
     opt_threads := None;
     opt_triggered_restarts := false;
     opt_delay_thread_creation := false;
     pattern_less_thans := [];
     opt_pattern_automorphism_group_size := Some "12";
     opt_send_to_lackey := None;
     opt_receive_from_lackey := None;
     opt_pattern_file := Some "pattern.big";
     opt_target_file := Some "target.big" |}.

(** [--value-ordering degree]: *)
Definition degree_ordering : variables_map :=
  sample_options false false false false None (Some "degree") [] None None.
(** [--pattern-less-than "a<b" --pattern-less-than "c<d<e"]: *)
Definition two_constraints : variables_map :=
  sample_options false false false false None None ["a<b"; "c<d<e"] None None.
(** [--send-to-lackey to --receive-from-lackey from]: *)
Definition two_pipes : variables_map :=
  sample_options false false false false None None [] (Some "to") (Some "from").

(** [--pattern-less-than "a<b" --pattern-less-than ab --pattern-less-than cd
    --send-to-lackey to]: *)
Definition bad_then_worse : variables_map :=
  sample_options false false false false None None ["a<b"; "ab"; "cd"] (Some "to") None.

(** The option parser rejects the command line. *)
Definition parse_error_world : World :=
  with_parser (plain_world plain)
    (fun _ => inl (po_error "unrecognised option '--bogus'")).
(** The pattern file does not open. *)
Definition closed_pattern_world : World :=
  with_files (plain_world plain) (fun f => negb (f =? "pattern.big")).
(** The target file does not open. *)
Definition closed_target_world : World :=
  with_files (plain_world plain) (fun f => negb (f =? "target.big")).
(** The solver throws. *)
Definition failing_solver_world : World :=
  sample_world plain quiet_run (inl (std_exception "std::bad_alloc")).
(** The solver finds a mapping. *)
Definition found_world : World :=
  sample_world plain quiet_run (inr (sample_result [(0, 1)]%Z 0)).


(** [--pattern-symmetries], and a symmetry tool that fails on everything
    but the empty list of constraints with the group size "1". *)
Definition picky_symmetries_world : World :=
  {| restarts_defaults := restarts_defaults (plain_world symmetric);
     default_HomomorphismParams := sample_params;
     command_line_parser := fun _ => inr symmetric;
     display_options := "Program options";
     gethostname := Some "host";
     started_at := "2020-01-01 00:00:00";
     ifstream_good := fun _ => true;
     GraphFileError_what := GraphFileError_what (plain_world symmetric);
     read_pattern_bigraph := fun _ => inr sample_graph;
     read_target_bigraph := fun _ => inr sample_graph;
     make_pair_second_first := false;
     Lackey_constructor := Lackey_constructor (plain_world symmetric);
     find_symmetries := fun _ _ c size =>
       match c with
       | [] => if size =? "1" then inr (c, size)
               else inl (std_exception "find_symmetries failed")
       | _ :: _ => inl (std_exception "find_symmetries failed")
       end;
     pattern_symmetry_time := 0;
     steady_clock_now := 0;
     solve_homomorphism_problem := fun _ _ => (quiet_run, inr (sample_result [] 0));
     overall_time := 7 |}.

End Driver.


(** * The restart schedules *)

Module Restarts.

Local Open Scope N_scope.

(** Modelled from the spec: the restart schedules are declared in
    restarts.hh, which is not among the sources.  The specification gives
    the contract [next_budget(restart_index) -> Budget] and, for the Luby
    policy, budget = multiplier x the term of the standard Luby sequence
    at that index.  The standard sequence t(1), t(2), ... is
    t(i) = 2^(k-1) when i = 2^k - 1, and t(i) = t(i - 2^(k-1) + 1) when
    2^(k-1) <= i < 2^k - 1; restart indices count from 0, so index j has
    the term t(j + 1). *)
Inductive Budget : Type :=
| Backtracks (n : N)
| Unbounded.

(** Modelled from the spec: the term t(i) of the standard Luby sequence,
    for i >= 1 (restarts.cc is missing).  The k with 2^(k-1) <= i < 2^k is
    [log2 i + 1]; each unfolding at least halves what is left of [i], so
    [fuel = i] is more than enough. *)
Fixpoint luby_from (fuel : nat) (i : N) : N :=
  match fuel with
  | O => 1
  | S fuel' =>
      let k := N.succ (N.log2 i) in
      if i =? 2 ^ k - 1 then 2 ^ (k - 1)
      else luby_from fuel' (i - 2 ^ (k - 1) + 1)
  end.

Definition luby (i : N) : N := luby_from (N.to_nat i) i.

Definition luby_term (restart_index : N) : N := luby (restart_index + 1).

Inductive Schedule : Type :=
| Luby (multiplier : N)
| NoRestarts.

(** Modelled from the spec: the contract [next_budget] of the restart
    scheduler (restarts.hh is missing), for the Luby and the None policy;
    the Geometric and Timed policies work on floating-point values and on
    the wall clock. *)
Definition next_budget (s : Schedule) (restart_index : N) : Budget :=
  match s with
  | Luby multiplier => Backtracks (multiplier * luby_term restart_index)
  | NoRestarts => Unbounded
  end.

End Restarts.

(** * The engine *)

Module Engine.

Local Open Scope nat_scope.

(** Modelled from the spec: [solve_homomorphism_problem] and the bigraph
    classes are declared in homomorphism.hh and formats/bigraph.hh and
    defined outside the sources at hand.  What follows is the data model of
    section 3 and, of the engine of section 4, the path by which a mapping
    comes to be accepted: the validated bigraphs (4.1), the seeded domains
    (4.2), the checks of the propagation engine after a tentative
    assignment (4.3), the walk SELECT_VARIABLE / SELECT_VALUE / PROPAGATE /
    BACKTRACK / SOLUTION (4.5) and the oracle gate (4.8).  Value and
    variable orders are the plain ones; restarts, counters, the timeout and
    threads are left out. *)
Definition vertex : Type := nat.

(** A port is a vertex and a port index. *)
Definition port : Type := (vertex * nat)%type.

Record Bigraph : Type := {
  vertices : nat;                       (* the vertices are 0 .. vertices - 1 *)
  label : vertex -> string;
  parent : vertex -> option vertex;     (* place forest; [None] is a root *)
  links : list (list port)              (* link hypergraph; the id is the position *)
}.

Definition assignment : Type := list (vertex * vertex).

Inductive Answer : Type := Accept | Reject | Error.

Record Params : Type := {
  induced : bool;
  count_solutions : bool;
  lackey : option (assignment -> Answer)
}.

Inductive SolveError : Type :=
| MalformedBigraphError
| OracleCommunicationError.

Record Result : Type := {
  mapping : assignment;
  solution_count : nat
}.

(** *** The bigraph model (4.1) *)

Definition port_eqb (a b : port) : bool :=
  (fst a =? fst b) && (snd a =? snd b).

Definition has_port (a : port) (l : list port) : bool := existsb (port_eqb a) l.

Definition touches (v : vertex) (l : list port) : bool :=
  existsb (fun a => fst a =? v) l.

(** The port count of a vertex. *)
Definition degree (g : Bigraph) (v : vertex) : nat :=
  length (filter (fun a => fst a =? v) (concat (links g))).

(** Walking up from [v] reaches a root within [fuel] steps, through
    vertices of the graph. *)
Fixpoint rooted (g : Bigraph) (fuel : nat) (v : vertex) : bool :=
  match fuel with
  | O => false
  | S fuel' =>
      match parent g v with
      | None => true
      | Some p => (p <? vertices g) && rooted g fuel' p
      end
  end.

(** [u] is met walking up from [v]: the ancestor test, O(depth). *)
Fixpoint climbs (g : Bigraph) (fuel : nat) (u v : vertex) : bool :=
  match fuel with
  | O => false
  | S fuel' =>
      match parent g v with
      | None => false
      | Some p => (p =? u) || climbs g fuel' u p
      end
  end.

Definition is_ancestor (g : Bigraph) (u v : vertex) : bool :=
  climbs g (vertices g) u v.

(** No port twice in a list of ports. *)
Fixpoint distinct (l : list port) : bool :=
  match l with
  | [] => true
  | a :: l' => negb (has_port a l') && distinct l'
  end.

(** Modelled from the spec: construction validates forest acyclicity and
    port uniqueness (formats/bigraph.cc is missing). *)
Definition well_formed (g : Bigraph) : bool :=
  forallb (rooted g (vertices g)) (seq 0 (vertices g))
  && distinct (concat (links g))
  && forallb (fun a => fst a <? vertices g) (concat (links g)).

(** Two ports on one link: the link-based adjacency test. *)
Definition linked (g : Bigraph) (a b : port) : bool :=
  existsb (fun l => has_port a l && has_port b l) (links g).

(** Two vertices with ports on one link. *)
Definition colinked (g : Bigraph) (u v : vertex) : bool :=
  existsb (fun l => touches u l && touches v l) (links g).

(** *** The domain store (4.2) *)

(** Modelled from the spec: [initialize] of the domain store, which is
    missing; the candidates of a pattern vertex, by label and degree. *)
Definition domain (p t : Bigraph) (u : vertex) : list vertex :=
  filter (fun x => (label p u =? label t x)%string && (degree p u <=? degree t x))
         (seq 0 (vertices t)).

(** *** The propagation engine (4.3) *)

(** The images of a pattern port under an assignment. *)
Definition images (m : assignment) (a : port) : list port :=
  map (fun vy => (snd vy, snd a)) (filter (fun vy => fst vy =? fst a) m).

(** Modelled from the spec: the propagation engine, which is missing.
    After the tentative assignment of [x] to [u], on top of [m]:
    injectivity, the ancestry constraints of the pairs involving [u], and
    the link preservation of the pattern links touching [u].  The optional
    filters (degree sequences, cliques, supplemental graphs) only remove
    further candidates and are left out. *)
Definition propagate (p t : Bigraph) (m : assignment) (u x : vertex) : bool :=
  let m' := (u, x) :: m in
  negb (existsb (fun vy => snd vy =? x) m)
  && forallb (fun vy =>
       implb (is_ancestor p u (fst vy)) (is_ancestor t x (snd vy))
       && implb (is_ancestor p (fst vy) u) (is_ancestor t (snd vy) x)) m'
  && forallb (fun l =>
       implb (touches u l)
         (forallb (fun a => forallb (fun b =>
            forallb (fun a' => forallb (fun b' => linked t a' b') (images m' b))
                    (images m' a)) l) l))
       (links p).

(** *** The search engine (4.5) and the oracle gate (4.8) *)

Fixpoint all_different (l : list vertex) : bool :=
  match l with
  | [] => true
  | x :: l' => negb (existsb (Nat.eqb x) l') && all_different l'
  end.

(** Non-adjacency is preserved too: pairs that are not in the ancestor
    relation, or not colinked, in the pattern are not in the target. *)
Definition reflects (p t : Bigraph) (m : assignment) : bool :=
  forallb (fun uy => forallb (fun vy =>
    (fst uy =? fst vy)
    || (implb (is_ancestor t (snd uy) (snd vy)) (is_ancestor p (fst uy) (fst vy))
        && implb (colinked t (snd uy) (snd vy)) (colinked p (fst uy) (fst vy)))) m) m.

(** Modelled from the spec: the state SOLUTION of the search engine, which
    is missing: validate injectivity, [induced] and the oracle.  The value
    is the list of the mappings accepted here: one or none. *)
Definition solution (p t : Bigraph) (params : Params) (m : assignment)
    : SolveError + list assignment :=
  if all_different (map snd m) && implb (induced params) (reflects p t m) then
    match lackey params with
    | None => inr [m]
    | Some ask =>
        match ask m with
        | Accept => inr [m]
        | Reject => inr []
        | Error => inl OracleCommunicationError
        end
    end
  else inr [].

(** Modelled from the spec: the states SELECT_VALUE and BACKTRACK of the
    search engine, which is missing: the values of one variable in turn.
    When not counting, the first accepted mapping ends the search. *)
Fixpoint select_value (counting : bool)
    (assign : vertex -> SolveError + list assignment) (values : list vertex)
    : SolveError + list assignment :=
  match values with
  | [] => inr []
  | x :: values' =>
      match assign x with
      | inl e => inl e
      | inr found =>
          if negb counting && negb (match found with [] => true | _ => false end)
          then inr found
          else match select_value counting assign values' with
               | inl e => inl e
               | inr more => inr (found ++ more)%list
               end
      end
  end.

(** Modelled from the spec: the states SELECT_VARIABLE and PROPAGATE of the
    search engine, which is missing: the accepted mappings below the
    partial assignment [m], the pattern vertices [variables] being
    unassigned. *)
Fixpoint search (p t : Bigraph) (params : Params) (variables : list vertex)
    (m : assignment) : SolveError + list assignment :=
  match variables with
  | [] => solution p t params m
  | u :: variables' =>
      select_value (count_solutions params)
        (fun x => if propagate p t m u x
                  then search p t params variables' ((u, x) :: m)
                  else inr [])
        (domain p t u)
  end.

(** Modelled from the spec: the mappings the engine accepts, in the order
    it meets them ([solve_homomorphism_problem] is missing). *)
Definition accepted (p t : Bigraph) (params : Params)
    : SolveError + list assignment :=
  if well_formed p && well_formed t
  then search p t params (seq 0 (vertices p)) []
  else inl MalformedBigraphError.

(** Modelled from the spec: the result surface of one solve invocation
    ([solve_homomorphism_problem] is missing): the first accepted mapping
    when not counting, and the number of accepted mappings. *)
Definition solve (p t : Bigraph) (params : Params) : SolveError + Result :=
  match accepted p t params with
  | inl e => inl e
  | inr found =>
      inr {| mapping := if count_solutions params then [] else hd [] found;
             solution_count := length found |}
  end.

(** *** What a mapping has to satisfy (section 3, "Assignment / Mapping") *)

Definition maps (m : assignment) (u x : vertex) : Prop := In (u, x) m.

(** [u] is a proper ancestor of [v] in the place forest. *)
Inductive ancestor (g : Bigraph) (u : vertex) : vertex -> Prop :=
| ancestor_parent (v : vertex) : parent g v = Some u -> ancestor g u v
| ancestor_above (v w : vertex) :
    parent g v = Some w -> ancestor g u w -> ancestor g u v.

(** Two ports belong to one link. *)
Definition on_one_link (g : Bigraph) (a b : port) : Prop :=
  exists l, In l (links g) /\ In a l /\ In b l.

(** Two vertices have ports on one link. *)
Definition share_a_link (g : Bigraph) (u v : vertex) : Prop :=
  exists a b, fst a = u /\ fst b = v /\ on_one_link g a b.

Definition total (p : Bigraph) (m : assignment) : Prop :=
  forall u, u < vertices p -> exists x, maps m u x.

Definition injective (m : assignment) : Prop :=
  forall u v x, maps m u x -> maps m v x -> u = v.

Definition preserves_ancestry (p t : Bigraph) (m : assignment) : Prop :=
  forall u v x y, maps m u x -> maps m v y ->
    ancestor p u v -> ancestor t x y.

Definition preserves_links (p t : Bigraph) (m : assignment) : Prop :=
  forall l a b x y, In l (links p) -> In a l -> In b l ->
    maps m (fst a) x -> maps m (fst b) y ->
    on_one_link t (x, snd a) (y, snd b).

Definition preserves_non_adjacency (p t : Bigraph) (m : assignment) : Prop :=
  forall u v x y, u <> v -> maps m u x -> maps m v y ->
    (~ ancestor p u v -> ~ ancestor t x y) /\
    (~ share_a_link p u v -> ~ share_a_link t x y).

(** What the search keeps true of its partial assignment: it stays within
    the two graphs, and the ancestry of the pairs and the links of the
    ports assigned so far are preserved. *)
Record consistent (p t : Bigraph) (m : assignment) : Prop := {
  in_range : forall u x, In (u, x) m -> u < vertices p /\ x < vertices t;
  keeps_ancestry : forall u v x y, In (u, x) m -> In (v, y) m ->
    is_ancestor p u v = true -> is_ancestor t x y = true;
  keeps_links : forall l a b x y, In l (links p) -> In a l -> In b l ->
    In (fst a, x) m -> In (fst b, y) m ->
    linked t (x, snd a) (y, snd b) = true
}.

(** *** The scenarios of section 8 *)

(** One vertex, no link, no parent. *)
Definition single_vertex : Bigraph :=
  {| vertices := 1; label := fun _ => "A"; parent := fun _ => None; links := [] |}.

(** Two isolated vertices. *)
Definition two_isolated : Bigraph :=
  {| vertices := 2; label := fun _ => "A"; parent := fun _ => None; links := [] |}.

(** Vertex 1 inside vertex 0, and one link between them. *)
Definition nested_linked : Bigraph :=
  {| vertices := 2; label := fun _ => "A";
     parent := fun v => match v with 1 => Some 0 | _ => None end;
     links := [[(0, 0); (1, 0)]] |}.

(** Vertex 1 inside vertex 0, and vertices 1 and 2 linked: no pair is both
    nested and linked. *)
Definition nested_apart : Bigraph :=
  {| vertices := 3; label := fun _ => "A";
     parent := fun v => match v with 1 => Some 0 | _ => None end;
     links := [[(1, 0); (2, 0)]; [(0, 0)]] |}.

Definition finding (is_induced : bool) : Params :=
  {| induced := is_induced; count_solutions := false; lackey := None |}.
Definition counting (is_induced : bool) : Params :=
  {| induced := is_induced; count_solutions := true; lackey := None |}.
Definition always_rejecting : Params :=
  {| induced := true; count_solutions := false; lackey := Some (fun _ => Reject) |}.

End Engine.

(** * Facts about the driver *)

Module DriverFacts.
Import Driver.

(** ** The program monad *)

Lemma fst_bind {A B : Type} (m : program A) (k : A -> program B) :
  fst (bind m k) =
  (fst m ++ match snd m with Continue a => fst (k a) | _ => [] end)%list.
Proof.
  destruct m as [t [a | st | e]]; simpl.
  - destruct (k a); reflexivity.
  - now rewrite app_nil_r.
  - now rewrite app_nil_r.
Qed.

Lemma snd_bind {A B : Type} (m : program A) (k : A -> program B) :
  snd (bind m k) =
  match snd m with
  | Continue a => snd (k a)
  | Return st => Return st
  | Throw e => Throw e
  end.
Proof.
  destruct m as [t [a | st | e]]; simpl; try reflexivity.
  destruct (k a); reflexivity.
Qed.

Lemma bind_silent {A B : Type} (m : program A) (k : A -> program B) (a : A) :
  m = ([], Continue a) -> bind m k = k a.
Proof. intros ->. simpl. now destruct (k a). Qed.

Lemma bind_stops {A B : Type} (m : program A) (k : A -> program B) t st :
  m = (t, Return st) -> bind m k = (t, Return st).
Proof. now intros ->. Qed.

Lemma in_bind {A B : Type} (m : program A) (k : A -> program B) (e : event) :
  In e (fst (bind m k)) ->
  In e (fst m) \/ exists a, snd m = Continue a /\ In e (fst (k a)).
Proof.
  rewrite fst_bind. intros H. apply in_app_or in H. destruct H as [H | H].
  - now left.
  - destruct (snd m) as [a | st | x]; simpl in H; try contradiction.
    right. now exists a.
Qed.

(** ** Pieces that avoid a kind of event *)

Section Avoids.

Variable P : event -> bool.

Lemma avoids_ret {A : Type} (a : A) : avoids P (ret a).
Proof. intros e []. Qed.

Lemma avoids_return {A : Type} (st : Z) : avoids P (@return_ A st).
Proof. intros e []. Qed.

Lemma avoids_throw {A : Type} (x : exception) : avoids P (@throw A x).
Proof. intros e []. Qed.

Lemma avoids_lift {A : Type} (r : exception + A) : avoids P (lift r).
Proof. destruct r; intros ? []. Qed.

Lemma avoids_as {A : Type} (o : option A) : avoids P (as_ o).
Proof. destruct o; intros ? []. Qed.

Lemma avoids_emit (e : event) : P e = false -> avoids P (emit e).
Proof. intros H e' [Heq | []]. now subst e'. Qed.

Lemma avoids_bind {A B : Type} (m : program A) (k : A -> program B) :
  avoids P m -> (forall a, avoids P (k a)) -> avoids P (bind m k).
Proof.
  intros Hm Hk e H. apply in_bind in H. destruct H as [H | [a [_ H]]].
  - now apply Hm.
  - now apply (Hk a).
Qed.

Lemma avoids_when (c : bool) (m : program unit) :
  avoids P m -> avoids P (when c m).
Proof. destruct c; simpl; [trivial | intros _; apply avoids_ret]. Qed.

Lemma avoids_fold {X : Type} (f : X -> event) (l : list X) :
  (forall x, P (f x) = false) ->
  avoids P (fold_right (fun x k => emit (f x) ;;; k) (ret tt) l).
Proof.
  intros H. induction l as [| x l IH]; cbn [fold_right].
  - apply avoids_ret.
  - apply avoids_bind; [now apply avoids_emit | intros _; exact IH].
Qed.

End Avoids.

Create HintDb avoid.

#[local] Hint Resolve avoids_ret avoids_return avoids_throw avoids_lift
  avoids_as avoids_when avoids_fold : avoid.

Ltac avoid :=
  repeat first
    [ apply avoids_bind; [| intros ? ]
    | apply avoids_emit; solve [ reflexivity | auto ]
    | apply avoids_fold; intros ?; solve [ reflexivity | auto ]
    | apply avoids_when
    | solve [ auto with avoid ]
    | match goal with
      | |- avoids _ (if ?c then _ else _) => destruct c
      | |- avoids _ (match ?o with _ => _ end) => destruct o
      | |- avoids _ (let _ := _ in _) => cbv zeta
      end ].

(** ** Strings *)

Lemma find_None (c : ascii) (s : string) :
  find c s = None <-> ~ In c (list_ascii_of_string s).
Proof.
  induction s as [| a s IH]; simpl.
  - split; [intros _ [] | reflexivity].
  - destruct (Ascii.eqb_spec a c) as [-> | Hne].
    + split; [discriminate | intros H; exfalso; apply H; now left].
    + destruct (find c s) as [p |].
      * split; [discriminate |].
        intros H. exfalso. destruct IH as [_ IH].
        assert (Hn : ~ In c (list_ascii_of_string s)) by (intros Hin; apply H; now right).
        specialize (IH Hn). discriminate.
      * split; [| reflexivity].
        intros _ [Heq | Hin]; [now apply Hne |].
        destruct IH as [IH _]. now apply IH.
Qed.

Lemma eqb_false_of_not_in (s x : string) (l : list string) :
  ~ In s l -> In x l -> (s =? x) = false.
Proof.
  intros Hs Hx. apply String.eqb_neq. intros ->. now apply Hs.
Qed.

(** ** The configuration steps, one by one *)

Section Steps.

Variable w : World.

Lemma same_core_refl p : same_core p p.
Proof. repeat split. Qed.

Lemma same_core_trans p q r : same_core p q -> same_core q r -> same_core p r.
Proof.
  unfold same_core. intros (a & b & c & d) (a' & b' & c' & d').
  repeat split; congruence.
Qed.

Lemma configure_fixed_settings ov :
  let p := configure_fixed w ov in
  injectivity p = Injective /\ induced p = true /\
  count_solutions p = (opt_count_solutions ov || opt_print_all_solutions ov).
Proof.
  unfold configure_fixed.
  destruct (opt_threads ov), (opt_parallel ov),
    (opt_delay_thread_creation ov); repeat split.
Qed.

Lemma configure_restarts_unknown ov p s :
  opt_restarts ov = Some s -> ~ In s restarts_policies ->
  configure_restarts w ov p =
  ([cerr ("Unknown restarts policy '" ++ s ++ "'")], Return EXIT_FAILURE).
Proof.
  intros Hs Hn. unfold configure_restarts. rewrite Hs. simpl.
  rewrite !(eqb_false_of_not_in s _ restarts_policies Hn) by (simpl; tauto).
  reflexivity.
Qed.

Lemma configure_restarts_default ov p :
  opt_restarts ov = None ->
  configure_restarts w ov p =
  ([], Continue (set_restarts_schedule p
     (if count_solutions p then NoRestartsSchedule
      else if opt_parallel ov then
        TimedRestartsSchedule (Timed_default_duration (restarts_defaults w))
          (Timed_default_minimum_backtracks (restarts_defaults w))
      else LubyRestartsSchedule (Luby_default_multiplier (restarts_defaults w))))).
Proof.
  intros Hs. unfold configure_restarts. rewrite Hs. simpl.
  destruct (count_solutions p), (opt_parallel ov); reflexivity.
Qed.

Lemma configure_restarts_inv ov p :
  (exists sched,
     configure_restarts w ov p = ([], Continue (set_restarts_schedule p sched))) \/
  (exists s, opt_restarts ov = Some s /\ ~ In s restarts_policies /\
     configure_restarts w ov p =
     ([cerr ("Unknown restarts policy '" ++ s ++ "'")], Return EXIT_FAILURE)).
Proof.
  destruct (opt_restarts ov) as [s |] eqn:Hs.
  - destruct (in_dec string_dec s restarts_policies) as [Hin | Hn].
    + left. unfold configure_restarts. rewrite Hs. simpl.
      simpl in Hin.
      destruct Hin as [<- | [<- | [<- | [<- | []]]]]; simpl; eexists; reflexivity.
    + right. exists s. repeat split; trivial.
      now apply configure_restarts_unknown.
  - left. eexists. now apply configure_restarts_default.
Qed.

Lemma configure_value_ordering_unknown ov p s :
  opt_value_ordering ov = Some s -> ~ In s value_ordering_heuristics ->
  configure_value_ordering ov p =
  ([cerr ("Unknown value-ordering heuristic '" ++ s ++ "'")], Return EXIT_FAILURE).
Proof.
  intros Hs Hn. unfold configure_value_ordering. rewrite Hs. simpl.
  rewrite !(eqb_false_of_not_in s _ value_ordering_heuristics Hn) by (simpl; tauto).
  reflexivity.
Qed.

Lemma configure_value_ordering_inv ov p :
  (exists p', configure_value_ordering ov p = ([], Continue p') /\ same_core p p') \/
  (exists s, opt_value_ordering ov = Some s /\ ~ In s value_ordering_heuristics /\
     configure_value_ordering ov p =
     ([cerr ("Unknown value-ordering heuristic '" ++ s ++ "'")], Return EXIT_FAILURE)).
Proof.
  destruct (opt_value_ordering ov) as [s |] eqn:Hs.
  - destruct (in_dec string_dec s value_ordering_heuristics) as [Hin | Hn].
    + left. unfold configure_value_ordering. rewrite Hs. simpl.
      simpl in Hin.
      destruct Hin as [<- | [<- | [<- | [<- | []]]]]; simpl;
        eexists; (split; [reflexivity | repeat split]).
    + right. exists s. repeat split; trivial.
      now apply configure_value_ordering_unknown.
  - left. exists p. unfold configure_value_ordering. rewrite Hs.
    split; [reflexivity | apply same_core_refl].
Qed.

Lemma configure_less_thans_inv l : forall p,
  (exists p', configure_less_thans l p = ([], Continue p') /\ same_core p p'
              /\ Forall (fun s => ~ no_separator s) l) \/
  (exists s, In s l /\ no_separator s /\
     configure_less_thans l p =
     ([cerr ("Invalid pattern less-than constraint '" ++ s ++ "'")],
      Return EXIT_FAILURE)).
Proof.
  induction l as [| s l IH]; intros p; cbn [configure_less_thans].
  - left. exists p. repeat split. constructor.
  - destruct (find "<" s) as [n |] eqn:Hf.
    + assert (Hsep : ~ no_separator s).
      { intros H. apply find_None in H. congruence. }
      destruct (IH (set_pattern_less_constraints p
                (pattern_less_constraints p ++ [(substring 0 n s, substr_from (n + 1) s)])%list))
        as [(p' & Hp' & Hc & Hall) | (s' & Hin & Hno & Hs')].
      * left. exists p'. split; [exact Hp' |]. split.
        -- eapply same_core_trans; [| exact Hc]. repeat split.
        -- now constructor.
      * right. exists s'. repeat split; trivial. now right.
    + right. exists s. repeat split.
      * now left.
      * now apply find_None.
Qed.

Lemma recognised_None names : recognised names None.
Proof. intros s H. discriminate. Qed.

Lemma recognised_continue names o :
  (forall s, o = Some s -> ~ In s names -> False) -> recognised names o.
Proof.
  intros H s Hs. destruct (in_dec string_dec s names) as [Hin | Hn]; trivial.
  exfalso. now apply (H s).
Qed.

Lemma configure_spec ov :
  configure_verdict (restarts_defaults w) ov
    (fst (configure w ov)) (snd (configure w ov)).
Proof.
  unfold configure.
  pose proof (configure_fixed_settings ov) as (Hi & Hd & Hc).
  destruct (configure_restarts_inv ov (configure_fixed w ov))
    as [(sched & Hr) | (s & Hs & Hn & Hr)].
  2:{ rewrite (bind_stops _ _ _ _ Hr). now apply verdict_restarts. }
  assert (Rr : recognised restarts_policies (opt_restarts ov)).
  { apply recognised_continue. intros s Hs Hn.
    rewrite (configure_restarts_unknown ov _ s Hs Hn) in Hr. discriminate. }
  assert (Hdef : opt_restarts ov = None ->
    Some sched =
     Some (if count_solutions (configure_fixed w ov) then NoRestartsSchedule
           else if opt_parallel ov then
             TimedRestartsSchedule (Timed_default_duration (restarts_defaults w))
               (Timed_default_minimum_backtracks (restarts_defaults w))
           else LubyRestartsSchedule (Luby_default_multiplier (restarts_defaults w)))).
  { intros Hnone. rewrite (configure_restarts_default ov _ Hnone) in Hr.
    inversion Hr as [Heq]. now rewrite Heq. }
  rewrite (bind_silent _ _ _ Hr).
  set (p1 := set_restarts_schedule (configure_fixed w ov) sched) in *.
  destruct (configure_value_ordering_inv ov p1)
    as [(p2 & Hv & Hc2) | (s & Hs & Hn & Hv)].
  2:{ rewrite (bind_stops _ _ _ _ Hv). now apply verdict_value_ordering. }
  assert (Rv : recognised value_ordering_heuristics (opt_value_ordering ov)).
  { apply recognised_continue. intros s Hs Hn.
    rewrite (configure_value_ordering_unknown ov _ s Hs Hn) in Hv. discriminate. }
  rewrite (bind_silent _ _ _ Hv).
  destruct (configure_less_thans_inv (pattern_less_thans ov) p2)
    as [(p3 & Hl & Hc3 & Hall) | (s & Hin & Hno & Hl)].
  2:{ rewrite (bind_stops _ _ _ _ Hl). now apply verdict_less_than. }
  rewrite (bind_silent _ _ _ Hl).
  destruct (xorb (count (opt_send_to_lackey ov)) (count (opt_receive_from_lackey ov)))
    eqn:Hx; cbn.
  - now apply verdict_lackey.
  - destruct (same_core_trans _ _ _ Hc2 Hc3) as (a & b & c & e).
    apply verdict_configured; trivial.
    + rewrite a. exact Hi.
    + rewrite b. exact Hd.
    + rewrite c. exact Hc.
    + intros Hnone. rewrite c, e. exact (Hdef Hnone).
Qed.

(** ** From the banner to the report *)

Lemma in_bind_avoids {A B : Type} (P : event -> bool)
    (m : program A) (k : A -> program B) (e : event) :
  avoids P m -> P e = true -> In e (fst (bind m k)) ->
  exists a, snd m = Continue a /\ In e (fst (k a)).
Proof.
  intros Hm He H. apply in_bind in H. destruct H as [H | H]; trivial.
  apply Hm in H. congruence.
Qed.

Lemma ends_with_refl {A : Type} (m : program A) : ends_with m m.
Proof. exists []. split; reflexivity. Qed.

Lemma ends_with_bind {A B : Type} (m : program A) (k : A -> program B)
    (a : A) (tl : program B) :
  snd m = Continue a -> ends_with (k a) tl -> ends_with (bind m k) tl.
Proof.
  intros Hm (prefix & Hf & Hs). exists (fst m ++ prefix)%list.
  rewrite fst_bind, snd_bind, Hm, Hf, Hs. now rewrite app_assoc.
Qed.

Lemma banner_avoids (P : event -> bool) argv :
  (forall l, P (cout l) = false) -> avoids P (banner w argv).
Proof. intros H. unfold banner. avoid. Qed.

Lemma read_graphs_avoids (P : event -> bool) ov :
  (forall l, P (cout l) = false) ->
  (forall f, P (open_ifstream f) = false) ->
  (forall f, P (call_read_pattern_bigraph f) = false) ->
  (forall f, P (call_read_target_bigraph f) = false) ->
  avoids P (read_graphs w ov).
Proof. intros H1 H2 H3 H4. unfold read_graphs, open_file. avoid. Qed.

Lemma configure_lackey_avoids ov g p :
  avoids is_solve (configure_lackey w ov g p).
Proof. unfold configure_lackey. avoid. Qed.

Lemma configure_lackey_core ov g p p' :
  snd (configure_lackey w ov g p) = Continue p' -> same_core p p'.
Proof.
  unfold configure_lackey.
  destruct (opt_send_to_lackey ov) as [s |], (opt_receive_from_lackey ov) as [r |];
    cbn; try (intros [= <-]; apply same_core_refl).
  destruct (Lackey_constructor w s r (fst g) (snd g)); cbn; intros [= <-].
  repeat split.
Qed.

Lemma configure_lackey_given ov g p s r :
  In (new_Lackey s r) (fst (configure_lackey w ov g p)) ->
  opt_send_to_lackey ov = Some s /\ opt_receive_from_lackey ov = Some r.
Proof.
  unfold configure_lackey.
  destruct (opt_send_to_lackey ov) as [s' |], (opt_receive_from_lackey ov) as [r' |];
    cbn [count andb as_ fst]; try contradiction.
  rewrite !(bind_silent (ret _) _ _ eq_refl). rewrite fst_bind.
  cbn [emit fst snd app In].
  intros [[= -> ->] | H]; [now split |].
  exfalso. apply in_bind in H. destruct H as [H | (l & _ & [])].
  now apply (avoids_lift is_new_Lackey) in H.
Qed.

Lemma configure_symmetries_avoids (P : event -> bool) argv0 ov g p :
  (forall l, P (cout l) = false) -> P call_find_symmetries = false ->
  avoids P (configure_symmetries w argv0 ov g p).
Proof. intros H1 H2. unfold configure_symmetries. avoid. Qed.

Lemma configure_symmetries_core argv0 ov g p p' :
  snd (configure_symmetries w argv0 ov g p) = Continue p' -> same_core p p'.
Proof.
  unfold configure_symmetries.
  destruct (opt_pattern_symmetries ov).
  - rewrite !snd_bind. cbn.
    destruct (find_symmetries w argv0 (fst g) (pattern_less_constraints p) _);
      cbn; intros [= <-]. repeat split.
  - rewrite !snd_bind.
    destruct (count (opt_pattern_automorphism_group_size ov));
      cbn; intros [= <-]; apply same_core_refl.
Qed.

Lemma solve_and_report_avoids ov g p :
  avoids is_new_Lackey (solve_and_report w ov g p).
Proof. unfold solve_and_report. avoid. Qed.

Lemma solve_and_report_call ov g p g' p' :
  In (call_solve_homomorphism_problem g' p') (fst (solve_and_report w ov g p)) ->
  g' = g /\ p' = p.
Proof.
  unfold solve_and_report. intros H. apply in_bind in H.
  destruct H as [[H | []] | (_ & _ & H)].
  - now inversion H.
  - exfalso.
    assert (Ha : avoids is_solve
      (when (enumerate_callback p)
        (fold_right (fun m k => emit (cout (mapping_line g m)) ;;; k)
           (ret tt) (enumerated (fst (solve_homomorphism_problem w g p)))) ;;;
       result <- lift (snd (solve_homomorphism_problem w g p)) ;;
       emit (cout ("status = " ++ status p (aborted (fst (solve_homomorphism_problem w g p))) result)) ;;;
       when (count_solutions p)
         (emit (cout ("solution_count = " ++ string_of_Z (solution_count result)))) ;;;
       emit (cout ("nodes = " ++ string_of_Z (nodes result))) ;;;
       emit (cout ("propagations = " ++ string_of_Z (propagations result))) ;;;
       when (negb (match mapping result with [] => true | _ => false end)
             && negb (opt_print_all_solutions ov))
         (emit (cout (mapping_line g (mapping result)))) ;;;
       emit (cout ("runtime = " ++ string_of_Z (overall_time w))) ;;;
       fold_right (fun s k => emit (cout s) ;;; k) (ret tt) (extra_stats result) ;;;
       @return_ Empty_set EXIT_SUCCESS)) by avoid.
    apply Ha in H. discriminate.
Qed.

(** The parameters [run] starts from, after lines 279-292. *)
Lemma run_reaches_solver argv ov p g p' :
  In (call_solve_homomorphism_problem g p') (fst (run w argv ov p)) ->
  same_core p p' /\ ends_with (run w argv ov p) (solve_and_report w ov g p').
Proof.
  unfold run. cbv zeta. intros H.
  apply in_bind_avoids with (P := is_solve) in H;
    [| now apply banner_avoids | reflexivity].
  destruct H as (u & Hu & H).
  apply in_bind_avoids with (P := is_solve) in H;
    [| now apply read_graphs_avoids | reflexivity].
  destruct H as (graphs & Hg & H).
  apply in_bind_avoids with (P := is_solve) in H;
    [| now apply configure_lackey_avoids | reflexivity].
  destruct H as (p1 & Hp1 & H).
  apply in_bind_avoids with (P := is_solve) in H;
    [| now apply configure_symmetries_avoids | reflexivity].
  destruct H as (p2 & Hp2 & H).
  apply solve_and_report_call in H. destruct H as [-> ->].
  split.
  - apply configure_lackey_core in Hp1. apply configure_symmetries_core in Hp2.
    eapply same_core_trans; [exact Hp1 |].
    eapply same_core_trans; [| exact Hp2].
    destruct (opt_print_all_solutions ov); repeat split.
  - eapply ends_with_bind; [exact Hu |].
    eapply ends_with_bind; [exact Hg |].
    eapply ends_with_bind; [exact Hp1 |].
    eapply ends_with_bind; [exact Hp2 |].
    apply ends_with_refl.
Qed.

Lemma run_new_Lackey argv ov p s r :
  In (new_Lackey s r) (fst (run w argv ov p)) ->
  opt_send_to_lackey ov = Some s /\ opt_receive_from_lackey ov = Some r.
Proof.
  unfold run. cbv zeta. intros H.
  apply in_bind_avoids with (P := is_new_Lackey) in H;
    [| now apply banner_avoids | reflexivity].
  destruct H as (u & Hu & H).
  apply in_bind_avoids with (P := is_new_Lackey) in H;
    [| now apply read_graphs_avoids | reflexivity].
  destruct H as (graphs & Hg & H).
  apply in_bind in H. destruct H as [H | (p1 & Hp1 & H)].
  - now apply configure_lackey_given in H.
  - exfalso. apply in_bind in H. destruct H as [H | (p2 & Hp2 & H)].
    + apply (configure_symmetries_avoids is_new_Lackey) in H;
        [discriminate | reflexivity | reflexivity].
    + apply solve_and_report_avoids in H. discriminate.
Qed.

(** ** The report *)

Lemma emit_all {X : Type} (f : X -> event) (l : list X) :
  fold_right (fun x k => emit (f x) ;;; k) (ret tt) l = (map f l, Continue tt).
Proof.
  induction l as [| x l IH]; cbn [fold_right map]; [reflexivity |].
  rewrite IH. reflexivity.
Qed.

(** When the solver returns, the report is these lines and [main] returns
    [EXIT_SUCCESS]. *)
Lemma solve_and_report_returns ov g p r result :
  solve_homomorphism_problem w g p = (r, inr result) ->
  solve_and_report w ov g p =
  ((call_solve_homomorphism_problem g p
    :: (if enumerate_callback p
        then map (fun m => cout (mapping_line g m)) (enumerated r) else [])
    ++ [cout ("status = " ++ status p (aborted r) result)]
    ++ (if count_solutions p
        then [cout ("solution_count = " ++ string_of_Z (solution_count result))]
        else [])
    ++ [cout ("nodes = " ++ string_of_Z (nodes result));
        cout ("propagations = " ++ string_of_Z (propagations result))]
    ++ (if negb (match mapping result with [] => true | _ => false end)
           && negb (opt_print_all_solutions ov)
        then [cout (mapping_line g (mapping result))] else [])
    ++ [cout ("runtime = " ++ string_of_Z (overall_time w))]
    ++ map cout (extra_stats result))%list,
   Return EXIT_SUCCESS).
Proof.
  intros H. unfold solve_and_report. rewrite H. cbn [fst snd lift].
  rewrite (bind_silent (ret result) _ result eq_refl). cbn beta.
  rewrite !emit_all.
  destruct (enumerate_callback p), (count_solutions p),
    (negb (match mapping result with [] => true | _ => false end)
     && negb (opt_print_all_solutions ov));
    cbn [bind emit when ret return_ app]; rewrite ?app_nil_r; reflexivity.
Qed.

(** ** [main] as a whole *)

Lemma main_try_cases argv :
  match command_line_parser w argv with
  | inl e => main_try w argv = ([], Throw e)
  | inr ov =>
      if opt_help ov then
        main_try w argv =
        ([cout (usage (nth 0 argv "")); cout ""; cout (display_options w)],
         Return EXIT_SUCCESS)
      else if negb (count (opt_pattern_file ov)) || negb (count (opt_target_file ov))
      then main_try w argv = ([cout (usage (nth 0 argv ""))], Return EXIT_FAILURE)
      else main_try w argv = bind (configure w ov) (run w argv ov)
  end.
Proof.
  unfold main_try. destruct (command_line_parser w argv) as [e | ov]; cbn [lift].
  - reflexivity.
  - cbv zeta. rewrite (bind_silent (ret ov) _ ov eq_refl). cbn beta.
    destruct (opt_help ov); [reflexivity |].
    cbn [when]. rewrite (bind_silent (ret tt) _ tt eq_refl).
    destruct (negb (count (opt_pattern_file ov)) || negb (count (opt_target_file ov)));
      [reflexivity |].
    cbn [when]. rewrite (bind_silent (ret tt) _ tt eq_refl). reflexivity.
Qed.

Lemma main_of_return argv t st :
  main_try w argv = (t, Return st) -> main w argv = (t, st).
Proof. unfold main. now intros ->. Qed.

Lemma main_of_try argv (e : event) :
  (forall l, e <> cerr l) ->
  In e (fst (main w argv)) -> In e (fst (main_try w argv)).
Proof.
  intros He. unfold main.
  destruct (main_try w argv) as [t [[] | st | [m | m | m]]]; cbn [fst]; trivial;
    intros H; apply in_app_or in H; destruct H as [H | H]; trivial;
    exfalso; cbn in H; intuition (eapply He; eauto).
Qed.

(** Whenever the solver is called, every check has passed and the rest of
    [main] is the report. *)
Lemma main_reaches_solver argv g p :
  In (call_solve_homomorphism_problem g p) (fst (main w argv)) ->
  exists ov p0,
    command_line_parser w argv = inr ov /\
    configure w ov = ([], Continue p0) /\
    same_core p0 p /\
    ends_with (main_try w argv) (solve_and_report w ov g p).
Proof.
  intros H. apply main_of_try in H; [| discriminate].
  pose proof (main_try_cases argv) as Hc.
  destruct (command_line_parser w argv) as [e | ov].
  { rewrite Hc in H. contradiction. }
  destruct (opt_help ov).
  { rewrite Hc in H. cbn in H. intuition discriminate. }
  destruct (negb (count (opt_pattern_file ov)) || negb (count (opt_target_file ov))).
  { rewrite Hc in H. cbn in H. intuition discriminate. }
  rewrite Hc in H.
  pose proof (configure_spec ov) as Hv.
  destruct (configure w ov) as [t o] eqn:Hcfg. cbn [fst snd] in Hv.
  inversion Hv; subst t o;
    try (cbn in H; intuition discriminate).
  rewrite (bind_silent _ _ p0 eq_refl) in H, Hc.
  exists ov, p0. rewrite Hc. split; [reflexivity |]. split; [exact Hcfg |].
  now apply run_reaches_solver.
Qed.

Lemma main_ends_with_report argv ov g p r result :
  ends_with (main_try w argv) (solve_and_report w ov g p) ->
  solve_homomorphism_problem w g p = (r, inr result) ->
  snd (main w argv) = EXIT_SUCCESS /\
  forall e, In e (fst (solve_and_report w ov g p)) -> In e (fst (main w argv)).
Proof.
  intros (prefix & Hf & Hs) Hr.
  assert (Hm : main w argv = (fst (main_try w argv), EXIT_SUCCESS)).
  { apply main_of_return. rewrite (solve_and_report_returns ov g p r result Hr) in Hs.
    destruct (main_try w argv) as [t o]. cbn in Hs |- *. now subst o. }
  rewrite Hm. cbn [fst snd]. split; [reflexivity |].
  intros e He. rewrite Hf. apply in_or_app. now right.
Qed.

(** Whenever the solver is called, its parameters are those lines 141-238
    settled, and the rest of [main] is the report. *)
Lemma solver_called_configured argv g p :
  In (call_solve_homomorphism_problem g p) (fst (main w argv)) ->
  exists ov,
    command_line_parser w argv = inr ov /\
    configure_verdict (restarts_defaults w) ov [] (Continue p) /\
    ends_with (main_try w argv) (solve_and_report w ov g p).
Proof.
  intros H. apply main_reaches_solver in H.
  destruct H as (ov & p0 & Hp & Hc & (a & b & c & d) & He).
  exists ov. split; [exact Hp |]. split; [| exact He].
  pose proof (configure_spec ov) as Hv. rewrite Hc in Hv. cbn [fst snd] in Hv.
  inversion Hv; subst. apply verdict_configured; trivial; try congruence.
  intros Hnone. rewrite c, d. auto.
Qed.

Lemma main_new_Lackey argv s r :
  In (new_Lackey s r) (fst (main w argv)) ->
  exists ov, command_line_parser w argv = inr ov /\
    opt_send_to_lackey ov = Some s /\ opt_receive_from_lackey ov = Some r.
Proof.
  intros H. apply main_of_try in H; [| discriminate].
  pose proof (main_try_cases argv) as Hc.
  destruct (command_line_parser w argv) as [e | ov].
  { rewrite Hc in H. contradiction. }
  destruct (opt_help ov).
  { rewrite Hc in H. cbn in H. intuition discriminate. }
  destruct (negb (count (opt_pattern_file ov)) || negb (count (opt_target_file ov))).
  { rewrite Hc in H. cbn in H. intuition discriminate. }
  rewrite Hc in H. apply in_bind in H. destruct H as [H | (p & _ & H)].
  - exfalso. pose proof (configure_spec ov) as Hv.
    destruct (configure w ov) as [t o]. cbn [fst snd] in Hv, H.
    inversion Hv; subst t o; cbn in H; intuition discriminate.
  - apply run_new_Lackey in H. destruct H as (Hs & Hr).
    now exists ov.
Qed.

(** A check of lines 159-238 failed. *)
Lemma main_of_verdict argv ov t :
  command_line_parser w argv = inr ov ->
  opt_help ov = false ->
  opt_pattern_file ov <> None -> opt_target_file ov <> None ->
  configure w ov = (t, Return EXIT_FAILURE) ->
  main w argv = (t, EXIT_FAILURE).
Proof.
  intros Hp Hh Hf1 Hf2 Hc. apply main_of_return.
  pose proof (main_try_cases argv) as H. rewrite Hp, Hh in H.
  destruct (opt_pattern_file ov); [| congruence].
  destruct (opt_target_file ov); [| congruence].
  cbn in H. now rewrite H, (bind_stops _ _ _ _ Hc).
Qed.

End Steps.

Lemma one_line_no_search (e : event) :
  is_solve e = false -> ~ search_started [e].
Proof. intros He (g & p & [H | []]). subst e. discriminate. Qed.

Lemma one_line_no_graph (l : string) :
  ~ graphs_touched [cout l] /\ ~ graphs_touched [cerr l].
Proof.
  split; intros (f & [[H | []] | [[H | []] | [H | []]]]); discriminate.
Qed.

End DriverFacts.

(** * Facts about the restart schedules *)

Module RestartsFacts.
Import Restarts.
Local Open Scope N_scope.

Lemma luby_from_step (fuel : nat) (i : N) :
  luby_from (S fuel) i =
  if i =? 2 ^ N.succ (N.log2 i) - 1 then 2 ^ (N.succ (N.log2 i) - 1)
  else luby_from fuel (i - 2 ^ (N.succ (N.log2 i) - 1) + 1).
Proof. reflexivity. Qed.

(** Where the sequence recurs, the index gets smaller and stays positive. *)
Lemma luby_descent (i : N) :
  1 <= i -> i <> 2 ^ N.succ (N.log2 i) - 1 ->
  1 <= i - 2 ^ (N.succ (N.log2 i) - 1) + 1 < i.
Proof.
  intros Hi Hne.
  assert (Hpos : 0 < i) by lia.
  destruct (N.log2_spec i Hpos) as [Hlo Hhi].
  replace (N.succ (N.log2 i) - 1) with (N.log2 i) by lia.
  rewrite N.pow_succ_r' in Hhi, Hne.
  assert (Hk : N.log2 i <> 0).
  { intros H0. rewrite H0 in *. cbn in *. lia. }
  assert (H2 : 2 <= 2 ^ N.log2 i).
  { replace (N.log2 i) with (N.succ (N.pred (N.log2 i))) by lia.
    rewrite N.pow_succ_r'.
    assert (0 < 2 ^ N.pred (N.log2 i)) by (apply N.neq_0_lt_0, N.pow_nonzero; lia).
    lia. }
  lia.
Qed.

(** The fuel does not matter once it covers the index. *)
Lemma luby_from_fuel (f1 : nat) : forall (f2 : nat) (i : N),
  1 <= i -> (N.to_nat i <= f1)%nat -> (N.to_nat i <= f2)%nat ->
  luby_from f1 i = luby_from f2 i.
Proof.
  induction f1 as [| f1 IH]; intros f2 i Hi H1 H2; [lia |].
  destruct f2 as [| f2]; [lia |].
  rewrite !luby_from_step.
  destruct (N.eqb_spec i (2 ^ N.succ (N.log2 i) - 1)) as [_ | Hne]; [reflexivity |].
  pose proof (luby_descent i Hi Hne) as [Hlo Hhi].
  apply IH; lia.
Qed.

(** The two equations of the standard sequence. *)
Lemma luby_at_block_end (k : N) :
  1 <= k -> luby (2 ^ k - 1) = 2 ^ (k - 1).
Proof.
  intros Hk. unfold luby.
  assert (Hp : 2 <= 2 ^ k).
  { replace k with (N.succ (N.pred k)) by lia. rewrite N.pow_succ_r'.
    assert (0 < 2 ^ N.pred k) by (apply N.neq_0_lt_0, N.pow_nonzero; lia). lia. }
  assert (Hl : N.log2 (2 ^ k - 1) = k - 1).
  { rewrite N.sub_1_r. rewrite N.log2_pred_pow2 by lia. lia. }
  destruct (N.to_nat (2 ^ k - 1)) as [| f] eqn:Hf; [lia |].
  rewrite luby_from_step, Hl.
  replace (N.succ (k - 1)) with k by lia.
  now rewrite N.eqb_refl.
Qed.

Lemma luby_inside_block (k i : N) :
  1 <= k -> 2 ^ (k - 1) <= i < 2 ^ k - 1 ->
  luby i = luby (i - 2 ^ (k - 1) + 1).
Proof.
  intros Hk [Hlo Hhi]. unfold luby.
  assert (Hpos : 0 < 2 ^ (k - 1)) by (apply N.neq_0_lt_0, N.pow_nonzero; lia).
  assert (Hl : N.log2 i = k - 1).
  { apply N.log2_unique; [lia |]. split; [exact Hlo |].
    replace (N.succ (k - 1)) with k by lia. lia. }
  destruct (N.to_nat i) as [| f] eqn:Hf; [lia |].
  rewrite luby_from_step, Hl.
  replace (N.succ (k - 1)) with k by lia.
  destruct (N.eqb_spec i (2 ^ k - 1)) as [Heq | _]; [lia |].
  assert (Hd : 2 ^ k = 2 * 2 ^ (k - 1)).
  { replace k with (N.succ (k - 1)) at 1 by lia. apply N.pow_succ_r'. }
  apply luby_from_fuel; lia.
Qed.

(** C6.  The Luby schedule with multiplier 1 gives, for the restart
    indices 0 to 7, the budgets 1, 1, 2, 1, 1, 2, 4, 1. *)
Theorem luby_first_budgets :
  map (next_budget (Luby 1)) [0; 1; 2; 3; 4; 5; 6; 7] =
  map Backtracks [1; 1; 2; 1; 1; 2; 4; 1].
Proof. reflexivity. Qed.

End RestartsFacts.

(** * Facts about the engine *)

Module EngineFacts.
Import Engine.
Local Open Scope nat_scope.

(** ** The tests of the bigraph model decide the relations *)

Lemma port_eqb_eq (a b : port) : port_eqb a b = true <-> a = b.
Proof.
  destruct a as [v i], b as [w j]. unfold port_eqb. cbn.
  rewrite andb_true_iff, !Nat.eqb_eq. split.
  - intros [-> ->]. reflexivity.
  - intros [= -> ->]. now split.
Qed.

Lemma has_port_In (a : port) (l : list port) : has_port a l = true <-> In a l.
Proof.
  unfold has_port. rewrite existsb_exists. split.
  - intros (b & Hb & Heq). apply port_eqb_eq in Heq. now subst b.
  - intros H. exists a. split; [exact H | now apply port_eqb_eq].
Qed.

Lemma touches_spec (v : vertex) (l : list port) :
  touches v l = true <-> exists a, In a l /\ fst a = v.
Proof.
  unfold touches. rewrite existsb_exists.
  split; intros (a & Ha & Hv); exists a; split; trivial; now apply Nat.eqb_eq.
Qed.

Lemma linked_spec (g : Bigraph) (a b : port) :
  linked g a b = true <-> on_one_link g a b.
Proof.
  unfold linked, on_one_link. rewrite existsb_exists.
  split; intros (l & Hl & H); exists l; split; trivial.
  - apply andb_true_iff in H. now rewrite <- !has_port_In.
  - apply andb_true_iff. now rewrite !has_port_In.
Qed.

Lemma colinked_spec (g : Bigraph) (u v : vertex) :
  colinked g u v = true <-> share_a_link g u v.
Proof.
  unfold colinked, share_a_link, on_one_link. rewrite existsb_exists. split.
  - intros (l & Hl & H). apply andb_true_iff in H. destruct H as [Hu Hv].
    apply touches_spec in Hu, Hv.
    destruct Hu as (a & Ha & Hau), Hv as (b & Hb & Hbv).
    exists a, b. repeat split; trivial. now exists l.
  - intros (a & b & Hau & Hbv & l & Hl & Ha & Hb).
    exists l. split; trivial. apply andb_true_iff.
    split; apply touches_spec; [now exists a | now exists b].
Qed.

Lemma climbs_sound (g : Bigraph) (fuel : nat) (u : vertex) : forall v,
  climbs g fuel u v = true -> ancestor g u v.
Proof.
  induction fuel as [| fuel IH]; intros v H; cbn in H; [discriminate |].
  destruct (parent g v) as [w |] eqn:Hp; [| discriminate].
  apply orb_true_iff in H. destruct H as [H | H].
  - apply Nat.eqb_eq in H. subst w. now apply ancestor_parent.
  - apply ancestor_above with w; [exact Hp | now apply IH].
Qed.

Lemma climbs_complete (g : Bigraph) (fuel : nat) (u : vertex) : forall v,
  rooted g fuel v = true -> ancestor g u v -> climbs g fuel u v = true.
Proof.
  induction fuel as [| fuel IH]; intros v Hr Ha; cbn in Hr |- *; [discriminate |].
  destruct Ha as [v Hp | v w Hp Ha]; rewrite Hp in Hr |- *.
  - now rewrite Nat.eqb_refl.
  - apply andb_true_iff in Hr. destruct Hr as [_ Hr].
    apply orb_true_iff. right. now apply IH.
Qed.

Lemma well_formed_rooted (g : Bigraph) (v : vertex) :
  well_formed g = true -> v < vertices g -> rooted g (vertices g) v = true.
Proof.
  unfold well_formed. rewrite !andb_true_iff. intros [[H _] _] Hv.
  rewrite forallb_forall in H. apply H, in_seq. lia.
Qed.

Lemma is_ancestor_spec (g : Bigraph) (u v : vertex) :
  well_formed g = true -> v < vertices g ->
  is_ancestor g u v = true <-> ancestor g u v.
Proof.
  intros Hw Hv. unfold is_ancestor. split.
  - apply climbs_sound.
  - apply climbs_complete. now apply well_formed_rooted.
Qed.

Lemma all_different_NoDup (l : list vertex) : all_different l = true -> NoDup l.
Proof.
  induction l as [| x l IH]; cbn; intros H; constructor.
  - apply andb_true_iff in H. destruct H as [H _].
    intros Hin. apply negb_true_iff in H.
    assert (He : existsb (Nat.eqb x) l = true).
    { apply existsb_exists. exists x. split; [exact Hin | apply Nat.eqb_refl]. }
    congruence.
  - apply andb_true_iff in H. now apply IH.
Qed.

Lemma NoDup_images_injective (m : assignment) :
  NoDup (map snd m) -> injective m.
Proof.
  unfold injective, maps.
  induction m as [| [w z] m IH]; cbn; intros Hn u v x Hu Hv; [contradiction |].
  inversion Hn as [| ? ? Hnot Hn']; subst.
  destruct Hu as [Hu | Hu], Hv as [Hv | Hv].
  - congruence.
  - inversion Hu; subst. exfalso. apply Hnot.
    change x with (snd (v, x)). now apply in_map.
  - inversion Hv; subst. exfalso. apply Hnot.
    change x with (snd (u, x)). now apply in_map.
  - now apply (IH Hn' u v x).
Qed.

Lemma images_spec (m : assignment) (a a' : port) :
  In a' (images m a) <-> exists y, In (fst a, y) m /\ a' = (y, snd a).
Proof.
  unfold images. rewrite in_map_iff. split.
  - intros ([v y] & Heq & Hin). apply filter_In in Hin. cbn in *.
    destruct Hin as [Hin Hv]. apply Nat.eqb_eq in Hv. subst v.
    exists y. now split.
  - intros (y & Hin & ->). exists (fst a, y). split; [reflexivity |].
    apply filter_In. split; [exact Hin | apply Nat.eqb_refl].
Qed.

Lemma domain_in_range (p t : Bigraph) (u x : vertex) :
  In x (domain p t u) -> x < vertices t.
Proof.
  unfold domain. intros H. apply filter_In in H. destruct H as [H _].
  apply in_seq in H. lia.
Qed.

(** ** What holds of every partial assignment of the search *)

Section Search.

Variables p t : Bigraph.
Variable params : Params.

Lemma consistent_nil : consistent p t [].
Proof. split; intros; contradiction. Qed.

Lemma propagate_consistent (m : assignment) (u x : vertex) :
  consistent p t m -> u < vertices p -> x < vertices t ->
  propagate p t m u x = true -> consistent p t ((u, x) :: m).
Proof.
  intros [Hr Ha Hl] Hu Hx H. unfold propagate in H.
  rewrite !andb_true_iff in H. destruct H as [[_ Hanc] Hlnk].
  rewrite forallb_forall in Hanc, Hlnk.
  split.
  - intros v y [[= <- <-] | Hin]; [now split | now apply Hr].
  - intros v v' y y' Hv Hv' Hpv.
    destruct Hv as [[= <- <-] | Hv].
    + specialize (Hanc (v', y') Hv'). cbn in Hanc.
      apply andb_true_iff in Hanc. destruct Hanc as [Hanc _].
      rewrite Hpv in Hanc. exact Hanc.
    + destruct Hv' as [[= <- <-] | Hv'].
      * specialize (Hanc (v, y) (or_intror Hv)). cbn in Hanc.
        apply andb_true_iff in Hanc. destruct Hanc as [_ Hanc].
        rewrite Hpv in Hanc. exact Hanc.
      * now apply (Ha v v' y y').
  - intros l a b y y' Hin Hina Hinb Hay Hby.
    destruct (touches u l) eqn:Ht.
    + specialize (Hlnk l Hin). rewrite Ht in Hlnk. cbn [implb] in Hlnk.
      rewrite forallb_forall in Hlnk. specialize (Hlnk a Hina).
      rewrite forallb_forall in Hlnk. specialize (Hlnk b Hinb).
      rewrite forallb_forall in Hlnk.
      assert (Ha' : In (y, snd a) (images ((u, x) :: m) a))
        by (apply images_spec; now exists y).
      specialize (Hlnk _ Ha'). rewrite forallb_forall in Hlnk.
      apply Hlnk. apply images_spec. now exists y'.
    + assert (Hno : forall c, In c l -> fst c <> u).
      { intros c Hc Heq.
        assert (touches u l = true) by (apply touches_spec; now exists c).
        congruence. }
      destruct Hay as [[= Hau _] | Hay]; [exfalso; now apply (Hno a Hina) |].
      destruct Hby as [[= Hbu _] | Hby]; [exfalso; now apply (Hno b Hinb) |].
      now apply (Hl l a b).
Qed.

Hypothesis pattern_ok : well_formed p = true.
Hypothesis target_ok : well_formed t = true.

(** What SOLUTION lets through has every property asked of a mapping. *)
Lemma solution_sound (m : assignment) (found : list assignment) :
  consistent p t m -> total p m ->
  solution p t params m = inr found ->
  forall M, In M found ->
    total p M /\ injective M /\ preserves_ancestry p t M /\
    preserves_links p t M /\
    (induced params = true -> preserves_non_adjacency p t M).
Proof.
  intros [Hr Ha Hl] Htot Hs M HM. unfold solution in Hs.
  destruct (all_different (map snd m) && implb (induced params) (reflects p t m))
    eqn:Hv.
  2:{ inversion Hs; subst. contradiction. }
  assert (HMm : M = m).
  { destruct (lackey params) as [ask |].
    - destruct (ask m); inversion Hs; subst; cbn in HM; intuition.
    - inversion Hs; subst. cbn in HM. intuition. }
  subst M. apply andb_true_iff in Hv. destruct Hv as [Hd Hi].
  split; [exact Htot |].
  split; [now apply NoDup_images_injective, all_different_NoDup |].
  split.
  { intros u v x y Hu Hv Hanc. unfold maps in *.
    destruct (Hr v y Hv) as [Hvp Hyt].
    apply (is_ancestor_spec t x y target_ok Hyt).
    apply (Ha u v x y Hu Hv).
    now apply (is_ancestor_spec p u v pattern_ok Hvp). }
  split.
  { intros l a b x y Hin Hina Hinb Hx Hy. apply linked_spec.
    now apply (Hl l a b). }
  intros Hind. rewrite Hind in Hi. cbn in Hi.
  unfold reflects in Hi. rewrite forallb_forall in Hi.
  intros u v x y Hne Hu Hv. unfold maps in *.
  specialize (Hi (u, x) Hu). rewrite forallb_forall in Hi.
  specialize (Hi (v, y) Hv). cbn in Hi.
  apply orb_true_iff in Hi. destruct Hi as [Hi | Hi].
  { apply Nat.eqb_eq in Hi. contradiction. }
  apply andb_true_iff in Hi. destruct Hi as [Hanc Hcol].
  destruct (Hr v y Hv) as [Hvp Hyt].
  split.
  - intros Hnp Hat. apply Hnp.
    apply (is_ancestor_spec t x y target_ok Hyt) in Hat.
    rewrite Hat in Hanc. cbn in Hanc.
    now apply (is_ancestor_spec p u v pattern_ok Hvp).
  - intros Hnp Hst. apply Hnp. apply colinked_spec in Hst.
    rewrite Hst in Hcol. cbn in Hcol. now apply colinked_spec.
Qed.

Lemma select_value_found (c : bool)
    (assign : vertex -> SolveError + list assignment) (values : list vertex) :
  forall found, select_value c assign values = inr found ->
  forall M, In M found ->
  exists x found', In x values /\ assign x = inr found' /\ In M found'.
Proof.
  induction values as [| x values IH]; cbn; intros found H M HM.
  - inversion H; subst. contradiction.
  - destruct (assign x) as [e | here] eqn:Hx; [discriminate |].
    destruct (negb c && negb (match here with [] => true | _ => false end)).
    + inversion H; subst. exists x, found. auto.
    + destruct (select_value c assign values) as [e | more]; [discriminate |].
      inversion H; subst. apply in_app_or in HM. destruct HM as [HM | HM].
      * exists x, here. auto.
      * destruct (IH more eq_refl M HM) as (x' & f' & Hin & Ha & HM').
        exists x', f'. auto.
Qed.

Lemma search_sound (variables : list vertex) : forall (m : assignment) found,
  consistent p t m ->
  (forall u, In u variables -> u < vertices p) ->
  (forall u, u < vertices p -> In u variables \/ exists x, maps m u x) ->
  search p t params variables m = inr found ->
  forall M, In M found ->
    total p M /\ injective M /\ preserves_ancestry p t M /\
    preserves_links p t M /\
    (induced params = true -> preserves_non_adjacency p t M).
Proof.
  induction variables as [| u variables IH]; intros m found Hc Hvars Hcov Hs M HM;
    cbn [search] in Hs.
  - apply (solution_sound m found Hc); trivial.
    intros u Hu. destruct (Hcov u Hu) as [[] | H]. exact H.
  - destruct (select_value_found _ _ _ found Hs M HM) as (x & f & Hx & Hf & HMf).
    destruct (propagate p t m u x) eqn:Hp.
    2:{ inversion Hf; subst. contradiction. }
    apply (IH ((u, x) :: m) f); trivial.
    + apply propagate_consistent; trivial.
      * apply Hvars. now left.
      * now apply domain_in_range with p u.
    + intros v Hv. apply Hvars. now right.
    + intros v Hv. destruct (Hcov v Hv) as [[<- | Hin] | (y & Hy)].
      * right. exists x. now left.
      * now left.
      * right. exists y. now right.
Qed.

End Search.

(** C1.  Every mapping the engine accepts, whether it is returned or
    counted, assigns every pattern vertex, is injective, preserves the
    ancestry of the place forest and the links of the ports, and, when
    [induced] is set, preserves non-ancestry and non-colinkedness of
    distinct vertices too. *)
Theorem accepted_mappings_sound (p t : Bigraph) (params : Params)
    (found : list assignment) :
  accepted p t params = inr found ->
  (forall M, In M found ->
     total p M /\ injective M /\ preserves_ancestry p t M /\
     preserves_links p t M /\
     (induced params = true -> preserves_non_adjacency p t M)) /\
  (forall r, solve p t params = inr r ->
     solution_count r = length found /\
     (mapping r = [] \/ In (mapping r) found)).
Proof.
  intros H. split.
  - unfold accepted in H.
    destruct (well_formed p && well_formed t) eqn:Hw; [| discriminate].
    apply andb_true_iff in Hw. destruct Hw as [Hp Ht].
    intros M HM.
    apply (search_sound p t params Hp Ht (seq 0 (vertices p)) [] found); trivial.
    + apply consistent_nil.
    + intros u Hu. apply in_seq in Hu. lia.
    + intros u Hu. left. apply in_seq. lia.
  - intros r Hr. unfold solve in Hr. rewrite H in Hr. inversion Hr; subst. cbn.
    split; [reflexivity |].
    destruct (count_solutions params); [now left |].
    destruct found as [| M found]; [now left | right; now left].
Qed.

(** The scenarios of section 8, run on the model. *)
Example one_vertex_into_two :
  solve single_vertex two_isolated (finding true)
    = inr {| mapping := [(0, 0)]; solution_count := 1 |} /\
  solve single_vertex two_isolated (counting true)
    = inr {| mapping := []; solution_count := 2 |}.
Proof. split; reflexivity. Qed.

Example no_false_positive :
  solve nested_linked nested_apart (finding true)
    = inr {| mapping := []; solution_count := 0 |} /\
  solve nested_linked nested_apart (finding false)
    = inr {| mapping := []; solution_count := 0 |}.
Proof. split; reflexivity. Qed.

Example oracle_always_rejects :
  solve single_vertex two_isolated always_rejecting
    = inr {| mapping := []; solution_count := 0 |}.
Proof. reflexivity. Qed.

(** The theorem at a pattern that embeds. *)
Lemma accepted_mappings_sound_witness :
  accepted nested_linked nested_linked (finding true) = inr [[(1, 1); (0, 0)]] /\
  injective [(1, 1); (0, 0)] /\
  preserves_ancestry nested_linked nested_linked [(1, 1); (0, 0)].
Proof.
  assert (H : accepted nested_linked nested_linked (finding true)
              = inr [[(1, 1); (0, 0)]]) by reflexivity.
  split; [exact H |].
  destruct (accepted_mappings_sound _ _ _ _ H) as [Hs _].
  destruct (Hs [(1, 1); (0, 0)] (or_introl eq_refl)) as (_ & Hi & Ha & _).
  split; [exact Hi | exact Ha].
Defined.

End EngineFacts.

(** * The claims about the driver *)

Import Driver DriverFacts.

(** C2 (as amended).  For every call of the solver that [main] makes, the
    parameters carry [injectivity = Injective] and [induced = true]: both
    are fixed, whatever the command line says. *)
Theorem solver_settings_fixed (w : World) (argv : list string)
    (g : InputGraph * InputGraph) (p : HomomorphismParams) :
  In (call_solve_homomorphism_problem g p) (fst (main w argv)) ->
  injectivity p = Injective /\ induced p = true.
Proof.
  intros H. apply solver_called_configured in H.
  destruct H as (ov & _ & Hv & _). inversion Hv; subst. now split.
Qed.

(** C2, as stated, fails: no command line and no world make [main] call
    the solver with [induced = false], so [induced] is not an option that
    the caller can set. *)
Lemma induced_is_not_an_option :
  ~ exists (w : World) (argv : list string) g p,
      In (call_solve_homomorphism_problem g p) (fst (main w argv)) /\
      induced p = false.
Proof.
  intros (w & argv & g & p & H & Hi). apply solver_called_configured in H.
  destruct H as (ov & _ & Hv & _). inversion Hv; subst. congruence.
Qed.

(** C3 (as amended).  When the option parser accepts the command line,
    [--help] is absent and both input files are named, an unrecognised
    restart policy or value-ordering heuristic makes [main] print exactly
    one line, on [cerr], naming the offending value, and return
    [EXIT_FAILURE]; the solver is never called.  (A command line that the
    parser rejects never gets to these checks: the handlers of lines
    338-350 report the parser's error.) *)
Theorem unknown_policy_rejected (w : World) (argv : list string)
    (ov : variables_map) :
  command_line_parser w argv = inr ov ->
  opt_help ov = false ->
  opt_pattern_file ov <> None -> opt_target_file ov <> None ->
  (exists s, opt_restarts ov = Some s /\ ~ In s restarts_policies) \/
  (exists s, opt_value_ordering ov = Some s /\ ~ In s value_ordering_heuristics) ->
  exists msg,
    main w argv = ([cerr msg], EXIT_FAILURE) /\
    snd (main w argv) <> 0%Z /\
    ~ search_started (fst (main w argv)) /\
    ((exists s, opt_restarts ov = Some s /\ ~ In s restarts_policies /\
        msg = "Unknown restarts policy '" ++ s ++ "'") \/
     (exists s, opt_value_ordering ov = Some s /\
        ~ In s value_ordering_heuristics /\
        msg = "Unknown value-ordering heuristic '" ++ s ++ "'")).
Proof.
  intros Hp Hh Hf1 Hf2 Hbad.
  pose proof (configure_spec w ov) as Hv.
  destruct (configure w ov) as [t o] eqn:Hc. cbn [fst snd] in Hv.
  assert (Hgood : recognised restarts_policies (opt_restarts ov) ->
                  recognised value_ordering_heuristics (opt_value_ordering ov) ->
                  False).
  { intros Hr Ho. destruct Hbad as [(s & Hs & Hn) | (s & Hs & Hn)];
      [apply Hn, (Hr s Hs) | apply Hn, (Ho s Hs)]. }
  inversion Hv; subst t o; try (exfalso; now apply Hgood).
  - pose proof (main_of_verdict w argv ov _ Hp Hh Hf1 Hf2 Hc) as Hm.
    eexists. split; [exact Hm |]. rewrite Hm. cbn [fst snd].
    split; [discriminate |]. split; [now apply one_line_no_search |].
    left. now exists s.
  - pose proof (main_of_verdict w argv ov _ Hp Hh Hf1 Hf2 Hc) as Hm.
    eexists. split; [exact Hm |]. rewrite Hm. cbn [fst snd].
    split; [discriminate |]. split; [now apply one_line_no_search |].
    right. now exists s.
Qed.

(** C4 (as amended).  When the option parser accepts the command line,
    [--help] is absent, both input files are named and the policy names
    are recognised, a less-than constraint without ['<'] makes [main] print
    exactly one line, on [cerr], quoting such a constraint, and return
    [EXIT_FAILURE]; the solver is never called.  (A command line that the
    parser rejects never gets to the loop over the constraints.) *)
Theorem bad_less_than_rejected (w : World) (argv : list string)
    (ov : variables_map) :
  command_line_parser w argv = inr ov ->
  opt_help ov = false ->
  opt_pattern_file ov <> None -> opt_target_file ov <> None ->
  recognised restarts_policies (opt_restarts ov) ->
  recognised value_ordering_heuristics (opt_value_ordering ov) ->
  (exists s, In s (pattern_less_thans ov) /\ no_separator s) ->
  exists s,
    In s (pattern_less_thans ov) /\ no_separator s /\
    main w argv =
    ([cerr ("Invalid pattern less-than constraint '" ++ s ++ "'")], EXIT_FAILURE) /\
    snd (main w argv) <> 0%Z /\
    ~ search_started (fst (main w argv)).
Proof.
  intros Hp Hh Hf1 Hf2 Hr Ho (s0 & Hin0 & Hno0).
  pose proof (configure_spec w ov) as Hv.
  destruct (configure w ov) as [t o] eqn:Hc. cbn [fst snd] in Hv.
  assert (Hall : Forall (fun s => ~ no_separator s) (pattern_less_thans ov) -> False).
  { intros Hall. rewrite Forall_forall in Hall. now apply (Hall s0 Hin0). }
  inversion Hv; subst t o; try (exfalso; now apply Hall).
  - exfalso. match goal with H : ~ In ?s restarts_policies |- _ => apply H end.
    now apply Hr.
  - exfalso. match goal with H : ~ In ?s value_ordering_heuristics |- _ => apply H end.
    now apply Ho.
  - pose proof (main_of_verdict w argv ov _ Hp Hh Hf1 Hf2 Hc) as Hm.
    exists s. repeat split; trivial; rewrite Hm; cbn [fst snd];
      [discriminate | now apply one_line_no_search].
Qed.

(** C5.  When the timeout has expired by the time the solver returns, the
    run is not an error: [main] prints the status [aborted], which is not
    the status [false] it prints when the search ended without a mapping,
    and returns [EXIT_SUCCESS], which is zero. *)
Theorem timeout_is_not_an_error (w : World) (argv : list string)
    (g : InputGraph * InputGraph) (p : HomomorphismParams)
    (r : SolverRun) (result : HomomorphismResult) :
  In (call_solve_homomorphism_problem g p) (fst (main w argv)) ->
  solve_homomorphism_problem w g p = (r, inr result) ->
  aborted r = true ->
  In (cout "status = aborted") (fst (main w argv)) /\
  status p (aborted r) result = "aborted" /\
  status p (aborted r) result <> "false" /\
  (forall result', mapping result' = [] ->
     count_solutions p = false \/ (solution_count result' <= 0)%Z ->
     status p false result' = "false") /\
  snd (main w argv) = EXIT_SUCCESS /\
  snd (main w argv) = 0%Z /\
  snd (main w argv) <> EXIT_FAILURE.
Proof.
  intros H Hr Ha. apply solver_called_configured in H.
  destruct H as (ov & _ & _ & He).
  destruct (main_ends_with_report w argv ov g p r result He Hr) as [Hs Hin].
  assert (Hst : status p (aborted r) result = "aborted")
    by (unfold status; now rewrite Ha).
  split.
  { apply Hin. rewrite (solve_and_report_returns w ov g p r result Hr).
    cbn [fst]. right. apply in_or_app. right. left. now rewrite Hst. }
  split; [exact Hst |]. split; [rewrite Hst; discriminate |].
  split.
  { intros result' Hm Hc. unfold status. rewrite Hm. cbn.
    destruct Hc as [-> | Hc]; [reflexivity |].
    destruct (count_solutions p); [| reflexivity].
    destruct (Z.ltb_spec 0 (solution_count result')); [lia | reflexivity]. }
  rewrite Hs. repeat split. discriminate.
Qed.

(** C8 (as amended).  When the option parser accepts the command line,
    [--help] is absent and exactly one of the two lackey pipes is given,
    [main] prints exactly one line, returns [EXIT_FAILURE], opens no file,
    reads no graph and never calls the solver; when the earlier checks
    pass, the line is the lackey diagnostic on [cerr].  And in every run
    on an accepted command line, a [Lackey] is constructed only when both
    pipes are given, on those two pipes.  (A command line that the parser
    rejects gets the parser's error, which is two lines for a
    [po::error].) *)
Theorem lackey_needs_both_pipes (w : World) (argv : list string)
    (ov : variables_map) :
  command_line_parser w argv = inr ov ->
  (opt_help ov = false ->
   xorb (count (opt_send_to_lackey ov)) (count (opt_receive_from_lackey ov)) = true ->
   snd (main w argv) = EXIT_FAILURE /\
   snd (main w argv) <> 0%Z /\
   (exists line, fst (main w argv) = [cout line] \/ fst (main w argv) = [cerr line]) /\
   ~ graphs_touched (fst (main w argv)) /\
   ~ search_started (fst (main w argv)) /\
   (opt_pattern_file ov <> None -> opt_target_file ov <> None ->
    recognised restarts_policies (opt_restarts ov) ->
    recognised value_ordering_heuristics (opt_value_ordering ov) ->
    Forall (fun s => ~ no_separator s) (pattern_less_thans ov) ->
    fst (main w argv) =
    [cerr "Must specify both of --send-to-lackey and --receive-from-lackey"])) /\
  (forall s r, In (new_Lackey s r) (fst (main w argv)) ->
   opt_send_to_lackey ov = Some s /\ opt_receive_from_lackey ov = Some r).
Proof.
  intros Hp. split.
  2:{ intros s r H. apply main_new_Lackey in H.
      destruct H as (ov' & Hp' & Hs & Hr).
      rewrite Hp in Hp'. inversion Hp'; subst ov'. now split. }
  intros Hh Hx.
  assert (Hone : forall e, (exists line, e = cout line \/ e = cerr line) ->
    main w argv = ([e], EXIT_FAILURE) ->
    snd (main w argv) = EXIT_FAILURE /\ snd (main w argv) <> 0%Z /\
    (exists line, fst (main w argv) = [cout line] \/ fst (main w argv) = [cerr line]) /\
    ~ graphs_touched (fst (main w argv)) /\ ~ search_started (fst (main w argv))).
  { intros e (line & He) Hm. rewrite Hm. cbn [fst snd].
    split; [reflexivity |]. split; [discriminate |].
    split; [exists line; destruct He; subst e; auto |].
    split; destruct He; subst e;
      solve [ apply one_line_no_graph | now apply one_line_no_search ]. }
  destruct (negb (count (opt_pattern_file ov)) || negb (count (opt_target_file ov)))
    eqn:Hfiles.
  - pose proof (main_try_cases w argv) as Hc. rewrite Hp, Hh, Hfiles in Hc.
    apply main_of_return in Hc.
    destruct (Hone _ (ex_intro _ _ (or_introl eq_refl)) Hc) as (a & b & c & d & e).
    repeat split; trivial.
    intros Hf1 Hf2. exfalso.
    destruct (opt_pattern_file ov); [| congruence].
    destruct (opt_target_file ov); [| congruence]. discriminate.
  - assert (Hf : opt_pattern_file ov <> None /\ opt_target_file ov <> None).
    { destruct (opt_pattern_file ov), (opt_target_file ov);
        cbn in Hfiles; try discriminate. split; discriminate. }
    destruct Hf as [Hf1 Hf2].
    pose proof (configure_spec w ov) as Hv.
    destruct (configure w ov) as [t o] eqn:Hc. cbn [fst snd] in Hv.
    inversion Hv; subst t o; try congruence;
      pose proof (main_of_verdict w argv ov _ Hp Hh Hf1 Hf2 Hc) as Hm;
      destruct (Hone _ (ex_intro _ _ (or_intror eq_refl)) Hm) as (a & b & c & d & e);
      repeat split; trivial; intros _ _ Hr Ho Hall.
    + exfalso.
      match goal with H : ~ In ?s restarts_policies |- _ => apply H end. now apply Hr.
    + exfalso.
      match goal with H : ~ In ?s value_ordering_heuristics |- _ => apply H end.
      now apply Ho.
    + exfalso. rewrite Forall_forall in Hall.
      match goal with H : no_separator ?s |- _ => now apply (Hall s) end.
    + now rewrite Hm.
Qed.

(** C9.  When [--restarts] is absent and [main] calls the solver, the
    schedule is [NoRestartsSchedule] when counting solutions, the timed
    schedule with its default parameters when [--parallel] is given and
    not counting, and the Luby schedule with its default multiplier
    otherwise. *)
Theorem default_restarts_schedule (w : World) (argv : list string)
    (ov : variables_map) (g : InputGraph * InputGraph) (p : HomomorphismParams) :
  command_line_parser w argv = inr ov ->
  opt_restarts ov = None ->
  In (call_solve_homomorphism_problem g p) (fst (main w argv)) ->
  count_solutions p = (opt_count_solutions ov || opt_print_all_solutions ov) /\
  restarts_schedule p =
  Some (if count_solutions p then NoRestartsSchedule
        else if opt_parallel ov then
          TimedRestartsSchedule
            (Timed_default_duration (restarts_defaults w))
            (Timed_default_minimum_backtracks (restarts_defaults w))
        else LubyRestartsSchedule (Luby_default_multiplier (restarts_defaults w))).
Proof.
  intros Hp Hnone H. apply solver_called_configured in H.
  destruct H as (ov' & Hp' & Hv & _).
  rewrite Hp in Hp'. inversion Hp'; subst ov'.
  inversion Hv; subst. auto.
Qed.


(** * The theorems at concrete command lines *)

Ltac in_trace := vm_compute; repeat first [ left; reflexivity | right ].

Lemma not_in_names (s : string) (names : list string) :
  forallb (fun x => negb (s =? x)) names = true -> ~ In s names.
Proof.
  intros H Hin. rewrite forallb_forall in H. specialize (H s Hin).
  rewrite String.eqb_refl in H. discriminate.
Qed.

Lemma no_separator_of_find (s : string) : find "<" s = None -> no_separator s.
Proof. apply find_None. Qed.

(** With no option, the solver is called with the fixed settings. *)
Lemma solver_settings_fixed_witness :
  In (call_solve_homomorphism_problem sample_graphs
        (called_params (fst (main (plain_world plain) sample_argv)) sample_params))
     (fst (main (plain_world plain) sample_argv)) /\
  injectivity (called_params (fst (main (plain_world plain) sample_argv)) sample_params)
    = Injective /\
  induced (called_params (fst (main (plain_world plain) sample_argv)) sample_params)
    = true.
Proof.
  assert (H : In (call_solve_homomorphism_problem sample_graphs
        (called_params (fst (main (plain_world plain) sample_argv)) sample_params))
     (fst (main (plain_world plain) sample_argv))) by in_trace.
  split; [exact H |].
  exact (solver_settings_fixed (plain_world plain) sample_argv sample_graphs _ H).
Defined.

(** [--restarts bogus] is rejected with its message. *)
Lemma unknown_policy_rejected_witness :
  exists msg,
    main (plain_world bogus_restarts) sample_argv = ([cerr msg], EXIT_FAILURE) /\
    snd (main (plain_world bogus_restarts) sample_argv) <> 0%Z.
Proof.
  destruct (unknown_policy_rejected (plain_world bogus_restarts) sample_argv
              bogus_restarts eq_refl eq_refl)
    as (msg & Hm & Hnz & _); try discriminate.
  - left. exists "bogus". split; [reflexivity |].
    apply not_in_names. reflexivity.
  - exists msg. split; [exact Hm | exact Hnz].
Defined.

(** With [--help], the unknown policy is not looked at: [main] prints the
    help and returns zero.  Without the input files, it prints the usage
    line, which does not mention the policy. *)
Lemma unknown_policy_behind_help :
  command_line_parser (plain_world help_bogus_restarts) sample_argv
    = inr help_bogus_restarts /\
  opt_restarts help_bogus_restarts = Some "bogus" /\
  ~ In "bogus" restarts_policies /\
  main (plain_world help_bogus_restarts) sample_argv =
  ([cout "Usage: glasgow_bigraph_solver [options] pattern target"; cout "";
    cout "Program options"], 0%Z) /\
  opt_restarts (without_files bogus_restarts) = Some "bogus" /\
  main (plain_world (without_files bogus_restarts)) sample_argv =
  ([cout "Usage: glasgow_bigraph_solver [options] pattern target"], EXIT_FAILURE).
Proof.
  repeat split. apply not_in_names. reflexivity.
Qed.

(** A constraint without ['<'] is rejected with its message. *)
Lemma bad_less_than_rejected_witness :
  exists s,
    no_separator s /\
    main (plain_world bad_less_than) sample_argv =
    ([cerr ("Invalid pattern less-than constraint '" ++ s ++ "'")], EXIT_FAILURE).
Proof.
  destruct (bad_less_than_rejected (plain_world bad_less_than) sample_argv
              bad_less_than eq_refl eq_refl)
    as (s & Hin & Hno & Hm & _); try discriminate;
    try apply recognised_None.
  - exists "ab". split; [right; now left |].
    apply no_separator_of_find. reflexivity.
  - exists s. split; [exact Hno | exact Hm].
Defined.

(** With [--help], the constraints are not looked at and [main] returns
    zero; behind an unknown restart policy, the message is about the
    policy and not about the constraint. *)
Lemma bad_less_than_behind_earlier_checks :
  (In "ab" (pattern_less_thans help_bad_less_than) /\ no_separator "ab" /\
   main (plain_world help_bad_less_than) sample_argv =
   ([cout "Usage: glasgow_bigraph_solver [options] pattern target"; cout "";
     cout "Program options"], 0%Z)) /\
  (In "ab" (pattern_less_thans bogus_restarts_bad_less_than) /\
   opt_help bogus_restarts_bad_less_than = false /\
   main (plain_world bogus_restarts_bad_less_than) sample_argv =
   ([cerr "Unknown restarts policy 'bogus'"], EXIT_FAILURE)).
Proof.
  repeat split; try (now left); apply no_separator_of_find; reflexivity.
Qed.

(** An expired timeout: status [aborted], exit status zero. *)
Lemma timeout_is_not_an_error_witness :
  In (cout "status = aborted")
     (fst (main (sample_world plain aborted_run (inr (sample_result [] 0))) sample_argv)) /\
  snd (main (sample_world plain aborted_run (inr (sample_result [] 0))) sample_argv) = 0%Z.
Proof.
  assert (H : In (call_solve_homomorphism_problem sample_graphs
      (called_params
         (fst (main (sample_world plain aborted_run (inr (sample_result [] 0))) sample_argv))
         sample_params))
     (fst (main (sample_world plain aborted_run (inr (sample_result [] 0))) sample_argv)))
    by in_trace.
  destruct (timeout_is_not_an_error _ _ _ _ aborted_run (sample_result [] 0)
              H eq_refl eq_refl) as (Hs & _ & _ & _ & _ & Hz & _).
  split; [exact Hs | exact Hz].
Defined.

(** One pipe only: the lackey diagnostic and [EXIT_FAILURE]. *)
Lemma lackey_needs_both_pipes_witness :
  fst (main (plain_world one_pipe) sample_argv) =
  [cerr "Must specify both of --send-to-lackey and --receive-from-lackey"] /\
  snd (main (plain_world one_pipe) sample_argv) = EXIT_FAILURE.
Proof.
  destruct (lackey_needs_both_pipes (plain_world one_pipe) sample_argv one_pipe eq_refl)
    as [H _].
  destruct (H eq_refl eq_refl) as (Hs & _ & _ & _ & _ & Hf).
  split; [| exact Hs].
  apply Hf; try discriminate; try apply recognised_None. constructor.
Defined.

(** With [--help] and one pipe only, [main] prints the help and returns
    zero. *)
Lemma one_pipe_behind_help :
  command_line_parser (plain_world help_one_pipe) sample_argv = inr help_one_pipe /\
  opt_send_to_lackey help_one_pipe = Some "to" /\
  opt_receive_from_lackey help_one_pipe = None /\
  main (plain_world help_one_pipe) sample_argv =
  ([cout "Usage: glasgow_bigraph_solver [options] pattern target"; cout "";
    cout "Program options"], 0%Z).
Proof. repeat split. Qed.

(** [--parallel] alone: the timed schedule with its defaults. *)
Lemma default_restarts_schedule_witness :
  restarts_schedule
    (called_params (fst (main (plain_world parallel_only) sample_argv)) sample_params)
  = Some (TimedRestartsSchedule 100 100).
Proof.
  assert (H : In (call_solve_homomorphism_problem sample_graphs
      (called_params (fst (main (plain_world parallel_only) sample_argv)) sample_params))
     (fst (main (plain_world parallel_only) sample_argv))) by in_trace.
  destruct (default_restarts_schedule (plain_world parallel_only) sample_argv
              parallel_only sample_graphs _ eq_refl eq_refl H) as [_ Hs].
  rewrite Hs. reflexivity.
Defined.



(** * More about the driver *)

(** ** Pieces that never return *)

Lemma never_returns_ret {A : Type} (a : A) : never_returns (ret a).
Proof. intros st. discriminate. Qed.

Lemma never_returns_throw {A : Type} (x : exception) : never_returns (@throw A x).
Proof. intros st. discriminate. Qed.

Lemma never_returns_lift {A : Type} (r : exception + A) : never_returns (lift r).
Proof. destruct r; intros st; discriminate. Qed.

Lemma never_returns_as {A : Type} (o : option A) : never_returns (as_ o).
Proof. destruct o; intros st; discriminate. Qed.

Lemma never_returns_emit (e : event) : never_returns (emit e).
Proof. intros st. discriminate. Qed.

Lemma never_returns_bind {A B : Type} (m : program A) (k : A -> program B) :
  never_returns m -> (forall a, never_returns (k a)) -> never_returns (bind m k).
Proof.
  intros Hm Hk st. rewrite snd_bind.
  destruct (snd m) as [a | st' | x] eqn:Hs.
  - apply Hk.
  - exfalso. now apply (Hm st').
  - discriminate.
Qed.

Lemma never_returns_when (c : bool) (m : program unit) :
  never_returns m -> never_returns (when c m).
Proof. destruct c; cbn [when]; [trivial | intros _; apply never_returns_ret]. Qed.

Ltac stays :=
  repeat first
    [ apply never_returns_bind; [| intros ? ]
    | apply never_returns_emit
    | apply never_returns_ret
    | apply never_returns_throw
    | apply never_returns_lift
    | apply never_returns_as
    | apply never_returns_when
    | match goal with
      | |- never_returns (if ?c then _ else _) => destruct c
      | |- never_returns (match ?o with _ => _ end) => destruct o
      | |- never_returns (let _ := _ in _) => cbv zeta
      end ].

Section RunSteps.

Variable w : World.

Lemma banner_never_returns argv : never_returns (banner w argv).
Proof. unfold banner. stays. Qed.

Lemma read_graphs_never_returns ov : never_returns (read_graphs w ov).
Proof. unfold read_graphs, open_file. stays. Qed.

Lemma configure_lackey_never_returns ov g p :
  never_returns (configure_lackey w ov g p).
Proof. unfold configure_lackey. stays. Qed.

Lemma configure_symmetries_never_returns argv0 ov g p :
  never_returns (configure_symmetries w argv0 ov g p).
Proof. unfold configure_symmetries. stays. Qed.

(** A step that throws ends the whole sequence there. *)
Lemma bind_throws {A B : Type} (m : program A) (k : A -> program B) x :
  snd m = Throw x -> bind m k = (fst m, Throw x).
Proof. destruct m as [t o]. cbn. now intros ->. Qed.

Lemma bind_continues {A B : Type} (m : program A) (k : A -> program B) a :
  snd m = Continue a ->
  bind m k = ((fst m ++ fst (k a))%list, snd (k a)).
Proof. destruct m as [t o]. cbn. intros ->. now destruct (k a). Qed.

(** Either every step before the solver goes through, and [run] ends with
    the call and the report, or one of them throws and the solver is never
    called. *)
Lemma run_cases argv ov p :
  (exists g p1 p',
     snd (read_graphs w ov) = Continue g /\
     snd (configure_lackey w ov g p) = Continue p1 /\
     snd (configure_symmetries w (nth 0 argv "") ov g (stamped w ov p1))
       = Continue p' /\
     run w argv ov p =
     ((fst (banner w argv) ++ fst (read_graphs w ov)
       ++ fst (configure_lackey w ov g p)
       ++ fst (configure_symmetries w (nth 0 argv "") ov g (stamped w ov p1))
       ++ fst (solve_and_report w ov g p'))%list,
      snd (solve_and_report w ov g p'))) \/
  (exists x, snd (run w argv ov p) = Throw x /\ avoids is_solve (run w argv ov p)).
Proof.
  unfold run. cbv zeta.
  destruct (snd (banner w argv)) as [[] | st | x] eqn:Hb.
  2:{ exfalso. now apply (banner_never_returns argv st). }
  2:{ right. exists x. rewrite (bind_throws _ _ _ Hb). split; [reflexivity |].
      now apply banner_avoids. }
  rewrite (bind_continues _ _ _ Hb).
  destruct (snd (read_graphs w ov)) as [g | st | x] eqn:Hg.
  2:{ exfalso. now apply (read_graphs_never_returns ov st). }
  2:{ right. exists x. rewrite (bind_throws _ _ _ Hg). split; [reflexivity |].
      intros e He. cbn [fst] in He. apply in_app_or in He. destruct He as [He | He].
      - now apply (banner_avoids w is_solve argv) in He.
      - now apply (read_graphs_avoids w is_solve ov) in He. }
  rewrite (bind_continues _ _ _ Hg).
  destruct (snd (configure_lackey w ov g p)) as [p1 | st | x] eqn:Hl.
  2:{ exfalso. now apply (configure_lackey_never_returns ov g p st). }
  2:{ right. exists x. rewrite (bind_throws _ _ _ Hl). split; [reflexivity |].
      intros e He. cbn [fst] in He.
      apply in_app_or in He. destruct He as [He | He];
        [now apply (banner_avoids w is_solve argv) in He |].
      apply in_app_or in He. destruct He as [He | He];
        [now apply (read_graphs_avoids w is_solve ov) in He |].
      now apply (configure_lackey_avoids w ov g p) in He. }
  rewrite (bind_continues _ _ _ Hl).
  change (set_start_time _ _) with (stamped w ov p1).
  destruct (snd (configure_symmetries w (nth 0 argv "") ov g (stamped w ov p1)))
    as [p' | st | x] eqn:Hs.
  2:{ exfalso. exact (configure_symmetries_never_returns _ _ _ _ _ Hs). }
  2:{ right. exists x. rewrite (bind_throws _ _ _ Hs). split; [reflexivity |].
      intros e He. cbn [fst] in He.
      apply in_app_or in He. destruct He as [He | He];
        [now apply (banner_avoids w is_solve argv) in He |].
      apply in_app_or in He. destruct He as [He | He];
        [now apply (read_graphs_avoids w is_solve ov) in He |].
      apply in_app_or in He. destruct He as [He | He];
        [now apply (configure_lackey_avoids w ov g p) in He |].
      now apply (configure_symmetries_avoids w is_solve) in He. }
  rewrite (bind_continues _ _ _ Hs).
  left. exists g, p1, p'. repeat split; trivial.
Qed.

(** What each step leaves in the parameters when it goes through. *)
Lemma read_graphs_continue ov g :
  snd (read_graphs w ov) = Continue g ->
  exists pf tf,
    opt_pattern_file ov = Some pf /\ opt_target_file ov = Some tf /\
    ifstream_good w pf = true /\ ifstream_good w tf = true /\
    read_pattern_bigraph w pf = inr (fst g) /\
    read_target_bigraph w tf = inr (snd g) /\
    In (cout ("pattern_file = " ++ pf)) (fst (read_graphs w ov)) /\
    In (cout ("target_file = " ++ tf)) (fst (read_graphs w ov)).
Proof.
  unfold read_graphs, open_file.
  destruct (opt_pattern_file ov) as [pf |]; [| discriminate].
  destruct (opt_target_file ov) as [tf |]; [| discriminate].
  cbn [as_]. rewrite !(bind_silent (ret _) _ _ eq_refl).
  destruct (ifstream_good w pf) eqn:Hp; [| discriminate].
  destruct (ifstream_good w tf) eqn:Ht; [| discriminate].
  destruct (read_pattern_bigraph w pf) as [x | gp] eqn:Hrp,
    (read_target_bigraph w tf) as [y | gt] eqn:Hrt,
    (make_pair_second_first w);
    cbn [bind emit when negb ret lift throw fst snd app];
    try discriminate; intros [= <-]; exists pf, tf; repeat split; trivial;
    cbn [In]; tauto.
Qed.

Lemma configure_lackey_continue ov g p p' :
  snd (configure_lackey w ov g p) = Continue p' ->
  (exists s r l, opt_send_to_lackey ov = Some s /\ opt_receive_from_lackey ov = Some r /\
     Lackey_constructor w s r (fst g) (snd g) = inr l /\ p' = set_lackey p l) \/
  ((opt_send_to_lackey ov = None \/ opt_receive_from_lackey ov = None) /\ p' = p).
Proof.
  unfold configure_lackey.
  destruct (opt_send_to_lackey ov) as [s |], (opt_receive_from_lackey ov) as [r |];
    cbn [count andb]; try (cbn; intros [= <-]; right; split; auto; fail).
  cbn [as_]. rewrite !(bind_silent (ret _) _ _ eq_refl). rewrite !snd_bind. cbn [emit snd].
  destruct (Lackey_constructor w s r (fst g) (snd g)) as [x | l] eqn:Hl;
    cbn; [discriminate |].
  intros [= <-]. left. exists s, r, l. repeat split; trivial.
Qed.

Lemma configure_symmetries_continue argv0 ov g p p' :
  snd (configure_symmetries w argv0 ov g p) = Continue p' ->
  (opt_pattern_symmetries ov = true /\
   exists r,
     find_symmetries w argv0 (fst g) (pattern_less_constraints p)
       (match opt_pattern_automorphism_group_size ov with
        | Some size => size | None => "1" end) = inr r /\
     p' = set_pattern_less_constraints p (fst r) /\
     In (cout ("pattern_automorphism_group_size = " ++ snd r))
        (fst (configure_symmetries w argv0 ov g p))) \/
  (opt_pattern_symmetries ov = false /\ p' = p /\
   forall size, opt_pattern_automorphism_group_size ov = Some size ->
     In (cout ("pattern_automorphism_group_size = " ++ size))
        (fst (configure_symmetries w argv0 ov g p))).
Proof.
  unfold configure_symmetries.
  destruct (opt_pattern_symmetries ov).
  - rewrite !snd_bind. cbn [emit snd].
    destruct (find_symmetries w argv0 (fst g) (pattern_less_constraints p) _)
      as [x | r] eqn:Hf; cbn [lift throw ret snd]; [discriminate |].
    intros [= <-]. left. split; [reflexivity |]. exists r.
    split; [reflexivity |]. split; [reflexivity |].
    cbn. right. right. now left.
  - destruct (opt_pattern_automorphism_group_size ov) as [size |];
      cbn; intros [= <-]; right; (split; [reflexivity |]); (split; [reflexivity |]).
    + intros size' [= <-]. now left.
    + intros size' [=].
Qed.

(** The solver throws: the enumerated mappings are printed, then nothing. *)
Lemma solve_and_report_throws ov g p r x :
  solve_homomorphism_problem w g p = (r, inl x) ->
  solve_and_report w ov g p =
  ((call_solve_homomorphism_problem g p
    :: (if enumerate_callback p
        then map (fun m => cout (mapping_line g m)) (enumerated r) else []))%list,
   Throw x).
Proof.
  intros H. unfold solve_and_report. rewrite H. cbn [fst snd lift].
  rewrite emit_all.
  destruct (enumerate_callback p); cbn [bind emit when ret throw app];
    rewrite ?app_nil_r; reflexivity.
Qed.

Lemma solve_and_report_calls_once ov g p :
  solver_calls (fst (solve_and_report w ov g p)) = 1%nat.
Proof.
  unfold solver_calls.
  destruct (solve_homomorphism_problem w g p) as [r [x | result]] eqn:Hs.
  - rewrite (solve_and_report_throws ov g p r x Hs). cbn [fst filter is_solve length].
    destruct (enumerate_callback p); [| reflexivity].
    induction (enumerated r) as [| m l IH]; [reflexivity | exact IH].
  - assert (Ha : forall l, Forall (fun e => is_solve e = false) l ->
                 filter is_solve l = []).
    { induction l as [| e l IH]; [reflexivity |].
      intros Hl. inversion Hl; subst. cbn. rewrite H1. now apply IH. }
    rewrite (solve_and_report_returns w ov g p r result Hs).
    cbn [fst filter is_solve length]. rewrite Ha; [reflexivity |].
    rewrite !Forall_app. repeat split;
      repeat match goal with
      | |- Forall _ (if ?c then _ else _) => destruct c
      | |- Forall _ (map _ _) => apply Forall_map, Forall_forall; intros; reflexivity
      | |- Forall _ (_ :: _) => constructor; [reflexivity |]
      | |- Forall _ [] => constructor
      end.
Qed.

(** ** What each configuration step leaves in the parameters *)

Lemma set_value_ordering_heuristic_same p :
  set_value_ordering_heuristic p (value_ordering_heuristic p) = p.
Proof. now destruct p. Qed.

Lemma set_pattern_less_constraints_same p :
  set_pattern_less_constraints p (pattern_less_constraints p) = p.
Proof. now destruct p. Qed.

Lemma configure_restarts_continue ov p p' :
  configure_restarts w ov p = ([], Continue p') ->
  exists sched,
    p' = set_restarts_schedule p sched /\
    match opt_restarts ov with
    | None =>
        sched =
        (if count_solutions p then NoRestartsSchedule
         else if opt_parallel ov then
           TimedRestartsSchedule (Timed_default_duration (restarts_defaults w))
             (Timed_default_minimum_backtracks (restarts_defaults w))
         else LubyRestartsSchedule (Luby_default_multiplier (restarts_defaults w)))
    | Some s =>
        (s = "luby" /\
         sched = LubyRestartsSchedule
                   (match opt_luby_constant ov with
                    | Some c => to_unsigned_long_long c
                    | None => Luby_default_multiplier (restarts_defaults w)
                    end)) \/
        (s = "geometric" /\
         sched = GeometricRestartsSchedule
                   (match opt_geometric_constant ov with
                    | Some c => c
                    | None => Geometric_default_initial_value (restarts_defaults w)
                    end)
                   (match opt_geometric_multiplier ov with
                    | Some c => c
                    | None => Geometric_default_multiplier (restarts_defaults w)
                    end)) \/
        (s = "timed" /\
         sched = TimedRestartsSchedule
                   (match opt_restart_interval ov with
                    | Some c => c
                    | None => Timed_default_duration (restarts_defaults w)
                    end)
                   (match opt_restart_minimum ov with
                    | Some c => to_unsigned_long_long c
                    | None => Timed_default_minimum_backtracks (restarts_defaults w)
                    end)) \/
        (s = "none" /\ sched = NoRestartsSchedule)
    end.
Proof.
  destruct (opt_restarts ov) as [s |] eqn:Hs.
  - destruct (in_dec string_dec s restarts_policies) as [Hin | Hn].
    + unfold configure_restarts. rewrite Hs. cbn [count as_].
      rewrite (bind_silent (ret s) _ s eq_refl).
      cbn in Hin. destruct Hin as [<- | [<- | [<- | [<- | []]]]]; cbn;
        intros [= <-]; eexists; (split; [reflexivity |]); tauto.
    + rewrite (configure_restarts_unknown w ov p s Hs Hn). discriminate.
  - rewrite (configure_restarts_default w ov p Hs). intros [= <-].
    eexists. split; reflexivity.
Qed.

Lemma configure_value_ordering_continue ov p p' :
  configure_value_ordering ov p = ([], Continue p') ->
  match opt_value_ordering ov with
  | None => p' = p
  | Some s =>
      exists v, p' = set_value_ordering_heuristic p v /\
        ((s = "biased" /\ v = Biased) \/ (s = "degree" /\ v = Degree) \/
         (s = "antidegree" /\ v = AntiDegree) \/ (s = "random" /\ v = Random))
  end.
Proof.
  destruct (opt_value_ordering ov) as [s |] eqn:Hs.
  - destruct (in_dec string_dec s value_ordering_heuristics) as [Hin | Hn].
    + unfold configure_value_ordering. rewrite Hs. cbn [count as_].
      rewrite (bind_silent (ret s) _ s eq_refl).
      cbn in Hin. destruct Hin as [<- | [<- | [<- | [<- | []]]]]; cbn;
        intros [= <-]; eexists; (split; [reflexivity |]); tauto.
    + rewrite (configure_value_ordering_unknown ov p s Hs Hn). discriminate.
  - unfold configure_value_ordering. rewrite Hs. cbn. now intros [= <-].
Qed.

Lemma configure_less_thans_continue l : forall p p',
  configure_less_thans l p = ([], Continue p') ->
  p' = set_pattern_less_constraints p
         (pattern_less_constraints p ++ map less_than_pair l)%list.
Proof.
  induction l as [| s l IH]; intros p p'; cbn [configure_less_thans map].
  - intros [= <-]. now rewrite app_nil_r, set_pattern_less_constraints_same.
  - unfold less_than_pair at 1. destruct (find "<" s) as [n |]; [| discriminate].
    intros H. apply IH in H. rewrite H. cbn [pattern_less_constraints set_pattern_less_constraints].
    now rewrite <- app_assoc.
Qed.

(** The steps of lines 141-238 when all of them go through. *)
Lemma configure_continue ov p :
  configure w ov = ([], Continue p) ->
  exists p1 p2,
    configure_restarts w ov (configure_fixed w ov) = ([], Continue p1) /\
    configure_value_ordering ov p1 = ([], Continue p2) /\
    configure_less_thans (pattern_less_thans ov) p2 = ([], Continue p) /\
    xorb (count (opt_send_to_lackey ov)) (count (opt_receive_from_lackey ov)) = false.
Proof.
  unfold configure. intros H.
  destruct (configure_restarts_inv w ov (configure_fixed w ov))
    as [(sched & Hr) | (s & _ & _ & Hr)].
  2:{ rewrite (bind_stops _ _ _ _ Hr) in H. discriminate. }
  rewrite (bind_silent _ _ _ Hr) in H.
  destruct (configure_value_ordering_inv ov (set_restarts_schedule (configure_fixed w ov) sched))
    as [(p2 & Hv & _) | (s & _ & _ & Hv)].
  2:{ rewrite (bind_stops _ _ _ _ Hv) in H. discriminate. }
  rewrite (bind_silent _ _ _ Hv) in H.
  destruct (configure_less_thans_inv (pattern_less_thans ov) p2)
    as [(p3 & Hl & _) | (s & _ & _ & Hl)].
  2:{ rewrite (bind_stops _ _ _ _ Hl) in H. discriminate. }
  rewrite (bind_silent _ _ _ Hl) in H.
  destruct (xorb (count (opt_send_to_lackey ov)) (count (opt_receive_from_lackey ov)));
    cbn in H; [discriminate |].
  inversion H; subst p3. eexists _, p2. repeat split; eauto.
Qed.

(** Every check of lines 159-238 passes: nothing is printed. *)
Lemma configure_passes ov :
  recognised restarts_policies (opt_restarts ov) ->
  recognised value_ordering_heuristics (opt_value_ordering ov) ->
  Forall (fun s => ~ no_separator s) (pattern_less_thans ov) ->
  xorb (count (opt_send_to_lackey ov)) (count (opt_receive_from_lackey ov)) = false ->
  exists p, configure w ov = ([], Continue p).
Proof.
  intros Hr Hv Hl Hx. pose proof (configure_spec w ov) as H.
  destruct (configure w ov) as [t o]. cbn [fst snd] in H.
  inversion H; subst t o.
  - now exists p.
  - exfalso. match goal with H : ~ In _ restarts_policies |- _ => apply H end. now apply Hr.
  - exfalso. match goal with H : ~ In _ value_ordering_heuristics |- _ => apply H end.
    now apply Hv.
  - exfalso. rewrite Forall_forall in Hl.
    match goal with H : no_separator ?s |- _ => now apply (Hl s) end.
  - congruence.
Qed.

(** ** [main] from the first line to the call of the solver *)

(** When the solver is called, every step before it has gone through, and
    the trace is the traces of these steps, one after the other. *)
Lemma solver_call_shape argv g p :
  In (call_solve_homomorphism_problem g p) (fst (main w argv)) ->
  exists ov p0 p1,
    command_line_parser w argv = inr ov /\
    opt_help ov = false /\
    configure w ov = ([], Continue p0) /\
    snd (read_graphs w ov) = Continue g /\
    snd (configure_lackey w ov g p0) = Continue p1 /\
    snd (configure_symmetries w (nth 0 argv "") ov g (stamped w ov p1))
      = Continue p /\
    main_try w argv =
    ((fst (banner w argv) ++ fst (read_graphs w ov)
      ++ fst (configure_lackey w ov g p0)
      ++ fst (configure_symmetries w (nth 0 argv "") ov g (stamped w ov p1))
      ++ fst (solve_and_report w ov g p))%list,
     snd (solve_and_report w ov g p)).
Proof.
  intros H. apply main_of_try in H; [| discriminate].
  pose proof (main_try_cases w argv) as Hc.
  destruct (command_line_parser w argv) as [e | ov].
  { rewrite Hc in H. contradiction. }
  destruct (opt_help ov) eqn:Hh.
  { rewrite Hc in H. cbn in H. intuition discriminate. }
  destruct (negb (count (opt_pattern_file ov)) || negb (count (opt_target_file ov))).
  { rewrite Hc in H. cbn in H. intuition discriminate. }
  rewrite Hc in H.
  pose proof (configure_spec w ov) as Hv.
  destruct (configure w ov) as [t o] eqn:Hcfg. cbn [fst snd] in Hv.
  inversion Hv; subst t o;
    try (cbn in H; intuition discriminate).
  rewrite (bind_silent _ _ p0 eq_refl) in H, Hc.
  destruct (run_cases argv ov p0) as [(g' & p1 & p' & Hg & Hl & Hs & Hrun) | (x & _ & Ha)].
  2:{ apply Ha in H. discriminate. }
  rewrite Hrun in H. cbn [fst] in H.
  apply in_app_or in H. destruct H as [H | H];
    [now apply (banner_avoids w is_solve argv) in H |].
  apply in_app_or in H. destruct H as [H | H];
    [now apply (read_graphs_avoids w is_solve ov) in H |].
  apply in_app_or in H. destruct H as [H | H];
    [now apply (configure_lackey_avoids w ov g' p0) in H |].
  apply in_app_or in H. destruct H as [H | H];
    [now apply (configure_symmetries_avoids w is_solve) in H |].
  apply solve_and_report_call in H. destruct H as [-> ->].
  exists ov, p0, p1. rewrite Hc, Hrun. repeat split; trivial.
Qed.

Lemma avoids_no_calls {A : Type} (m : program A) :
  avoids is_solve m -> solver_calls (fst m) = 0%nat.
Proof.
  unfold avoids, solver_calls. induction (fst m) as [| e t IH]; intros H; [reflexivity |].
  cbn. rewrite (H e (or_introl eq_refl)). apply IH. intros e' He'. apply H. now right.
Qed.

Lemma solver_calls_app (t t' : list event) :
  solver_calls (t ++ t') = (solver_calls t + solver_calls t')%nat.
Proof. unfold solver_calls. now rewrite filter_app, length_app. Qed.

(** How [main] ends, by the way the [try] block ends. *)
Lemma main_of_throw argv t x :
  main_try w argv = (t, Throw x) ->
  main w argv =
  ((t ++ cerr ("Error: " ++ what x)
      :: match x with
         | po_error _ => [cerr ("Try " ++ nth 0 argv "" ++ " --help")]
         | _ => []
         end)%list,
   EXIT_FAILURE).
Proof. unfold main. intros ->. now destruct x. Qed.

(** All the ways [main] can go. *)
Lemma main_try_paths argv :
  (exists x, main_try w argv = ([], Throw x) /\ command_line_parser w argv = inl x) \/
  (exists ov, command_line_parser w argv = inr ov /\
     ((opt_help ov = true /\
       main_try w argv =
       ([cout (usage (nth 0 argv "")); cout ""; cout (display_options w)],
        Return EXIT_SUCCESS)) \/
      (opt_help ov = false /\ exists line,
         main_try w argv = ([line], Return EXIT_FAILURE) /\ is_solve line = false) \/
      (opt_help ov = false /\ exists x,
         snd (main_try w argv) = Throw x /\ avoids is_solve (main_try w argv)) \/
      (opt_help ov = false /\ exists g p prefix,
         Forall (fun e => is_solve e = false) prefix /\
         main_try w argv =
         ((prefix ++ fst (solve_and_report w ov g p))%list,
          snd (solve_and_report w ov g p))))).
Proof.
  pose proof (main_try_cases w argv) as Hc.
  destruct (command_line_parser w argv) as [x | ov].
  { left. now exists x. }
  right. exists ov. split; [reflexivity |].
  destruct (opt_help ov); [left; now split | right].
  destruct (negb (count (opt_pattern_file ov)) || negb (count (opt_target_file ov))).
  { left. split; [reflexivity |]. eexists. split; [exact Hc | reflexivity]. }
  rewrite Hc. pose proof (configure_spec w ov) as Hv.
  destruct (configure w ov) as [t o]. cbn [fst snd] in Hv.
  inversion Hv; subst t o;
    try (left; split; [reflexivity |]; eexists; split; reflexivity).
  right. rewrite (bind_silent _ _ p eq_refl).
  destruct (run_cases argv ov p) as [(g & p1 & p' & Hg & Hl & Hs & Hrun) | (x & Hx & Ha)].
  - right. split; [reflexivity |].
    exists g, p', (fst (banner w argv) ++ fst (read_graphs w ov)
      ++ fst (configure_lackey w ov g p)
      ++ fst (configure_symmetries w (nth 0 argv "") ov g (stamped w ov p1)))%list.
    split.
    + rewrite !Forall_app. repeat split; apply Forall_forall; intros e He.
      * now apply (banner_avoids w is_solve argv) in He.
      * now apply (read_graphs_avoids w is_solve ov) in He.
      * now apply (configure_lackey_avoids w ov g p) in He.
      * now apply (configure_symmetries_avoids w is_solve) in He.
    + rewrite Hrun. now rewrite <- !app_assoc.
  - left. split; [reflexivity |]. now exists x.
Qed.

End RunSteps.
(** ** Splitting a constraint at its first ['<'] *)

Lemma substring_whole (s : string) : substring 0 (String.length s) s = s.
Proof. induction s as [| a s IH]; cbn; [reflexivity | now rewrite IH]. Qed.

Lemma substr_from_tail (a : ascii) (s : string) (n : nat) :
  substr_from (S n) (String a s) = substr_from n s.
Proof. reflexivity. Qed.

Lemma substr_from_zero (s : string) : substr_from 0 s = s.
Proof. unfold substr_from. rewrite Nat.sub_0_r. apply substring_whole. Qed.

Lemma find_splits (c : ascii) (s : string) : forall n,
  find c s = Some n ->
  substring 0 n s ++ String c (substr_from (n + 1) s) = s /\
  ~ In c (list_ascii_of_string (substring 0 n s)).
Proof.
  induction s as [| a s IH]; intros n H; cbn [find] in H; [discriminate |].
  destruct (Ascii.eqb_spec a c) as [-> | Hne].
  - inversion H; subst n. cbn [Nat.add]. rewrite substr_from_tail, substr_from_zero.
    cbn. split; [reflexivity | tauto].
  - destruct (find c s) as [m |]; [| discriminate]. inversion H; subst n.
    destruct (IH m eq_refl) as [Heq Hno].
    cbn [Nat.add]. rewrite substr_from_tail. cbn [substring append list_ascii_of_string].
    rewrite Heq. split; [reflexivity |].
    intros [Hin | Hin]; [now apply Hne | now apply Hno].
Qed.

Lemma find_first (c : ascii) (a b : string) :
  ~ In c (list_ascii_of_string a) ->
  find c (a ++ String c b) = Some (String.length a).
Proof.
  induction a as [| x a IH]; cbn; intros H.
  - now rewrite Ascii.eqb_refl.
  - destruct (Ascii.eqb_spec x c) as [-> | _]; [exfalso; apply H; now left |].
    rewrite IH; [reflexivity |]. intros Hin. apply H. now right.
Qed.

Lemma substring_prefix (a b : string) :
  substring 0 (String.length a) (a ++ b) = a.
Proof.
  induction a as [| x a IH]; cbn.
  - now destruct b.
  - now rewrite IH.
Qed.

Lemma substr_from_suffix (a : string) (c : ascii) (b : string) :
  substr_from (String.length a + 1) (a ++ String c b) = b.
Proof.
  induction a as [| x a IH].
  - cbn [String.length Nat.add append]. rewrite substr_from_tail. apply substr_from_zero.
  - cbn [String.length Nat.add append]. rewrite substr_from_tail. exact IH.
Qed.

Lemma less_than_pair_splits (s : string) :
  ~ no_separator s ->
  s = fst (less_than_pair s) ++ "<" ++ snd (less_than_pair s) /\
  no_separator (fst (less_than_pair s)).
Proof.
  intros H. unfold less_than_pair.
  destruct (find "<" s) as [n |] eqn:Hf.
  - destruct (find_splits _ _ _ Hf) as [Heq Hno]. cbn [fst snd]. split.
    + symmetry. exact Heq.
    + exact Hno.
  - exfalso. apply H. now apply find_None.
Qed.

(** Unpacks a call of the solver into what every step before it did. *)
Ltac unpack_call H Hp :=
  let ov' := fresh "ov'" in
  let p0 := fresh "p0" in let p1 := fresh "p1" in
  let q1 := fresh "q1" in let q2 := fresh "q2" in
  let Hp' := fresh "Hp'" in
  apply solver_call_shape in H;
  destruct H as (ov' & p0 & p1 & Hp' & Hhelp & Hcfg & Hgraphs & Hlackey & Hsym & Htry);
  rewrite Hp in Hp'; inversion Hp'; subst ov'; clear Hp';
  pose proof Hcfg as Hsteps;
  apply configure_continue in Hsteps;
  destruct Hsteps as (q1 & q2 & Hrestarts & Hordering & Hless & Hxor);
  pose proof Hless as Hall;
  apply configure_restarts_continue in Hrestarts;
  apply configure_value_ordering_continue in Hordering;
  apply configure_less_thans_continue in Hless;
  apply configure_lackey_continue in Hlackey;
  apply configure_symmetries_continue in Hsym.

Lemma banner_trace (w : World) (argv : list string) :
  banner w argv =
  ((match gethostname w with
    | Some hostname => [cout ("hostname = " ++ hostname)]
    | None => []
    end
    ++ [cout ("commandline =" ++ String.concat "" (map (fun a => (" " ++ a)%string) argv));
        cout ("started_at = " ++ started_at w)])%list,
   Continue tt).
Proof. unfold banner. now destruct (gethostname w). Qed.

(** [main] after the checks of lines 127-238. *)
Lemma main_try_run (w : World) (argv : list string) (ov : variables_map)
    (p : HomomorphismParams) :
  command_line_parser w argv = inr ov ->
  opt_help ov = false ->
  opt_pattern_file ov <> None -> opt_target_file ov <> None ->
  configure w ov = ([], Continue p) ->
  main_try w argv = run w argv ov p.
Proof.
  intros Hp Hh Hf1 Hf2 Hc. pose proof (main_try_cases w argv) as H.
  rewrite Hp, Hh in H.
  destruct (opt_pattern_file ov); [| congruence].
  destruct (opt_target_file ov); [| congruence].
  cbn in H. now rewrite H, (bind_silent _ _ _ Hc).
Qed.

(** The parameters after lines 141-157, field by field. *)
Lemma configure_fixed_fields (w : World) (ov : variables_map) :
  injectivity (configure_fixed w ov) = Injective /\
  induced (configure_fixed w ov) = true /\
  bigraph (configure_fixed w ov) = true /\
  count_solutions (configure_fixed w ov)
    = (opt_count_solutions ov || opt_print_all_solutions ov) /\
  minimal_unsat_pattern (configure_fixed w ov) = false /\
  triggered_restarts (configure_fixed w ov)
    = (opt_triggered_restarts ov || opt_parallel ov) /\
  n_threads (configure_fixed w ov)
    = match opt_threads ov with
      | Some n => n
      | None => if opt_parallel ov then 0%Z
                else n_threads (default_HomomorphismParams w)
      end /\
  delay_thread_creation (configure_fixed w ov)
    = (if opt_delay_thread_creation ov || opt_parallel ov then true
       else delay_thread_creation (default_HomomorphismParams w)) /\
  value_ordering_heuristic (configure_fixed w ov)
    = value_ordering_heuristic (default_HomomorphismParams w) /\
  pattern_less_constraints (configure_fixed w ov)
    = pattern_less_constraints (default_HomomorphismParams w) /\
  lackey (configure_fixed w ov) = lackey (default_HomomorphismParams w) /\
  enumerate_callback (configure_fixed w ov)
    = enumerate_callback (default_HomomorphismParams w).
Proof.
  unfold configure_fixed.
  destruct (opt_threads ov), (opt_parallel ov), (opt_delay_thread_creation ov);
    repeat split.
Qed.

Ltac fields :=
  cbn [injectivity induced bigraph count_solutions minimal_unsat_pattern
       triggered_restarts n_threads delay_thread_creation restarts_schedule
       value_ordering_heuristic pattern_less_constraints lackey
       enumerate_callback timeout start_time
       set_restarts_schedule set_value_ordering_heuristic
       set_pattern_less_constraints set_lackey set_enumerate_callback
       set_timeout set_start_time] in *.

(** The parameters of every call of the solver, field by field. *)
Lemma solver_params_fields (w : World) (argv : list string) (ov : variables_map)
    (g : InputGraph * InputGraph) (p : HomomorphismParams) :
  command_line_parser w argv = inr ov ->
  In (call_solve_homomorphism_problem g p) (fst (main w argv)) ->
  (bigraph p = true /\ minimal_unsat_pattern p = false /\
   triggered_restarts p = (opt_triggered_restarts ov || opt_parallel ov) /\
   n_threads p
     = match opt_threads ov with
       | Some n => n
       | None => if opt_parallel ov then 0%Z
                 else n_threads (default_HomomorphismParams w)
       end /\
   delay_thread_creation p
     = (if opt_delay_thread_creation ov || opt_parallel ov then true
        else delay_thread_creation (default_HomomorphismParams w))) /\
  (exists sched, restarts_schedule p = Some sched /\
     match opt_restarts ov with
     | None =>
         sched =
         (if opt_count_solutions ov || opt_print_all_solutions ov
          then NoRestartsSchedule
          else if opt_parallel ov then
            TimedRestartsSchedule (Timed_default_duration (restarts_defaults w))
              (Timed_default_minimum_backtracks (restarts_defaults w))
          else LubyRestartsSchedule (Luby_default_multiplier (restarts_defaults w)))
     | Some s =>
         (s = "luby" /\
          sched = LubyRestartsSchedule
                    (match opt_luby_constant ov with
                     | Some c => to_unsigned_long_long c
                     | None => Luby_default_multiplier (restarts_defaults w)
                     end)) \/
         (s = "geometric" /\
          sched = GeometricRestartsSchedule
                    (match opt_geometric_constant ov with
                     | Some c => c
                     | None => Geometric_default_initial_value (restarts_defaults w)
                     end)
                    (match opt_geometric_multiplier ov with
                     | Some c => c
                     | None => Geometric_default_multiplier (restarts_defaults w)
                     end)) \/
         (s = "timed" /\
          sched = TimedRestartsSchedule
                    (match opt_restart_interval ov with
                     | Some c => c
                     | None => Timed_default_duration (restarts_defaults w)
                     end)
                    (match opt_restart_minimum ov with
                     | Some c => to_unsigned_long_long c
                     | None => Timed_default_minimum_backtracks (restarts_defaults w)
                     end)) \/
         (s = "none" /\ sched = NoRestartsSchedule)
     end) /\
  match opt_value_ordering ov with
  | None =>
      value_ordering_heuristic p
      = value_ordering_heuristic (default_HomomorphismParams w)
  | Some s =>
      (s = "biased" /\ value_ordering_heuristic p = Biased) \/
      (s = "degree" /\ value_ordering_heuristic p = Degree) \/
      (s = "antidegree" /\ value_ordering_heuristic p = AntiDegree) \/
      (s = "random" /\ value_ordering_heuristic p = Random)
  end /\
  (if opt_pattern_symmetries ov then
     exists r,
       find_symmetries w (nth 0 argv "") (fst g)
         (pattern_less_constraints (default_HomomorphismParams w)
          ++ map less_than_pair (pattern_less_thans ov))%list
         (match opt_pattern_automorphism_group_size ov with
          | Some size => size | None => "1" end) = inr r /\
       pattern_less_constraints p = fst r /\
       In (cout ("pattern_automorphism_group_size = " ++ snd r)) (fst (main w argv))
   else
     pattern_less_constraints p =
     (pattern_less_constraints (default_HomomorphismParams w)
      ++ map less_than_pair (pattern_less_thans ov))%list /\
     forall size, opt_pattern_automorphism_group_size ov = Some size ->
       In (cout ("pattern_automorphism_group_size = " ++ size)) (fst (main w argv))) /\
  match opt_send_to_lackey ov, opt_receive_from_lackey ov with
  | Some s, Some r =>
      exists l, Lackey_constructor w s r (fst g) (snd g) = inr l /\ lackey p = Some l
  | _, _ => lackey p = lackey (default_HomomorphismParams w)
  end /\
  (enumerate_callback p
     = (if opt_print_all_solutions ov then true
        else enumerate_callback (default_HomomorphismParams w)) /\
   timeout p = match opt_timeout ov with Some t => t | None => 0%Z end /\
   start_time p = steady_clock_now w).
Proof.
  intros Hp H.
  assert (Hmain : forall e, In e (fst (main_try w argv)) -> In e (fst (main w argv))).
  { intros e. unfold main.
    destruct (main_try w argv) as [t [[] | st | [m | m | m]]]; cbn [fst]; trivial;
      intros He; apply in_or_app; now left. }
  unpack_call H Hp. clear Hall Hcfg Hgraphs Hxor Hhelp Hp.
  destruct (configure_fixed_fields w ov)
    as (_ & _ & Hb & Hcount & Hm & Htr & Hn & Hd & Hdv & Hdc & Hdl & Hde).
  assert (Hsymtrace : forall e,
    In e (fst (configure_symmetries w (nth 0 argv "") ov g (stamped w ov p1))) ->
    In e (fst (main w argv))).
  { intros e He. apply Hmain. rewrite Htry. cbn [fst].
    apply in_or_app; right. apply in_or_app; right. apply in_or_app; right.
    apply in_or_app; now left. }
  clear Htry Hmain.
  destruct Hrestarts as (sched & -> & Hsched). rewrite Hcount in Hsched.
  destruct (opt_value_ordering ov) as [name |];
    [destruct Hordering as (v & -> & Hv) | subst q2];
    subst p0;
    (destruct Hlackey as [(s & r & l & Hsend & Hreceive & Hctor & ->) | (Hnone & ->)];
     [rewrite Hsend, Hreceive
     | assert (Hnolackey :
         match opt_send_to_lackey ov, opt_receive_from_lackey ov with
         | Some s, Some r =>
             exists l, Lackey_constructor w s r (fst g) (snd g) = inr l /\
                       lackey (default_HomomorphismParams w) = Some l
         | _, _ => lackey (default_HomomorphismParams w)
                   = lackey (default_HomomorphismParams w)
         end) by (destruct Hnone as [-> | ->];
                  [| destruct (opt_send_to_lackey ov)]; reflexivity)]);
    (destruct Hsym as [(Hyes & r' & Hfind & -> & Hline) | (Hno & -> & Hline)];
     [rewrite Hyes | rewrite Hno]);
    unfold stamped in *; destruct (opt_print_all_solutions ov); fields;
    rewrite ?Hb, ?Hm, ?Htr, ?Hn, ?Hd, ?Hdv, ?Hdc, ?Hdl, ?Hde in *.
  all: split; [repeat split |].
  all: split; [exists sched; split; [reflexivity | exact Hsched] |].
  all: split; [first [ exact Hv | reflexivity ] |].
  all: split;
    [ first [ exists r'; split; [exact Hfind |]; split; [reflexivity |];
              apply Hsymtrace, Hline
            | split; [reflexivity |]; intros size Hsize; apply Hsymtrace, Hline, Hsize ]
    |].
  all: split;
    [ first [ exists l; split; [exact Hctor | reflexivity] | exact Hnolackey ]
    | repeat split ].
Qed.



(** * Further properties of the driver *)

(** X1.  [--help] wins over everything else on the command line: [main]
    prints the usage line, an empty line and the option summary, and
    returns [EXIT_SUCCESS], whatever the other options are. *)
Theorem help_wins (w : World) (argv : list string) (ov : variables_map) :
  command_line_parser w argv = inr ov ->
  opt_help ov = true ->
  main w argv =
  ([cout ("Usage: " ++ nth 0 argv "" ++ " [options] pattern target"); cout "";
    cout (display_options w)], EXIT_SUCCESS).
Proof.
  intros Hp Hh. apply main_of_return.
  pose proof (main_try_cases w argv) as H. now rewrite Hp, Hh in H.
Qed.

(** X2.  Without [--help], a command line that parses and leaves out the
    pattern file or the target file gets the usage line on [cout] and
    [EXIT_FAILURE], and nothing else is looked at. *)
Theorem missing_input_file (w : World) (argv : list string) (ov : variables_map) :
  command_line_parser w argv = inr ov ->
  opt_help ov = false ->
  opt_pattern_file ov = None \/ opt_target_file ov = None ->
  main w argv =
  ([cout ("Usage: " ++ nth 0 argv "" ++ " [options] pattern target")], EXIT_FAILURE).
Proof.
  intros Hp Hh Hf. apply main_of_return.
  pose proof (main_try_cases w argv) as H. rewrite Hp, Hh in H.
  destruct Hf as [Hf | Hf]; rewrite Hf in H; cbn in H.
  - exact H.
  - now rewrite orb_true_r in H.
Qed.

(** X3.  A command line that the option parser rejects: [main] prints
    ["Error: "] and the reason on [cerr], a hint at [--help] when the
    exception is a [po::error], and returns [EXIT_FAILURE]. *)
Theorem parse_error_reported (w : World) (argv : list string) (x : exception) :
  command_line_parser w argv = inl x ->
  main w argv =
  (cerr ("Error: " ++ what x)
   :: match x with
      | po_error _ => [cerr ("Try " ++ nth 0 argv "" ++ " --help")]
      | _ => []
      end,
   EXIT_FAILURE).
Proof.
  intros Hp. pose proof (main_try_cases w argv) as H. rewrite Hp in H.
  now rewrite (main_of_throw w argv [] x H).
Qed.

(** X4.  The exit status is [EXIT_SUCCESS] or [EXIT_FAILURE], and it is
    [EXIT_SUCCESS] exactly when the command line parses and either
    [--help] is given or the solver has been called and has returned a
    result. *)
Theorem exit_status_meaning (w : World) (argv : list string) :
  (snd (main w argv) = EXIT_SUCCESS \/ snd (main w argv) = EXIT_FAILURE) /\
  (snd (main w argv) = EXIT_SUCCESS <->
   exists ov, command_line_parser w argv = inr ov /\
     (opt_help ov = true \/
      exists g p r result,
        In (call_solve_homomorphism_problem g p) (fst (main w argv)) /\
        solve_homomorphism_problem w g p = (r, inr result))).
Proof.
  destruct (main_try_paths w argv)
    as [(x & Ht & Hp) | (ov & Hp & [(Hh & Ht) | [(Hh & line & Ht & Hl) |
        [(Hh & x & Hx & Ha) | (Hh & g & p & prefix & Hpre & Ht)]]])].
  - rewrite (main_of_throw w argv _ x Ht). cbn [snd]. split; [now right |].
    split; [discriminate |]. intros (ov & Hov & _). congruence.
  - rewrite (main_of_return w argv _ _ Ht). cbn [snd]. split; [now left |].
    split; [| reflexivity]. intros _. exists ov. auto.
  - rewrite (main_of_return w argv _ _ Ht). cbn [fst snd]. split; [now right |].
    split; [discriminate |].
    intros (ov' & Hov & [Hh' | (g & p & _ & _ & [Heq | []] & _)]).
    + congruence.
    + subst line. discriminate.
  - destruct (main_try w argv) as [t o] eqn:Ht. cbn [snd] in Hx. subst o.
    rewrite (main_of_throw w argv t x Ht). cbn [fst snd]. split; [now right |].
    split; [discriminate |].
    intros (ov' & Hov & [Hh' | (g & p & _ & _ & Hin & _)]); [congruence |].
    apply in_app_or in Hin. destruct Hin as [Hin | Hin].
    + apply (Ha _) in Hin. discriminate.
    + destruct x; cbn in Hin; intuition discriminate.
  - destruct (solve_homomorphism_problem w g p) as [r [x | result]] eqn:Hs.
    + rewrite (solve_and_report_throws w ov g p r x Hs) in Ht.
      rewrite (main_of_throw w argv _ x Ht). cbn [fst snd]. split; [now right |].
      split; [discriminate |].
      intros (ov' & Hov & [Hh' | (g' & p' & r' & result' & Hin & Hs')]); [congruence |].
      rewrite Forall_forall in Hpre.
      apply in_app_or in Hin. destruct Hin as [Hin | Hin].
      * apply in_app_or in Hin. destruct Hin as [Hin | Hin].
        -- apply Hpre in Hin. discriminate.
        -- cbn [fst] in Hin. destruct Hin as [Hin | Hin].
           ++ inversion Hin; subst g' p'. congruence.
           ++ destruct (enumerate_callback p); [| contradiction].
              apply in_map_iff in Hin. destruct Hin as (m & Hm & _). discriminate.
      * destruct x; cbn in Hin; intuition discriminate.
    + rewrite (solve_and_report_returns w ov g p r result Hs) in Ht.
      rewrite (main_of_return w argv _ _ Ht). cbn [fst snd]. split; [now left |].
      split; [| reflexivity]. intros _. exists ov. split; [exact Hp |].
      right. exists g, p, r, result. split; [| exact Hs].
      apply in_or_app. right. now left.
Qed.

(** X5.  [main] calls the solver at most once. *)
Theorem solver_called_at_most_once (w : World) (argv : list string) :
  (solver_calls (fst (main w argv)) <= 1)%nat.
Proof.
  assert (Herr : forall t x,
    solver_calls (t ++ cerr ("Error: " ++ what x)
      :: match x with
         | po_error _ => [cerr ("Try " ++ nth 0 argv "" ++ " --help")]
         | _ => []
         end) = solver_calls t).
  { intros t x. rewrite solver_calls_app. destruct x; cbn; lia. }
  destruct (main_try_paths w argv)
    as [(x & Ht & Hp) | (ov & Hp & [(Hh & Ht) | [(Hh & line & Ht & Hl) |
        [(Hh & x & Hx & Ha) | (Hh & g & p & prefix & Hpre & Ht)]]])].
  - rewrite (main_of_throw w argv _ x Ht). cbn [fst]. rewrite Herr. cbn. lia.
  - rewrite (main_of_return w argv _ _ Ht). cbn. lia.
  - rewrite (main_of_return w argv _ _ Ht). unfold solver_calls. cbn. rewrite Hl. cbn. lia.
  - apply avoids_no_calls in Ha.
    destruct (main_try w argv) as [t o] eqn:Ht. cbn [fst snd] in Hx, Ha. subst o.
    rewrite (main_of_throw w argv t x Ht). cbn [fst]. rewrite Herr. lia.
  - assert (Hpre0 : solver_calls prefix = 0%nat).
    { clear Ht. unfold solver_calls. induction Hpre as [| e t He _ IH]; [reflexivity |].
      cbn [filter]. rewrite He. exact IH. }
    pose proof (solve_and_report_calls_once w ov g p) as Hone.
    destruct (snd (solve_and_report w ov g p)) as [[] | st | x] eqn:Ho.
    + rewrite (main_of_return w argv _ _ Ht). cbn [fst].
      rewrite solver_calls_app. lia.
    + rewrite (main_of_throw w argv _ x Ht). cbn [fst].
      rewrite Herr, solver_calls_app. lia.
Qed.

(** X6.  The thread settings the solver gets: [--parallel] switches on
    triggered restarts and delayed thread creation and asks for an
    automatic number of threads (0) unless [--threads] gives one; the
    bigraph mode is always on and the search for a minimal unsatisfiable
    pattern always off. *)
Theorem parallel_settings (w : World) (argv : list string) (ov : variables_map)
    (g : InputGraph * InputGraph) (p : HomomorphismParams) :
  command_line_parser w argv = inr ov ->
  In (call_solve_homomorphism_problem g p) (fst (main w argv)) ->
  triggered_restarts p = (opt_triggered_restarts ov || opt_parallel ov) /\
  n_threads p =
    match opt_threads ov with
    | Some n => n
    | None => if opt_parallel ov then 0%Z
              else n_threads (default_HomomorphismParams w)
    end /\
  delay_thread_creation p =
    (if opt_delay_thread_creation ov || opt_parallel ov then true
     else delay_thread_creation (default_HomomorphismParams w)) /\
  bigraph p = true /\ minimal_unsat_pattern p = false.
Proof.
  intros Hp H.
  destruct (solver_params_fields w argv ov g p Hp H) as ((a & b & c & d & e) & _).
  repeat split; assumption.
Qed.

(** X7.  A restart policy named on the command line is the one the solver
    gets, with the parameters given or their defaults, also when counting
    solutions or with [--parallel]. *)
Theorem explicit_restarts_policy (w : World) (argv : list string)
    (ov : variables_map) (s : string)
    (g : InputGraph * InputGraph) (p : HomomorphismParams) :
  command_line_parser w argv = inr ov ->
  opt_restarts ov = Some s ->
  In (call_solve_homomorphism_problem g p) (fst (main w argv)) ->
  (s = "luby" /\
   restarts_schedule p =
   Some (LubyRestartsSchedule
           (match opt_luby_constant ov with
            | Some c => to_unsigned_long_long c
            | None => Luby_default_multiplier (restarts_defaults w)
            end))) \/
  (s = "geometric" /\
   restarts_schedule p =
   Some (GeometricRestartsSchedule
           (match opt_geometric_constant ov with
            | Some c => c
            | None => Geometric_default_initial_value (restarts_defaults w)
            end)
           (match opt_geometric_multiplier ov with
            | Some c => c
            | None => Geometric_default_multiplier (restarts_defaults w)
            end))) \/
  (s = "timed" /\
   restarts_schedule p =
   Some (TimedRestartsSchedule
           (match opt_restart_interval ov with
            | Some c => c
            | None => Timed_default_duration (restarts_defaults w)
            end)
           (match opt_restart_minimum ov with
            | Some c => to_unsigned_long_long c
            | None => Timed_default_minimum_backtracks (restarts_defaults w)
            end))) \/
  (s = "none" /\ restarts_schedule p = Some NoRestartsSchedule).
Proof.
  intros Hp Hs H.
  destruct (solver_params_fields w argv ov g p Hp H) as (_ & (sched & Hr & Hsched) & _).
  rewrite Hs in Hsched. rewrite Hr.
  destruct Hsched as [[-> ->] | [[-> ->] | [[-> ->] | [-> ->]]]]; tauto.
Qed.

(** X8.  [--luby-constant] is read as an [int] and stored in an
    [unsigned long long]: a negative constant is not rejected, it wraps to
    2^64 plus the constant; a non-negative one is kept. *)
Theorem negative_luby_constant_wraps (w : World) (argv : list string)
    (ov : variables_map) (c : Z)
    (g : InputGraph * InputGraph) (p : HomomorphismParams) :
  command_line_parser w argv = inr ov ->
  opt_restarts ov = Some "luby" ->
  opt_luby_constant ov = Some c ->
  (- 2 ^ 31 <= c < 2 ^ 31)%Z ->
  In (call_solve_homomorphism_problem g p) (fst (main w argv)) ->
  restarts_schedule p =
  Some (LubyRestartsSchedule (if (c <? 0)%Z then (2 ^ 64 + c)%Z else c)).
Proof.
  intros Hp Hs Hc Hrange H.
  destruct (solver_params_fields w argv ov g p Hp H) as (_ & (sched & Hr & Hsched) & _).
  rewrite Hs, Hc in Hsched. rewrite Hr.
  assert (Hm : to_unsigned_long_long c = if (c <? 0)%Z then (2 ^ 64 + c)%Z else c).
  { unfold to_unsigned_long_long. destruct (Z.ltb_spec c 0).
    - symmetry. apply Z.mod_unique with (q := (-1)%Z); lia.
    - apply Z.mod_small. lia. }
  destruct Hsched as [[_ ->] | [[[=] _] | [[[=] _] | [[=] _]]]].
  now rewrite Hm.
Qed.

(** X9.  The value-ordering heuristic the solver gets is the one named on
    the command line, and the default of [HomomorphismParams] when none is
    named. *)
Theorem value_ordering_selected (w : World) (argv : list string)
    (ov : variables_map)
    (g : InputGraph * InputGraph) (p : HomomorphismParams) :
  command_line_parser w argv = inr ov ->
  In (call_solve_homomorphism_problem g p) (fst (main w argv)) ->
  match opt_value_ordering ov with
  | None =>
      value_ordering_heuristic p
      = value_ordering_heuristic (default_HomomorphismParams w)
  | Some s =>
      (s = "biased" /\ value_ordering_heuristic p = Biased) \/
      (s = "degree" /\ value_ordering_heuristic p = Degree) \/
      (s = "antidegree" /\ value_ordering_heuristic p = AntiDegree) \/
      (s = "random" /\ value_ordering_heuristic p = Random)
  end.
Proof.
  intros Hp H.
  destruct (solver_params_fields w argv ov g p Hp H) as (_ & _ & Hv & _).
  exact Hv.
Qed.

(** X10.  Without [--pattern-symmetries], the solver gets the less-than
    constraints of the command line in their order, each split at its
    first ['<']: the text before it holds no ['<'], and the two parts
    around a ['<'] give the constraint back. *)
Theorem less_than_constraints_forwarded (w : World) (argv : list string)
    (ov : variables_map)
    (g : InputGraph * InputGraph) (p : HomomorphismParams) :
  command_line_parser w argv = inr ov ->
  opt_pattern_symmetries ov = false ->
  In (call_solve_homomorphism_problem g p) (fst (main w argv)) ->
  pattern_less_constraints p =
  (pattern_less_constraints (default_HomomorphismParams w)
   ++ map less_than_pair (pattern_less_thans ov))%list /\
  Forall (fun s => s = fst (less_than_pair s) ++ "<" ++ snd (less_than_pair s) /\
                   no_separator (fst (less_than_pair s)))
         (pattern_less_thans ov).
Proof.
  intros Hp Hno H.
  destruct (solver_params_fields w argv ov g p Hp H) as (_ & _ & _ & Hc & _).
  rewrite Hno in Hc. destruct Hc as [Hc _]. split; [exact Hc |].
  apply solver_called_configured in H. destruct H as (ov' & Hp' & Hv & _).
  rewrite Hp in Hp'. inversion Hp'; subst ov'. inversion Hv; subst.
  match goal with
  | Hall : Forall _ (pattern_less_thans ov) |- _ =>
      apply Forall_impl with (2 := Hall)
  end.
  intros s Hs. now apply less_than_pair_splits.
Qed.

(** X11.  Splitting is the inverse of joining two names with ['<'], as long
    as the first name holds no ['<']: the constraint [a<b] adds the pair
    (a, b) to the constraints, also when [b] holds further ['<']. *)
Theorem less_than_round_trip (a b : string) (p : HomomorphismParams) :
  no_separator a ->
  configure_less_thans [a ++ "<" ++ b] p =
  ([], Continue (set_pattern_less_constraints p
                   (pattern_less_constraints p ++ [(a, b)])%list)).
Proof.
  intros Ha. cbn [configure_less_thans].
  change (a ++ "<" ++ b) with (a ++ String "<" b).
  rewrite (find_first "<" a b Ha).
  now rewrite substring_prefix, substr_from_suffix.
Qed.

(** X12.  The solver gets the timeout of the command line, in seconds, and
    0 when none is given; the start time is the clock read just before;
    with [--print-all-solutions] the enumeration callback is set. *)
Theorem timeout_forwarded (w : World) (argv : list string) (ov : variables_map)
    (g : InputGraph * InputGraph) (p : HomomorphismParams) :
  command_line_parser w argv = inr ov ->
  In (call_solve_homomorphism_problem g p) (fst (main w argv)) ->
  timeout p = match opt_timeout ov with Some t => t | None => 0%Z end /\
  start_time p = steady_clock_now w /\
  (opt_print_all_solutions ov = true -> enumerate_callback p = true).
Proof.
  intros Hp H.
  destruct (solver_params_fields w argv ov g p Hp H) as (_ & _ & _ & _ & _ & (a & b & c)).
  repeat split; trivial. intros Hall. now rewrite Hall in a.
Qed.

(** X13.  The oracle the solver gets: with both pipes given, the [Lackey]
    built on these two pipes and the two graphs; otherwise the default of
    [HomomorphismParams]. *)
Theorem lackey_forwarded (w : World) (argv : list string) (ov : variables_map)
    (g : InputGraph * InputGraph) (p : HomomorphismParams) :
  command_line_parser w argv = inr ov ->
  In (call_solve_homomorphism_problem g p) (fst (main w argv)) ->
  match opt_send_to_lackey ov, opt_receive_from_lackey ov with
  | Some s, Some r =>
      exists l, Lackey_constructor w s r (fst g) (snd g) = inr l /\ lackey p = Some l
  | _, _ => lackey p = lackey (default_HomomorphismParams w)
  end.
Proof.
  intros Hp H.
  destruct (solver_params_fields w argv ov g p Hp H) as (_ & _ & _ & _ & Hl & _).
  exact Hl.
Qed.

(** X14.  With [--pattern-symmetries], the symmetry tool is run on the
    pattern graph, the constraints of the command line and the group size
    given (or "1"); the solver gets the constraints the tool leaves, and
    the group size it leaves is printed. *)
Theorem symmetries_replace_constraints (w : World) (argv : list string)
    (ov : variables_map)
    (g : InputGraph * InputGraph) (p : HomomorphismParams) :
  command_line_parser w argv = inr ov ->
  opt_pattern_symmetries ov = true ->
  In (call_solve_homomorphism_problem g p) (fst (main w argv)) ->
  exists r,
    find_symmetries w (nth 0 argv "") (fst g)
      (pattern_less_constraints (default_HomomorphismParams w)
       ++ map less_than_pair (pattern_less_thans ov))%list
      (match opt_pattern_automorphism_group_size ov with
       | Some size => size | None => "1" end) = inr r /\
    pattern_less_constraints p = fst r /\
    In (cout ("pattern_automorphism_group_size = " ++ snd r)) (fst (main w argv)).
Proof.
  intros Hp Hyes H.
  destruct (solver_params_fields w argv ov g p Hp H) as (_ & _ & _ & Hc & _).
  rewrite Hyes in Hc. exact Hc.
Qed.

(** X15.  Without [--pattern-symmetries], a group size given on the command
    line is printed as it is before the solver is called. *)
Theorem group_size_echoed (w : World) (argv : list string) (ov : variables_map)
    (size : string)
    (g : InputGraph * InputGraph) (p : HomomorphismParams) :
  command_line_parser w argv = inr ov ->
  opt_pattern_symmetries ov = false ->
  opt_pattern_automorphism_group_size ov = Some size ->
  In (call_solve_homomorphism_problem g p) (fst (main w argv)) ->
  In (cout ("pattern_automorphism_group_size = " ++ size)) (fst (main w argv)).
Proof.
  intros Hp Hno Hsize H.
  destruct (solver_params_fields w argv ov g p Hp H) as (_ & _ & _ & Hc & _).
  rewrite Hno in Hc. destruct Hc as [_ Hc]. now apply Hc.
Qed.

(** X16.  The graphs the solver gets are the ones read from the two files
    named on the command line, the pattern first, after both files have
    been opened; the two file names are printed. *)
Theorem graphs_from_named_files (w : World) (argv : list string)
    (ov : variables_map)
    (g : InputGraph * InputGraph) (p : HomomorphismParams) :
  command_line_parser w argv = inr ov ->
  In (call_solve_homomorphism_problem g p) (fst (main w argv)) ->
  exists pf tf,
    opt_pattern_file ov = Some pf /\ opt_target_file ov = Some tf /\
    ifstream_good w pf = true /\ ifstream_good w tf = true /\
    read_pattern_bigraph w pf = inr (fst g) /\
    read_target_bigraph w tf = inr (snd g) /\
    In (cout ("pattern_file = " ++ pf)) (fst (main w argv)) /\
    In (cout ("target_file = " ++ tf)) (fst (main w argv)).
Proof.
  intros Hp H.
  assert (Hmain : forall e, In e (fst (main_try w argv)) -> In e (fst (main w argv))).
  { intros e. unfold main.
    destruct (main_try w argv) as [t [[] | st | [m | m | m]]]; cbn [fst]; trivial;
      intros He; apply in_or_app; now left. }
  apply solver_call_shape in H.
  destruct H as (ov' & p0 & p1 & Hp' & _ & _ & Hg & _ & _ & Htry).
  rewrite Hp in Hp'. inversion Hp'; subst ov'.
  destruct (read_graphs_continue w ov g Hg)
    as (pf & tf & H1 & H2 & H3 & H4 & H5 & H6 & H7 & H8).
  exists pf, tf. repeat split; trivial; apply Hmain; rewrite Htry; cbn [fst];
    apply in_or_app; right; apply in_or_app; now left.
Qed.

(** X17.  When the solver returns, what [main] prints from the call on is,
    in this order: the mappings enumerated (with the callback set), the
    status, the solution count when counting, the nodes and propagations,
    the mapping found unless [--print-all-solutions] is given, the
    runtime and the extra statistics; and [main] returns [EXIT_SUCCESS]. *)
Theorem report_layout (w : World) (argv : list string) (ov : variables_map)
    (g : InputGraph * InputGraph) (p : HomomorphismParams)
    (r : SolverRun) (result : HomomorphismResult) :
  command_line_parser w argv = inr ov ->
  In (call_solve_homomorphism_problem g p) (fst (main w argv)) ->
  solve_homomorphism_problem w g p = (r, inr result) ->
  exists prefix,
    solver_calls prefix = 0%nat /\
    main w argv =
    ((prefix
      ++ call_solve_homomorphism_problem g p
      :: (if enumerate_callback p
          then map (fun m => cout (mapping_line g m)) (enumerated r) else [])
      ++ [cout ("status = " ++ status p (aborted r) result)]
      ++ (if count_solutions p
          then [cout ("solution_count = " ++ string_of_Z (solution_count result))]
          else [])
      ++ [cout ("nodes = " ++ string_of_Z (nodes result));
          cout ("propagations = " ++ string_of_Z (propagations result))]
      ++ (if negb (match mapping result with [] => true | _ => false end)
             && negb (opt_print_all_solutions ov)
          then [cout (mapping_line g (mapping result))] else [])
      ++ [cout ("runtime = " ++ string_of_Z (overall_time w))]
      ++ map cout (extra_stats result))%list,
     EXIT_SUCCESS).
Proof.
  intros Hp H Hs. apply solver_call_shape in H.
  destruct H as (ov' & p0 & p1 & Hp' & _ & _ & _ & _ & _ & Htry).
  rewrite Hp in Hp'. inversion Hp'; subst ov'.
  rewrite (solve_and_report_returns w ov g p r result Hs) in Htry.
  cbn [fst snd] in Htry.
  exists (fst (banner w argv) ++ fst (read_graphs w ov)
          ++ fst (configure_lackey w ov g p0)
          ++ fst (configure_symmetries w (nth 0 argv "") ov g (stamped w ov p1)))%list.
  split.
  - rewrite !solver_calls_app.
    rewrite (avoids_no_calls _ (banner_avoids w is_solve argv (fun _ => eq_refl))).
    rewrite (avoids_no_calls _ (read_graphs_avoids w is_solve ov
               (fun _ => eq_refl) (fun _ => eq_refl) (fun _ => eq_refl) (fun _ => eq_refl))).
    rewrite (avoids_no_calls _ (configure_lackey_avoids w ov g p0)).
    rewrite (avoids_no_calls _ (configure_symmetries_avoids w is_solve _ ov g _
               (fun _ => eq_refl) eq_refl)).
    reflexivity.
  - apply main_of_return. rewrite Htry. now rewrite <- !app_assoc.
Qed.

(** X18.  When the solver returns and the timeout has not expired, the
    status printed is [true] when a mapping came back or, when counting,
    a positive count did, and [false] otherwise. *)
Theorem status_reported (w : World) (argv : list string)
    (g : InputGraph * InputGraph) (p : HomomorphismParams)
    (r : SolverRun) (result : HomomorphismResult) :
  In (call_solve_homomorphism_problem g p) (fst (main w argv)) ->
  solve_homomorphism_problem w g p = (r, inr result) ->
  aborted r = false ->
  (mapping result <> [] \/ (count_solutions p = true /\ 0 < solution_count result)%Z ->
   In (cout "status = true") (fst (main w argv))) /\
  (mapping result = [] ->
   count_solutions p = false \/ (solution_count result <= 0)%Z ->
   In (cout "status = false") (fst (main w argv))).
Proof.
  intros H Hs Ha. apply solver_called_configured in H.
  destruct H as (ov & _ & _ & He).
  destruct (main_ends_with_report w argv ov g p r result He Hs) as [_ Hin].
  assert (Hline : In (cout ("status = " ++ status p (aborted r) result))
                     (fst (main w argv))).
  { apply Hin. rewrite (solve_and_report_returns w ov g p r result Hs).
    cbn [fst]. right. apply in_or_app. right. now left. }
  rewrite Ha in Hline. unfold status in Hline. split.
  - intros Hyes.
    replace (negb match mapping result with [] => true | _ :: _ => false end
             || count_solutions p && (0 <? solution_count result)%Z) with true in Hline;
      [exact Hline |].
    symmetry. apply orb_true_iff. destruct Hyes as [Hm | [Hc Hn]].
    + left. destruct (mapping result); [congruence | reflexivity].
    + right. rewrite Hc. cbn. now apply Z.ltb_lt.
  - intros Hm Hno. rewrite Hm in Hline. cbn [negb orb] in Hline.
    replace (count_solutions p && (0 <? solution_count result)%Z) with false in Hline;
      [exact Hline |].
    symmetry. destruct Hno as [-> | Hn]; [reflexivity |].
    apply andb_false_iff. right. now apply Z.ltb_ge.
Qed.

(** X19.  When the solver throws, [main] has printed the mappings
    enumerated so far (with the callback set), prints ["Error: "] and the
    reason on [cerr], prints no report, and returns [EXIT_FAILURE]. *)
Theorem solver_failure_reported (w : World) (argv : list string)
    (g : InputGraph * InputGraph) (p : HomomorphismParams)
    (r : SolverRun) (x : exception) :
  In (call_solve_homomorphism_problem g p) (fst (main w argv)) ->
  solve_homomorphism_problem w g p = (r, inl x) ->
  exists prefix,
    solver_calls prefix = 0%nat /\
    main w argv =
    ((prefix
      ++ call_solve_homomorphism_problem g p
      :: (if enumerate_callback p
          then map (fun m => cout (mapping_line g m)) (enumerated r) else [])
      ++ cerr ("Error: " ++ what x)
      :: match x with
         | po_error _ => [cerr ("Try " ++ nth 0 argv "" ++ " --help")]
         | _ => []
         end)%list,
     EXIT_FAILURE).
Proof.
  intros H Hs. apply solver_call_shape in H.
  destruct H as (ov & p0 & p1 & _ & _ & _ & _ & _ & _ & Htry).
  rewrite (solve_and_report_throws w ov g p r x Hs) in Htry.
  cbn [fst snd] in Htry.
  exists (fst (banner w argv) ++ fst (read_graphs w ov)
          ++ fst (configure_lackey w ov g p0)
          ++ fst (configure_symmetries w (nth 0 argv "") ov g (stamped w ov p1)))%list.
  split.
  - rewrite !solver_calls_app.
    rewrite (avoids_no_calls _ (banner_avoids w is_solve argv (fun _ => eq_refl))).
    rewrite (avoids_no_calls _ (read_graphs_avoids w is_solve ov
               (fun _ => eq_refl) (fun _ => eq_refl) (fun _ => eq_refl) (fun _ => eq_refl))).
    rewrite (avoids_no_calls _ (configure_lackey_avoids w ov g p0)).
    rewrite (avoids_no_calls _ (configure_symmetries_avoids w is_solve _ ov g _
               (fun _ => eq_refl) eq_refl)).
    reflexivity.
  - rewrite (main_of_throw w argv _ x Htry). f_equal.
    rewrite <- ?app_assoc. cbn [app]. rewrite <- ?app_assoc. reflexivity.
Qed.

(** X20.  When the pattern file does not open, [main] has printed the
    banner and tried that file only: it prints the error on [cerr] and
    returns [EXIT_FAILURE]; the target file is not opened, no graph is
    read and the solver is not called. *)
Theorem unopenable_pattern_file (w : World) (argv : list string)
    (ov : variables_map) (pf tf : string) :
  command_line_parser w argv = inr ov ->
  opt_help ov = false ->
  opt_pattern_file ov = Some pf -> opt_target_file ov = Some tf ->
  recognised restarts_policies (opt_restarts ov) ->
  recognised value_ordering_heuristics (opt_value_ordering ov) ->
  Forall (fun s => ~ no_separator s) (pattern_less_thans ov) ->
  xorb (count (opt_send_to_lackey ov)) (count (opt_receive_from_lackey ov)) = false ->
  ifstream_good w pf = false ->
  main w argv =
  ((fst (banner w argv)
    ++ [open_ifstream pf;
        cerr ("Error: " ++ GraphFileError_what w pf "unable to open pattern file" false)])%list,
   EXIT_FAILURE).
Proof.
  intros Hp Hh Hpf Htf Hr Hv Hl Hx Hbad.
  destruct (configure_passes w ov Hr Hv Hl Hx) as (p & Hc).
  assert (Hf1 : opt_pattern_file ov <> None) by congruence.
  assert (Hf2 : opt_target_file ov <> None) by congruence.
  pose proof (main_try_run w argv ov p Hp Hh Hf1 Hf2 Hc) as Ht.
  assert (Hread : read_graphs w ov =
    ([open_ifstream pf],
     Throw (GraphFileError (GraphFileError_what w pf "unable to open pattern file" false)))).
  { unfold read_graphs, open_file. rewrite Hpf, Htf. cbn [as_].
    rewrite !(bind_silent (ret _) _ _ eq_refl). now rewrite Hbad. }
  unfold run in Ht. cbv zeta in Ht.
  rewrite (bind_continues (banner w argv) _ tt) in Ht
    by (now rewrite banner_trace).
  rewrite (bind_throws (read_graphs w ov) _
             (GraphFileError (GraphFileError_what w pf "unable to open pattern file" false)))
    in Ht by (now rewrite Hread).
  rewrite Hread in Ht. cbn [fst snd] in Ht.
  rewrite (main_of_throw w argv _ _ Ht). cbn [what]. f_equal.
  now rewrite <- app_assoc.
Qed.

(** X21.  When the pattern file opens and the target file does not, both
    have been tried, in this order, and nothing has been read: [main]
    prints the error on [cerr] and returns [EXIT_FAILURE]. *)
Theorem unopenable_target_file (w : World) (argv : list string)
    (ov : variables_map) (pf tf : string) :
  command_line_parser w argv = inr ov ->
  opt_help ov = false ->
  opt_pattern_file ov = Some pf -> opt_target_file ov = Some tf ->
  recognised restarts_policies (opt_restarts ov) ->
  recognised value_ordering_heuristics (opt_value_ordering ov) ->
  Forall (fun s => ~ no_separator s) (pattern_less_thans ov) ->
  xorb (count (opt_send_to_lackey ov)) (count (opt_receive_from_lackey ov)) = false ->
  ifstream_good w pf = true ->
  ifstream_good w tf = false ->
  main w argv =
  ((fst (banner w argv)
    ++ [open_ifstream pf; open_ifstream tf;
        cerr ("Error: " ++ GraphFileError_what w tf "unable to open target file" false)])%list,
   EXIT_FAILURE).
Proof.
  intros Hp Hh Hpf Htf Hr Hv Hl Hx Hgood Hbad.
  destruct (configure_passes w ov Hr Hv Hl Hx) as (p & Hc).
  assert (Hf1 : opt_pattern_file ov <> None) by congruence.
  assert (Hf2 : opt_target_file ov <> None) by congruence.
  pose proof (main_try_run w argv ov p Hp Hh Hf1 Hf2 Hc) as Ht.
  assert (Hread : read_graphs w ov =
    ([open_ifstream pf; open_ifstream tf],
     Throw (GraphFileError (GraphFileError_what w tf "unable to open target file" false)))).
  { unfold read_graphs, open_file. rewrite Hpf, Htf. cbn [as_].
    rewrite !(bind_silent (ret _) _ _ eq_refl). now rewrite Hgood, Hbad. }
  unfold run in Ht. cbv zeta in Ht.
  rewrite (bind_continues (banner w argv) _ tt) in Ht
    by (now rewrite banner_trace).
  rewrite (bind_throws (read_graphs w ov) _
             (GraphFileError (GraphFileError_what w tf "unable to open target file" false)))
    in Ht by (now rewrite Hread).
  rewrite Hread in Ht. cbn [fst snd] in Ht.
  rewrite (main_of_throw w argv _ _ Ht). cbn [what]. f_equal.
  now rewrite <- app_assoc.
Qed.

(** X22.  The four input-processing flags ([--no-clique-detection],
    [--no-isolated-vertex-removal], [--no-supplementals], [--no-nds]) are
    declared but never read: whatever they are set to, [main] prints the
    same, calls the solver with the same parameters and returns the same
    status. *)
Theorem mangling_options_ignored (w : World) (argv : list string)
    (ov : variables_map) (clique isolated supplementals nds : bool) :
  command_line_parser w argv = inr ov ->
  main (with_parser w
          (fun _ => inr (with_mangling_options ov clique isolated supplementals nds)))
       argv
  = main w argv.
Proof.
  intros Hp. unfold main, main_try. rewrite Hp. reflexivity.
Qed.

(** X23.  Every run that passes the checks of the options starts with the
    banner: the host name when it is known, the command line as given,
    and the start time; nothing is opened or read before. *)
Theorem banner_first (w : World) (argv : list string) (ov : variables_map) :
  command_line_parser w argv = inr ov ->
  opt_help ov = false ->
  opt_pattern_file ov <> None -> opt_target_file ov <> None ->
  recognised restarts_policies (opt_restarts ov) ->
  recognised value_ordering_heuristics (opt_value_ordering ov) ->
  Forall (fun s => ~ no_separator s) (pattern_less_thans ov) ->
  xorb (count (opt_send_to_lackey ov)) (count (opt_receive_from_lackey ov)) = false ->
  exists rest,
    fst (main w argv) =
    (match gethostname w with
     | Some hostname => [cout ("hostname = " ++ hostname)]
     | None => []
     end
     ++ cout ("commandline =" ++ String.concat "" (map (fun a => (" " ++ a)%string) argv))
     :: cout ("started_at = " ++ started_at w)
     :: rest)%list.
Proof.
  intros Hp Hh Hf1 Hf2 Hr Hv Hl Hx.
  destruct (configure_passes w ov Hr Hv Hl Hx) as (p & Hc).
  pose proof (main_try_run w argv ov p Hp Hh Hf1 Hf2 Hc) as Ht.
  unfold run in Ht. cbv zeta in Ht.
  rewrite (bind_continues (banner w argv) _ tt) in Ht
    by (now rewrite banner_trace).
  rewrite banner_trace in Ht. cbn [fst] in Ht.
  unfold main. rewrite Ht.
  match goal with
  | |- context [snd ?k] => destruct (snd k) as [[] | st | [m | m | m]]
  end; cbn [fst]; rewrite <- ?app_assoc; cbn [app]; eexists; reflexivity.
Qed.

(** The loop of lines 225-233 stops at the first constraint without a
    ['<']. *)
Lemma configure_less_thans_first (good : list string) (s : string)
    (rest : list string) : forall p,
  Forall (fun c => ~ no_separator c) good ->
  no_separator s ->
  configure_less_thans (good ++ s :: rest) p =
  ([cerr ("Invalid pattern less-than constraint '" ++ s ++ "'")], Return EXIT_FAILURE).
Proof.
  induction good as [| c good IH]; intros p Hgood Hs; cbn [app configure_less_thans].
  - apply find_None in Hs. now rewrite Hs.
  - inversion Hgood as [| c' good' Hc Hrest]; subst.
    destruct (find "<" c) as [n |] eqn:Hf.
    + now apply IH.
    + exfalso. apply Hc. now apply find_None.
Qed.

(** X24.  The options of a command line that parses are checked in a
    fixed order, and the first check that fails decides the one line [main] prints before it returns
    [EXIT_FAILURE]: the restart policy, then the value-ordering heuristic,
    then the less-than constraints from left to right, then the two pipes
    of the oracle. *)
Theorem checks_in_order (w : World) (argv : list string) (ov : variables_map) :
  command_line_parser w argv = inr ov ->
  opt_help ov = false ->
  opt_pattern_file ov <> None -> opt_target_file ov <> None ->
  (forall s, opt_restarts ov = Some s -> ~ In s restarts_policies ->
     main w argv =
     ([cerr ("Unknown restarts policy '" ++ s ++ "'")], EXIT_FAILURE)) /\
  (recognised restarts_policies (opt_restarts ov) ->
   (forall s, opt_value_ordering ov = Some s -> ~ In s value_ordering_heuristics ->
      main w argv =
      ([cerr ("Unknown value-ordering heuristic '" ++ s ++ "'")], EXIT_FAILURE)) /\
   (recognised value_ordering_heuristics (opt_value_ordering ov) ->
    (forall good s rest,
       pattern_less_thans ov = (good ++ s :: rest)%list ->
       Forall (fun c => ~ no_separator c) good -> no_separator s ->
       main w argv =
       ([cerr ("Invalid pattern less-than constraint '" ++ s ++ "'")], EXIT_FAILURE)) /\
    (Forall (fun c => ~ no_separator c) (pattern_less_thans ov) ->
     xorb (count (opt_send_to_lackey ov)) (count (opt_receive_from_lackey ov)) = true ->
     main w argv =
     ([cerr "Must specify both of --send-to-lackey and --receive-from-lackey"],
      EXIT_FAILURE)))).
Proof.
  intros Hp Hh Hf1 Hf2.
  assert (Hmain : forall t, configure w ov = (t, Return EXIT_FAILURE) ->
                            main w argv = (t, EXIT_FAILURE))
    by (intros t; now apply main_of_verdict).
  split.
  { intros s Hs Hn. apply Hmain. unfold configure.
    now rewrite (bind_stops _ _ _ _ (configure_restarts_unknown w ov _ s Hs Hn)). }
  intros Rr.
  destruct (configure_restarts_inv w ov (configure_fixed w ov))
    as [(sched & Hr) | (s & Hs & Hn & _)]; [| exfalso; apply Hn; now apply Rr].
  split.
  { intros s Hs Hn. apply Hmain. unfold configure. rewrite (bind_silent _ _ _ Hr).
    now rewrite (bind_stops _ _ _ _ (configure_value_ordering_unknown ov _ s Hs Hn)). }
  intros Rv.
  destruct (configure_value_ordering_inv ov (set_restarts_schedule (configure_fixed w ov) sched))
    as [(p2 & Hv & _) | (s & Hs & Hn & _)]; [| exfalso; apply Hn; now apply Rv].
  split.
  { intros good s rest Hl Hgood Hs. apply Hmain. unfold configure.
    rewrite (bind_silent _ _ _ Hr), (bind_silent _ _ _ Hv), Hl.
    now rewrite (bind_stops _ _ _ _ (configure_less_thans_first good s rest p2 Hgood Hs)). }
  intros Hall Hx. apply Hmain. unfold configure.
  rewrite (bind_silent _ _ _ Hr), (bind_silent _ _ _ Hv).
  destruct (configure_less_thans_inv (pattern_less_thans ov) p2)
    as [(p3 & Hl & _) | (s & Hin & Hno & _)].
  - rewrite (bind_silent _ _ _ Hl), Hx. reflexivity.
  - exfalso. rewrite Forall_forall in Hall. now apply (Hall s).
Qed.

(** ** Getting to the solver *)

Lemma read_graphs_succeeds (w : World) (ov : variables_map) (pf tf : string)
    (gp gt : InputGraph) :
  opt_pattern_file ov = Some pf -> opt_target_file ov = Some tf ->
  ifstream_good w pf = true -> ifstream_good w tf = true ->
  read_pattern_bigraph w pf = inr gp -> read_target_bigraph w tf = inr gt ->
  snd (read_graphs w ov) = Continue (gp, gt).
Proof.
  intros Hpf Htf Hgp Hgt Hrp Hrt. unfold read_graphs, open_file.
  rewrite Hpf, Htf. cbn [as_]. rewrite !(bind_silent (ret _) _ _ eq_refl).
  rewrite Hgp, Hgt, Hrp, Hrt. now destruct (make_pair_second_first w).
Qed.

Lemma configure_lackey_succeeds (w : World) (ov : variables_map)
    (g : InputGraph * InputGraph) (p : HomomorphismParams) :
  (forall s r, opt_send_to_lackey ov = Some s -> opt_receive_from_lackey ov = Some r ->
     exists l, Lackey_constructor w s r (fst g) (snd g) = inr l) ->
  exists p1, snd (configure_lackey w ov g p) = Continue p1.
Proof.
  intros Hl. unfold configure_lackey.
  destruct (opt_send_to_lackey ov) as [s |], (opt_receive_from_lackey ov) as [r |];
    cbn [count andb]; try (eexists; reflexivity).
  destruct (Hl s r eq_refl eq_refl) as (l & Hctor).
  cbn [as_]. rewrite !(bind_silent (ret _) _ _ eq_refl). rewrite !snd_bind.
  rewrite Hctor. eexists. reflexivity.
Qed.

(** The less-than constraints after lines 141-238. *)
Lemma configure_constraints (w : World) (ov : variables_map) (p : HomomorphismParams) :
  configure w ov = ([], Continue p) ->
  pattern_less_constraints p =
  (pattern_less_constraints (default_HomomorphismParams w)
   ++ map less_than_pair (pattern_less_thans ov))%list.
Proof.
  intros Hc. apply configure_continue in Hc.
  destruct Hc as (p1 & p2 & Hr & Hv & Hl & _).
  apply configure_restarts_continue in Hr. destruct Hr as (sched & -> & _).
  apply configure_value_ordering_continue in Hv.
  apply configure_less_thans_continue in Hl. subst p.
  cbn [pattern_less_constraints set_pattern_less_constraints].
  assert (Hp2 : pattern_less_constraints p2
                = pattern_less_constraints (default_HomomorphismParams w)).
  { destruct (configure_fixed_fields w ov) as (_ & _ & _ & _ & _ & _ & _ & _ & _ & Hf & _).
    rewrite <- Hf.
    destruct (opt_value_ordering ov); [destruct Hv as (v & -> & _) | subst p2];
      reflexivity. }
  now rewrite Hp2.
Qed.

Lemma stamped_constraints (w : World) (ov : variables_map) (p : HomomorphismParams) :
  pattern_less_constraints (stamped w ov p) = pattern_less_constraints p.
Proof. unfold stamped. now destruct (opt_print_all_solutions ov). Qed.

Lemma configure_symmetries_succeeds (w : World) (argv0 : string)
    (ov : variables_map) (g : InputGraph * InputGraph) (p : HomomorphismParams) :
  (opt_pattern_symmetries ov = true ->
   exists r, find_symmetries w argv0 (fst g) (pattern_less_constraints p)
               (match opt_pattern_automorphism_group_size ov with
                | Some size => size | None => "1" end) = inr r) ->
  exists p', snd (configure_symmetries w argv0 ov g p) = Continue p'.
Proof.
  intros Hs. unfold configure_symmetries.
  destruct (opt_pattern_symmetries ov).
  - destruct (Hs eq_refl) as (r & Hr).
    rewrite !snd_bind. rewrite Hr. eexists. reflexivity.
  - destruct (opt_pattern_automorphism_group_size ov); eexists; reflexivity.
Qed.

(** X25.  [main] gets to the solver whenever nothing stands in the way:
    the command line parses, [--help] is absent, the options pass their
    checks, both files open and read, and the oracle and the symmetry
    tool, where asked for, do not fail on the call [main] makes.  The
    solver is then called on the two graphs read, the pattern first. *)
Theorem solver_reached (w : World) (argv : list string) (ov : variables_map)
    (pf tf : string) (gp gt : InputGraph) :
  command_line_parser w argv = inr ov ->
  opt_help ov = false ->
  opt_pattern_file ov = Some pf -> opt_target_file ov = Some tf ->
  recognised restarts_policies (opt_restarts ov) ->
  recognised value_ordering_heuristics (opt_value_ordering ov) ->
  Forall (fun s => ~ no_separator s) (pattern_less_thans ov) ->
  xorb (count (opt_send_to_lackey ov)) (count (opt_receive_from_lackey ov)) = false ->
  ifstream_good w pf = true -> ifstream_good w tf = true ->
  read_pattern_bigraph w pf = inr gp -> read_target_bigraph w tf = inr gt ->
  (forall s r, opt_send_to_lackey ov = Some s -> opt_receive_from_lackey ov = Some r ->
     exists l, Lackey_constructor w s r gp gt = inr l) ->
  (opt_pattern_symmetries ov = true ->
   exists r,
     find_symmetries w (nth 0 argv "") gp
       (pattern_less_constraints (default_HomomorphismParams w)
        ++ map less_than_pair (pattern_less_thans ov))%list
       (match opt_pattern_automorphism_group_size ov with
        | Some size => size | None => "1" end) = inr r) ->
  exists p, In (call_solve_homomorphism_problem (gp, gt) p) (fst (main w argv)).
Proof.
  intros Hp Hh Hpf Htf Hr Hv Hl Hx Hgp Hgt Hrp Hrt Hlackey Hsym.
  destruct (configure_passes w ov Hr Hv Hl Hx) as (p0 & Hc).
  assert (Hf1 : opt_pattern_file ov <> None) by congruence.
  assert (Hf2 : opt_target_file ov <> None) by congruence.
  pose proof (main_try_run w argv ov p0 Hp Hh Hf1 Hf2 Hc) as Ht.
  pose proof (read_graphs_succeeds w ov pf tf gp gt Hpf Htf Hgp Hgt Hrp Hrt) as Hg.
  destruct (configure_lackey_succeeds w ov (gp, gt) p0 Hlackey) as (p1 & Hp1).
  assert (Hcons : pattern_less_constraints (stamped w ov p1) =
                  (pattern_less_constraints (default_HomomorphismParams w)
                   ++ map less_than_pair (pattern_less_thans ov))%list).
  { rewrite stamped_constraints, <- (configure_constraints w ov p0 Hc).
    destruct (configure_lackey_continue w ov (gp, gt) p0 p1 Hp1)
      as [(s & r & l & _ & _ & _ & ->) | (_ & ->)]; reflexivity. }
  destruct (configure_symmetries_succeeds w (nth 0 argv "") ov (gp, gt)
              (stamped w ov p1)) as (p & Hp').
  { rewrite Hcons. exact Hsym. }
  exists p.
  assert (Hmain : forall e, In e (fst (main_try w argv)) -> In e (fst (main w argv))).
  { intros e. unfold main.
    destruct (main_try w argv) as [t [[] | st | [m | m | m]]]; cbn [fst]; trivial;
      intros He; apply in_or_app; now left. }
  apply Hmain. rewrite Ht. unfold run. cbv zeta.
  rewrite (bind_continues (banner w argv) _ tt) by (now rewrite banner_trace).
  rewrite (bind_continues _ _ _ Hg), (bind_continues _ _ _ Hp1).
  change (set_start_time _ _) with (stamped w ov p1).
  rewrite (bind_continues _ _ _ Hp'). cbn [fst].
  apply in_or_app. right. apply in_or_app. right. apply in_or_app. right.
  apply in_or_app. right. unfold solve_and_report. rewrite fst_bind. now left.
Qed.

(** * The further properties at concrete command lines *)

Lemma help_wins_witness :
  main (plain_world help_bogus_restarts) sample_argv =
  ([cout "Usage: glasgow_bigraph_solver [options] pattern target"; cout "";
    cout "Program options"], EXIT_SUCCESS).
Proof.
  exact (help_wins (plain_world help_bogus_restarts) sample_argv
           help_bogus_restarts eq_refl eq_refl).
Defined.

Lemma missing_input_file_witness :
  main (plain_world (without_files plain)) sample_argv =
  ([cout "Usage: glasgow_bigraph_solver [options] pattern target"], EXIT_FAILURE).
Proof.
  exact (missing_input_file (plain_world (without_files plain)) sample_argv
           (without_files plain) eq_refl eq_refl (or_introl eq_refl)).
Defined.

Lemma parse_error_reported_witness :
  main parse_error_world sample_argv =
  ([cerr "Error: unrecognised option '--bogus'";
    cerr "Try glasgow_bigraph_solver --help"], EXIT_FAILURE).
Proof.
  exact (parse_error_reported parse_error_world sample_argv
           (po_error "unrecognised option '--bogus'") eq_refl).
Defined.

Lemma parallel_settings_witness :
  triggered_restarts
    (called_params (fst (main (plain_world four_threads_parallel) sample_argv))
       sample_params) = true /\
  n_threads
    (called_params (fst (main (plain_world four_threads_parallel) sample_argv))
       sample_params) = 4%Z.
Proof.
  assert (H : In (call_solve_homomorphism_problem sample_graphs
      (called_params (fst (main (plain_world four_threads_parallel) sample_argv))
         sample_params))
     (fst (main (plain_world four_threads_parallel) sample_argv))) by in_trace.
  destruct (parallel_settings (plain_world four_threads_parallel) sample_argv
              four_threads_parallel sample_graphs _ eq_refl H) as (a & b & _).
  split; [exact a | exact b].
Defined.

Lemma explicit_restarts_policy_witness :
  restarts_schedule
    (called_params (fst (main (plain_world luby_minus_one) sample_argv)) sample_params)
  = Some (LubyRestartsSchedule 18446744073709551615).
Proof.
  assert (H : In (call_solve_homomorphism_problem sample_graphs
      (called_params (fst (main (plain_world luby_minus_one) sample_argv)) sample_params))
     (fst (main (plain_world luby_minus_one) sample_argv))) by in_trace.
  destruct (explicit_restarts_policy (plain_world luby_minus_one) sample_argv
              luby_minus_one "luby" sample_graphs _ eq_refl eq_refl H)
    as [[_ Hs] | [[Hn _] | [[Hn _] | [Hn _]]]]; try discriminate Hn.
  exact Hs.
Defined.

Lemma negative_luby_constant_wraps_witness :
  restarts_schedule
    (called_params (fst (main (plain_world luby_minus_one) sample_argv)) sample_params)
  = Some (LubyRestartsSchedule (2 ^ 64 - 1)).
Proof.
  assert (H : In (call_solve_homomorphism_problem sample_graphs
      (called_params (fst (main (plain_world luby_minus_one) sample_argv)) sample_params))
     (fst (main (plain_world luby_minus_one) sample_argv))) by in_trace.
  assert (Hrange : (- 2 ^ 31 <= -1 < 2 ^ 31)%Z) by lia.
  exact (negative_luby_constant_wraps (plain_world luby_minus_one) sample_argv
           luby_minus_one (-1) sample_graphs _ eq_refl eq_refl eq_refl Hrange H).
Defined.

Lemma value_ordering_selected_witness :
  value_ordering_heuristic
    (called_params (fst (main (plain_world degree_ordering) sample_argv)) sample_params)
  = Degree.
Proof.
  assert (H : In (call_solve_homomorphism_problem sample_graphs
      (called_params (fst (main (plain_world degree_ordering) sample_argv)) sample_params))
     (fst (main (plain_world degree_ordering) sample_argv))) by in_trace.
  pose proof (value_ordering_selected (plain_world degree_ordering) sample_argv
                degree_ordering sample_graphs _ eq_refl H) as Hv.
  cbn [degree_ordering sample_options opt_value_ordering] in Hv.
  destruct Hv as [[Hn _] | [[_ Hs] | [[Hn _] | [Hn _]]]]; try discriminate Hn.
  exact Hs.
Defined.

Lemma less_than_constraints_forwarded_witness :
  pattern_less_constraints
    (called_params (fst (main (plain_world two_constraints) sample_argv)) sample_params)
  = [("a", "b"); ("c", "d<e")].
Proof.
  assert (H : In (call_solve_homomorphism_problem sample_graphs
      (called_params (fst (main (plain_world two_constraints) sample_argv)) sample_params))
     (fst (main (plain_world two_constraints) sample_argv))) by in_trace.
  destruct (less_than_constraints_forwarded (plain_world two_constraints) sample_argv
              two_constraints sample_graphs _ eq_refl eq_refl H) as [Hc _].
  exact Hc.
Defined.

Lemma less_than_round_trip_witness :
  configure_less_thans ["c<d<e"] sample_params =
  ([], Continue (set_pattern_less_constraints sample_params [("c", "d<e")])).
Proof.
  exact (less_than_round_trip "c" "d<e" sample_params
           (no_separator_of_find "c" eq_refl)).
Defined.

Lemma timeout_forwarded_witness :
  timeout (called_params (fst (main (plain_world plain) sample_argv)) sample_params)
  = 10%Z.
Proof.
  assert (H : In (call_solve_homomorphism_problem sample_graphs
      (called_params (fst (main (plain_world plain) sample_argv)) sample_params))
     (fst (main (plain_world plain) sample_argv))) by in_trace.
  destruct (timeout_forwarded (plain_world plain) sample_argv plain sample_graphs _
              eq_refl H) as [Ht _].
  exact Ht.
Defined.

Lemma lackey_forwarded_witness :
  exists l,
    lackey (called_params (fst (main (plain_world two_pipes) sample_argv)) sample_params)
    = Some l.
Proof.
  assert (H : In (call_solve_homomorphism_problem sample_graphs
      (called_params (fst (main (plain_world two_pipes) sample_argv)) sample_params))
     (fst (main (plain_world two_pipes) sample_argv))) by in_trace.
  pose proof (lackey_forwarded (plain_world two_pipes) sample_argv two_pipes
                sample_graphs _ eq_refl H) as Hl.
  cbn [two_pipes sample_options opt_send_to_lackey opt_receive_from_lackey] in Hl.
  destruct Hl as (l & _ & Hl). now exists l.
Defined.

Lemma symmetries_replace_constraints_witness :
  In (cout "pattern_automorphism_group_size = 1")
     (fst (main (plain_world symmetric) sample_argv)).
Proof.
  assert (H : In (call_solve_homomorphism_problem sample_graphs
      (called_params (fst (main (plain_world symmetric) sample_argv)) sample_params))
     (fst (main (plain_world symmetric) sample_argv))) by in_trace.
  destruct (symmetries_replace_constraints (plain_world symmetric) sample_argv
              symmetric sample_graphs _ eq_refl eq_refl H) as (r & Hr & _ & Hl).
  vm_compute in Hr. injection Hr as <-. exact Hl.
Defined.

Lemma group_size_echoed_witness :
  In (cout "pattern_automorphism_group_size = 12")
     (fst (main (plain_world group_size_given) sample_argv)).
Proof.
  assert (H : In (call_solve_homomorphism_problem sample_graphs
      (called_params (fst (main (plain_world group_size_given) sample_argv)) sample_params))
     (fst (main (plain_world group_size_given) sample_argv))) by in_trace.
  exact (group_size_echoed (plain_world group_size_given) sample_argv
           group_size_given "12" sample_graphs _ eq_refl eq_refl eq_refl H).
Defined.

Lemma graphs_from_named_files_witness :
  exists pf tf,
    In (cout ("pattern_file = " ++ pf)) (fst (main (plain_world plain) sample_argv)) /\
    In (cout ("target_file = " ++ tf)) (fst (main (plain_world plain) sample_argv)).
Proof.
  assert (H : In (call_solve_homomorphism_problem sample_graphs
      (called_params (fst (main (plain_world plain) sample_argv)) sample_params))
     (fst (main (plain_world plain) sample_argv))) by in_trace.
  destruct (graphs_from_named_files (plain_world plain) sample_argv plain
              sample_graphs _ eq_refl H)
    as (pf & tf & _ & _ & _ & _ & _ & _ & H1 & H2).
  exists pf, tf. split; [exact H1 | exact H2].
Defined.

Lemma report_layout_witness :
  snd (main found_world sample_argv) = EXIT_SUCCESS.
Proof.
  assert (H : In (call_solve_homomorphism_problem sample_graphs
      (called_params (fst (main found_world sample_argv)) sample_params))
     (fst (main found_world sample_argv))) by in_trace.
  destruct (report_layout found_world sample_argv plain sample_graphs _
              quiet_run (sample_result [(0, 1)]%Z 0) eq_refl H eq_refl)
    as (prefix & _ & Hm).
  now rewrite Hm.
Defined.

Lemma status_reported_witness :
  In (cout "status = true") (fst (main found_world sample_argv)).
Proof.
  assert (H : In (call_solve_homomorphism_problem sample_graphs
      (called_params (fst (main found_world sample_argv)) sample_params))
     (fst (main found_world sample_argv))) by in_trace.
  destruct (status_reported found_world sample_argv sample_graphs _
              quiet_run (sample_result [(0, 1)]%Z 0) H eq_refl eq_refl) as [Hyes _].
  apply Hyes. left. discriminate.
Defined.

Lemma solver_failure_reported_witness :
  snd (main failing_solver_world sample_argv) = EXIT_FAILURE.
Proof.
  assert (H : In (call_solve_homomorphism_problem sample_graphs
      (called_params (fst (main failing_solver_world sample_argv)) sample_params))
     (fst (main failing_solver_world sample_argv))) by in_trace.
  destruct (solver_failure_reported failing_solver_world sample_argv sample_graphs _
              quiet_run (std_exception "std::bad_alloc") H eq_refl)
    as (prefix & _ & Hm).
  now rewrite Hm.
Defined.

Lemma unopenable_pattern_file_witness :
  main closed_pattern_world sample_argv =
  ([cout "hostname = host";
    cout "commandline = glasgow_bigraph_solver pattern.big target.big";
    cout "started_at = 2020-01-01 00:00:00";
    open_ifstream "pattern.big";
    cerr "Error: Error reading graph file 'pattern.big': unable to open pattern file"],
   EXIT_FAILURE).
Proof.
  exact (unopenable_pattern_file closed_pattern_world sample_argv plain
           "pattern.big" "target.big" eq_refl eq_refl eq_refl eq_refl
           (recognised_None _) (recognised_None _) (Forall_nil _) eq_refl eq_refl).
Defined.

Lemma unopenable_target_file_witness :
  main closed_target_world sample_argv =
  ([cout "hostname = host";
    cout "commandline = glasgow_bigraph_solver pattern.big target.big";
    cout "started_at = 2020-01-01 00:00:00";
    open_ifstream "pattern.big"; open_ifstream "target.big";
    cerr "Error: Error reading graph file 'target.big': unable to open target file"],
   EXIT_FAILURE).
Proof.
  exact (unopenable_target_file closed_target_world sample_argv plain
           "pattern.big" "target.big" eq_refl eq_refl eq_refl eq_refl
           (recognised_None _) (recognised_None _) (Forall_nil _) eq_refl
           eq_refl eq_refl).
Defined.

Lemma mangling_options_ignored_witness :
  main (with_parser (plain_world plain)
          (fun _ => inr (with_mangling_options plain true true true true)))
       sample_argv
  = main (plain_world plain) sample_argv.
Proof.
  exact (mangling_options_ignored (plain_world plain) sample_argv plain
           true true true true eq_refl).
Defined.

Lemma banner_first_witness :
  exists rest,
    fst (main (plain_world plain) sample_argv) =
    cout "hostname = host"
    :: cout "commandline = glasgow_bigraph_solver pattern.big target.big"
    :: cout "started_at = 2020-01-01 00:00:00" :: rest.
Proof.
  assert (Hf : opt_pattern_file plain <> None /\ opt_target_file plain <> None)
    by (split; discriminate).
  exact (banner_first (plain_world plain) sample_argv plain eq_refl eq_refl
           (proj1 Hf) (proj2 Hf)
           (recognised_None _) (recognised_None _) (Forall_nil _) eq_refl).
Defined.

(** With the constraints [a<b], [ab], [cd] and one pipe only, the complaint
    is about [ab]. *)
Lemma checks_in_order_witness :
  main (plain_world bad_then_worse) sample_argv =
  ([cerr "Invalid pattern less-than constraint 'ab'"], EXIT_FAILURE).
Proof.
  assert (Hf : opt_pattern_file bad_then_worse <> None /\
               opt_target_file bad_then_worse <> None) by (split; discriminate).
  destruct (checks_in_order (plain_world bad_then_worse) sample_argv bad_then_worse
              eq_refl eq_refl (proj1 Hf) (proj2 Hf)) as [_ Hrest].
  destruct (Hrest (recognised_None _)) as [_ Hrest'].
  destruct (Hrest' (recognised_None _)) as [Hless _].
  apply (Hless ["a<b"] "ab" ["cd"] eq_refl).
  - constructor; [| constructor]. intros H. apply H. vm_compute. tauto.
  - apply (no_separator_of_find "ab" eq_refl).
Defined.

(** With [--pattern-symmetries] and a symmetry tool that succeeds on the
    call [main] makes and on no other, the solver is called. *)
Lemma solver_reached_witness :
  exists p,
    In (call_solve_homomorphism_problem (sample_graph, sample_graph) p)
       (fst (main picky_symmetries_world sample_argv)).
Proof.
  apply (solver_reached picky_symmetries_world sample_argv symmetric
           "pattern.big" "target.big" sample_graph sample_graph
           eq_refl eq_refl eq_refl eq_refl
           (recognised_None _) (recognised_None _) (Forall_nil _) eq_refl
           eq_refl eq_refl eq_refl eq_refl).
  - intros s r Hs. discriminate Hs.
  - intros _. eexists. reflexivity.
Defined.
